(** * jetstream-turbo: the hydration engine, embedded and verified

    A shallow embedding of the Python sources

      - [app/hydration.py]    ([LRUCache], [Hydration.hydrate_bulk])
      - [app/bluesky_api.py]  ([BlueskyAPI._chunked_map] and the two bulk calls)
      - [app/turbocharger.py] ([TurboCharger.run], [_process_batch],
                               [_hydrate_and_release])

    Python objects are terms of [value]; an [OrderedDict] and a [dict] are
    association lists in insertion order; a [set] is a duplicate-free list
    whose iteration order is a parameter; exceptions are the [Raise] branch
    of [result]; the caches, the semaphore and the log of remote calls are
    threaded explicitly. *)

From Stdlib Require Import ZArith List String Ascii Bool Lia Permutation Arith Sorted.
From Stdlib Require Import DecimalString.
Import ListNotations.
Local Open Scope list_scope.
Local Abbreviation length := Datatypes.length.
Local Abbreviation concat := List.concat.
Set Warnings "-register-all".

(* ================================================================= *)
(** * Python values *)

(** What [json.loads] produces and what the code builds from it: [None],
    integers, strings, lists and dictionaries.  JSON floats and booleans are
    left out (the only number the code reads is [time_us], integer
    microseconds).  A dictionary is its list of items in insertion order. *)
Inductive value : Type :=
| VNone
| VInt (z : Z)
| VStr (s : string)
| VList (l : list value)
| VDict (d : list (value * value)).

Fixpoint value_eq_dec (a b : value) {struct a} : {a = b} + {a <> b}.
Proof.
  decide equality.
  - apply Z.eq_dec.
  - apply string_dec.
  - apply (list_eq_dec value_eq_dec).
  - apply list_eq_dec. decide equality.
Defined.

Definition value_eqb (a b : value) : bool :=
  if value_eq_dec a b then true else false.

(** Exceptions the modelled code can raise.  [RemoteError] stands for
    whatever the atproto client raises on a failed request; [Unsupported]
    marks the one Python behaviour the model does not cover
    (printf-style [str % x]). *)
Inductive exn : Type :=
| KeyError
| TypeError
| AttributeError
| ZeroDivisionError
| IndexError
| RemoteError (code : nat)
| Unsupported.

Inductive result (A : Type) : Type :=
| Ok (a : A)
| Raise (e : exn).
Arguments Ok {A} a.
Arguments Raise {A} e.

Definition rbind {A B} (r : result A) (f : A -> result B) : result B :=
  match r with
  | Ok a => f a
  | Raise e => Raise e
  end.

Declare Scope result_scope.
Delimit Scope result_scope with res.
Notation "x <- c ;; k" := (rbind c (fun x => k))
  (at level 61, c at next level, right associativity) : result_scope.

(** [bool(v)]: truthiness. *)
Definition truthy (v : value) : bool :=
  match v with
  | VNone => false
  | VInt z => negb (Z.eqb z 0)
  | VStr s => negb (String.eqb s "")
  | VList l => match l with [] => false | _ => true end
  | VDict d => match d with [] => false | _ => true end
  end.

(** [hash(v)] succeeds: lists and dictionaries are unhashable. *)
Definition hashable (v : value) : bool :=
  match v with
  | VList _ | VDict _ => false
  | _ => true
  end.

(** [v == "literal"]. *)
Definition eq_str (v : value) (s : string) : bool :=
  match v with
  | VStr t => String.eqb t s
  | _ => false
  end.

(** Dictionaries keyed by (hashable) values; the stored values are of any
    type [V] (Python values, sets, or the client library's model objects). *)
Section Dict.
Context {V : Type}.

(** Item lookup (first match; the keys of a dictionary are unique). *)
Fixpoint assoc (k : value) (d : list (value * V)) : option V :=
  match d with
  | [] => None
  | (k', v) :: d' => if value_eq_dec k k' then Some v else assoc k d'
  end.

(** [d[k] = v] on a [dict] and on an [OrderedDict]: an existing key keeps
    its position and takes the new value, a new key goes to the end. *)
Fixpoint setitem (k : value) (v : V) (d : list (value * V)) : list (value * V) :=
  match d with
  | [] => [(k, v)]
  | (k', v') :: d' =>
      if value_eq_dec k k' then (k', v) :: d' else (k', v') :: setitem k v d'
  end.

(** The entries left after [d.pop(k)]. *)
Fixpoint delitem (k : value) (d : list (value * V)) : list (value * V) :=
  match d with
  | [] => []
  | (k', v') :: d' =>
      if value_eq_dec k k' then d' else (k', v') :: delitem k d'
  end.

Definition keys (d : list (value * V)) : list value := map fst d.

(** [k in d]. *)
Definition contains (k : value) (d : list (value * V)) : bool :=
  match assoc k d with Some _ => true | None => false end.

(** [d.pop(k)]: [KeyError] on a missing key. *)
Definition pop (k : value) (d : list (value * V))
  : result (V * list (value * V)) :=
  match assoc k d with
  | Some v => Ok (v, delitem k d)
  | None => Raise KeyError
  end.

(** [d.popitem(last=False)]: [KeyError] on an empty dictionary. *)
Definition popitem_first (d : list (value * V))
  : result ((value * V) * list (value * V)) :=
  match d with
  | [] => Raise KeyError
  | kv :: d' => Ok (kv, d')
  end.

(** [d.update(e)]. *)
Definition update (d e : list (value * V)) : list (value * V) :=
  fold_left (fun acc kv => setitem (fst kv) (snd kv) acc) e d.
End Dict.

(** [k in d] as Python evaluates it: the key is hashed first, and a list
    or a dictionary is unhashable. *)
Definition py_in {V} (k : value) (d : list (value * V)) : result bool :=
  if hashable k then Ok (contains k d) else Raise TypeError.

(** [v.get(k, default)]: only a dictionary has [.get]; the key is a string
    literal at every call site of the modelled code. *)
Definition py_get (v : value) (k : string) (default : value) : result value :=
  match v with
  | VDict d => Ok (match assoc (VStr k) d with Some x => x | None => default end)
  | _ => Raise AttributeError
  end.

(** [for x in v]: a list yields its elements, a dictionary its keys, a
    string its characters; [None] and integers are not iterable. *)
Fixpoint chars (s : string) : list value :=
  match s with
  | EmptyString => []
  | String c s' => VStr (String c EmptyString) :: chars s'
  end.

Definition py_iter (v : value) : result (list value) :=
  match v with
  | VList l => Ok l
  | VDict d => Ok (keys d)
  | VStr s => Ok (chars s)
  | VNone | VInt _ => Raise TypeError
  end.

(** A [set] as the duplicate-free list of its elements in insertion order;
    [s.add(x)] raises [TypeError] on an unhashable element. *)
Definition set_add (x : value) (s : list value) : result (list value) :=
  if hashable x then
    Ok (if in_dec value_eq_dec x s then s else s ++ [x])
  else Raise TypeError.

(** [s.update(t)] for a set [t] (whose elements are hashable already). *)
Fixpoint set_update (s t : list value) : list value :=
  match t with
  | [] => s
  | x :: t' => set_update (if in_dec value_eq_dec x s then s else s ++ [x]) t'
  end.

(* ================================================================= *)
(** * LRUCache (hydration.py) *)

(** [self.max_size] and [self.cache], the [OrderedDict] with the least
    recently used entry first. *)
Record LRUCache : Type := mkLRU {
  max_size : Z;
  cache : list (value * value)
}.

(** [LRUCache(max_size=n)]. *)
Definition LRUCache_init (n : Z) : LRUCache := mkLRU n [].

(** [LRUCache.get]: the returned value is [None] for an absent key.  The
    test [key not in self.cache] hashes the key first, so a list or a
    dictionary as key raises [TypeError] with the cache untouched. *)
Definition lru_get (key : value) (c : LRUCache) : result value * LRUCache :=
  match py_in key (cache c) with
  | Raise e => (Raise e, c)
  | Ok false => (Ok VNone, c)
  | Ok true =>
      match pop key (cache c) with
      | Raise e => (Raise e, c)
      | Ok (v, d) => (Ok v, mkLRU (max_size c) (setitem key v d))
      end
  end.

(** [LRUCache.set]; [key in self.cache] hashes the key first. *)
Definition lru_set (key v : value) (c : LRUCache) : result unit * LRUCache :=
  match py_in key (cache c) with
  | Raise e => (Raise e, c)
  | Ok true =>
      match pop key (cache c) with
      | Raise e => (Raise e, c)
      | Ok (_, d) => (Ok tt, mkLRU (max_size c) (setitem key v d))
      end
  | Ok false =>
      if (Z.of_nat (length (cache c)) >=? max_size c)%Z then
        match popitem_first (cache c) with
        | Raise e => (Raise e, c)
        | Ok (_, d) => (Ok tt, mkLRU (max_size c) (setitem key v d))
        end
      else (Ok tt, mkLRU (max_size c) (setitem key v (cache c)))
  end.

(** A sequence of cache operations, for statements about every history. *)
Inductive lru_op : Type :=
| OpGet (key : value)
| OpSet (key v : value).

Definition lru_step (o : lru_op) (c : LRUCache) : result value * LRUCache :=
  match o with
  | OpGet k => lru_get k c
  | OpSet k v =>
      match lru_set k v c with
      | (Ok _, c') => (Ok VNone, c')
      | (Raise e, c') => (Raise e, c')
      end
  end.

(** The cache after a sequence of operations; an exception ends the run. *)
Fixpoint lru_run (ops : list lru_op) (c : LRUCache) : result LRUCache :=
  match ops with
  | [] => Ok c
  | o :: ops' =>
      match lru_step o c with
      | (Ok _, c') => lru_run ops' c'
      | (Raise e, _) => Raise e
      end
  end.

(* ================================================================= *)
(** * The remote API (bluesky_api.py) *)

(** An object of the client library ([ProfileViewDetailed], [PostView]):
    [ident] is its [.did], respectively [.uri], and [model_dump] the
    dictionary that [.model_dump()] returns.  Both attributes exist on
    every such object, so [hasattr(profile, "did")] and
    [hasattr(post_data, "model_dump")] hold. *)
Record model : Type := mkModel {
  ident : string;
  model_dump : list (value * value)
}.

(** The two endpoints of one logged-in client:
    [app.bsky.actor.get_profiles({"actors": sub}).profiles] and
    [app.bsky.feed.get_posts({"uris": sub}).posts]. *)
Record BlueskyAPI : Type := mkAPI {
  get_profiles : list value -> result (list model);
  get_posts : list value -> result (list model)
}.

(** One request sent to the remote. *)
Inductive call : Type :=
| GetProfiles (actors : list value)
| GetPosts (uris : list value).

Definition is_profile_call (c : call) : bool :=
  match c with GetProfiles _ => true | GetPosts _ => false end.

Definition is_post_call (c : call) : bool :=
  match c with GetPosts _ => true | GetProfiles _ => false end.

Definition call_keys (c : call) : list value :=
  match c with GetProfiles l => l | GetPosts l => l end.

(** [TurboCharger.semaphore] is [asyncio.Semaphore(100)]; [BATCH_SIZE]. *)
Definition PERMITS : Z := 100.
Definition BATCH_SIZE : nat := 10.

(** The process-wide state a hydration works on: the two class-level
    caches, the value of the admission semaphore, and two logs kept for
    the statements below (the requests sent to the remote and the batches
    handed to the sink). *)
Record state : Type := mkState {
  _user_cache : LRUCache;
  _post_cache : LRUCache;
  semaphore : Z;
  calls : list call;
  stored : list (list value)
}.

(** Stateful code that may raise; a raise keeps the state reached. *)
Definition M (A : Type) : Type := state -> result A * state.

Definition mret {A} (a : A) : M A := fun st => (Ok a, st).

Definition mbind {A B} (m : M A) (f : A -> M B) : M B :=
  fun st =>
    match m st with
    | (Ok a, st') => f a st'
    | (Raise e, st') => (Raise e, st')
    end.

Definition lift {A} (r : result A) : M A := fun st => (r, st).

Declare Scope M_scope.
Delimit Scope M_scope with M.
Notation "x <-- c ;; k" := (mbind c (fun x => k))
  (at level 61, c at next level, right associativity) : M_scope.

(** One of the two class-level caches, as the attribute read and
    written. *)
Record cache_attr : Type := mkAttr {
  getc : state -> LRUCache;
  setc : LRUCache -> state -> state
}.

(** [Hydration._user_cache] and [Hydration._post_cache]. *)
Definition user_attr : cache_attr :=
  mkAttr _user_cache
         (fun c st => mkState c (_post_cache st) (semaphore st) (calls st) (stored st)).

Definition post_attr : cache_attr :=
  mkAttr _post_cache
         (fun c st => mkState (_user_cache st) c (semaphore st) (calls st) (stored st)).

(** Run a method of the cache [a] on the state. *)
Definition on {A} (a : cache_attr) (f : LRUCache -> result A * LRUCache) : M A :=
  fun st => let (r, c) := f (getc a st) in (r, setc a c st).

Definition log_call (c : call) : M unit :=
  fun st =>
    (Ok tt, mkState (_user_cache st) (_post_cache st) (semaphore st)
                    (calls st ++ [c]) (stored st)).

Fixpoint foldM {A B} (f : A -> B -> result A) (l : list B) (a : A) : result A :=
  match l with
  | [] => Ok a
  | x :: l' => rbind (f a x) (foldM f l')
  end.

Fixpoint mfold {A B} (f : A -> B -> M A) (l : list B) (a : A) : M A :=
  match l with
  | [] => mret a
  | x :: l' => mbind (f a x) (mfold f l')
  end.

(** [asyncio.gather] awaited on a list of tasks: every task runs; the gathered results
    come in task order; when tasks raise, the exception of the first of
    them (in task order) is the one propagated. *)
Fixpoint gather {A} (tasks : list (M A)) : M (list A) :=
  fun st =>
    match tasks with
    | [] => (Ok [], st)
    | t :: ts =>
        let (r, st1) := t st in
        let (rs, st2) := gather ts st1 in
        (match r, rs with
         | Raise e, _ => Raise e
         | Ok _, Raise e => Raise e
         | Ok a, Ok l => Ok (a :: l)
         end, st2)
    end.

(** [range(start, stop, step)] for [step >= 1], unrolled at most [fuel]
    times ([stop] is always enough). *)
Fixpoint range (start stop step fuel : nat) : list nat :=
  match fuel with
  | O => []
  | S fuel' =>
      if start <? stop then start :: range (start + step) stop step fuel'
      else []
  end.

(** [items[i : j]]. *)
Definition slice {A} (items : list A) (i j : nat) : list A :=
  firstn (j - i) (skipn i items).

(** The argument lists of the [fetcher] calls of [_chunked_map]. *)
Definition chunks_of (items : list value) (chunk_size : nat) : list (list value) :=
  map (fun i => slice items i (i + chunk_size))
      (range 0 (length items) chunk_size (length items)).

(** [BlueskyAPI._chunked_map]. *)
Definition _chunked_map (items : list value) (chunk_size : nat)
    (fetcher : list value -> M (list (value * model))) : M (list (value * model)) :=
  match items with
  | [] => mret []
  | _ =>
      (chunks <-- gather (map fetcher (chunks_of items chunk_size)) ;;
       mret (fold_left update chunks []))%M
  end.

(** [{p.did: p for p in resp.profiles}] and [{p.uri: p for p in resp.posts}]. *)
Definition by_ident (l : list model) : list (value * model) :=
  fold_left (fun acc p => setitem (VStr (ident p)) p acc) l [].

(** The inner [fetch_profiles] / [fetch_posts]: one remote request. *)
Definition fetch_profiles (api : BlueskyAPI) (sub : list value) : M (list (value * model)) :=
  (_ <-- log_call (GetProfiles sub) ;;
   resp <-- lift (get_profiles api sub) ;;
   mret (by_ident resp))%M.

Definition fetch_posts (api : BlueskyAPI) (sub : list value) : M (list (value * model)) :=
  (_ <-- log_call (GetPosts sub) ;;
   resp <-- lift (get_posts api sub) ;;
   mret (by_ident resp))%M.

(** [BlueskyAPI.get_user_data_for_dids] and [hydrate_records_for_uris]. *)
Definition get_user_data_for_dids (api : BlueskyAPI) (dids : list value) :=
  _chunked_map dids 25 (fetch_profiles api).

Definition hydrate_records_for_uris (api : BlueskyAPI) (uris : list value) :=
  _chunked_map uris 25 (fetch_posts api).

(* ================================================================= *)
(** * Hydration.hydrate_bulk (hydration.py) *)

(** [random.choice(seq)] with the random draw [rnd] made explicit;
    [IndexError] on an empty sequence. *)
Definition random_choice {A} (rnd : nat) (l : list A) : result A :=
  match l with
  | [] => Raise IndexError
  | a :: _ => Ok (nth (rnd mod length l) l a)
  end.

(** The five accumulators of phase 1.  The two maps are keyed by the
    record's index in the batch. *)
Record refs : Type := mkRefs {
  record_mentions_map : list (value * list value);
  record_embed_map : list (value * value);
  all_dids : list value;
  all_uris : list value;
  mention_dids_global : list value
}.

Definition refs_init : refs := mkRefs [] [] [] [] [].

(** [if x: s.add(x)]. *)
Definition add_if_truthy (x : value) (s : list value) : result (list value) :=
  if truthy x then set_add x s else Ok s.

(** The body of [for feature in features], on the pair
    ([rec_dids], [mention_dids_global]). *)
Definition collect_feature (acc : list value * list value) (feature : value)
  : result (list value * list value) :=
  (ty <- py_get feature "$type" VNone ;;
   if eq_str ty "app.bsky.richtext.facet#mention" then
     mention_did <- py_get feature "did" VNone ;;
     if truthy mention_did then
       rd <- set_add mention_did (fst acc) ;;
       mg <- set_add mention_did (snd acc) ;;
       Ok (rd, mg)
     else Ok acc
   else Ok acc)%res.

(** The body of [for facet in facets]. *)
Definition collect_facet (acc : list value * list value) (facet : value)
  : result (list value * list value) :=
  (features <- py_get facet "features" (VList []) ;;
   fs <- py_iter features ;;
   foldM collect_feature fs acc)%res.

(** The body of the phase-1 loop, [for idx, rec in enumerate(records)]. *)
Definition collect_record (r : refs) (ir : nat * value) : result refs :=
  let idx := VInt (Z.of_nat (fst ir)) in
  let rec := snd ir in
  (did <- py_get rec "did" VNone ;;
   dids1 <- add_if_truthy did (all_dids r) ;;
   commit <- py_get rec "commit" (VDict []) ;;
   c_record <- py_get commit "record" (VDict []) ;;
   embed <- py_get c_record "embed" (VDict []) ;;
   ety <- py_get embed "$type" VNone ;;
   quoted <-
     (if eq_str ety "app.bsky.embed.record" then
        erec <- py_get embed "record" (VDict []) ;;
        quote_uri <- py_get erec "uri" VNone ;;
        if truthy quote_uri then
          uris <- set_add quote_uri (all_uris r) ;;
          Ok (uris, setitem idx quote_uri (record_embed_map r))
        else Ok (all_uris r, record_embed_map r)
      else Ok (all_uris r, record_embed_map r)) ;;
   facets <- py_get c_record "facets" (VList []) ;;
   fs <- py_iter facets ;;
   ment <- foldM collect_facet fs ([], mention_dids_global r) ;;
   reply <- py_get c_record "reply" (VDict []) ;;
   parent <- py_get reply "parent" (VDict []) ;;
   parent_uri <- py_get parent "uri" VNone ;;
   uris2 <- add_if_truthy parent_uri (fst quoted) ;;
   root <- py_get reply "root" (VDict []) ;;
   root_uri <- py_get root "uri" VNone ;;
   uris3 <- add_if_truthy root_uri uris2 ;;
   Ok (mkRefs (setitem idx (fst ment) (record_mentions_map r))
              (snd quoted) dids1 uris3 (snd ment)))%res.

(** [enumerate(records)]. *)
Definition enumerate {A} (l : list A) : list (nat * A) :=
  combine (seq 0 (length l)) l.

(** Phase 1: reference collection, up to and including
    [all_dids.update(mention_dids_global)]. *)
Definition collect_refs (records : list value) : result refs :=
  (r <- foldM collect_record (enumerate records) refs_init ;;
   Ok (mkRefs (record_mentions_map r) (record_embed_map r)
              (set_update (all_dids r) (mention_dids_global r))
              (all_uris r) (mention_dids_global r)))%res.

(** Phase 2, one cache:
    [[k for k in ks if cache.get(k) is None]]. *)
Definition probe_step (a : cache_attr) (missing : list value) (k : value)
  : M (list value) :=
  (v <-- on a (lru_get k) ;;
   mret (match v with VNone => missing ++ [k] | _ => missing end))%M.

Definition probe (a : cache_attr) (ks : list value) : M (list value) :=
  mfold (probe_step a) ks [].

(** The inner [fetch_missing_users] and [fetch_missing_posts]. *)
Definition fetch_missing_users (api : BlueskyAPI) (missing_dids : list value)
  : M (list (value * model)) :=
  match missing_dids with
  | [] => mret []
  | _ => get_user_data_for_dids api missing_dids
  end.

Definition fetch_missing_posts (api : BlueskyAPI) (missing_uris : list value)
  : M (list (value * model)) :=
  match missing_uris with
  | [] => mret []
  | _ => hydrate_records_for_uris api missing_uris
  end.

(** Phase 4, first half.  For profiles the key is [profile.did], for posts
    the key of the item; both are the object's [ident]
    (see [by_ident]), and the value is its [model_dump()]. *)
Definition publish_users (fetched_users : list (value * model)) : M unit :=
  mfold (fun _ kp =>
           on user_attr
              (lru_set (VStr (ident (snd kp))) (VDict (model_dump (snd kp)))))
        fetched_users tt.

Definition publish_posts (fetched_posts : list (value * model)) : M unit :=
  mfold (fun _ kp =>
           on post_attr (lru_set (fst kp) (VDict (model_dump (snd kp)))))
        fetched_posts tt.

(** Phase 4, second half, one cache: read every referenced key back,
    re-[set] the hits, and build [did_to_profile] / [uri_to_post]. *)
Definition readback_step (a : cache_attr) (tbl : list (value * value))
    (k : value) : M (list (value * value)) :=
  (val <-- on a (lru_get k) ;;
   _ <-- (match val with
          | VNone => mret tt
          | _ => on a (lru_set k val)
          end) ;;
   mret (setitem k val tbl))%M.

Definition readback (a : cache_attr) (ks : list value)
  : M (list (value * value)) :=
  mfold (readback_step a) ks [].

(** [d.get(k)] / [d.get(k, None)] on a dictionary: the key is hashed. *)
Definition dict_get (d : list (value * value)) (k : value) : result value :=
  if hashable k then
    Ok (match assoc k d with Some v => v | None => VNone end)
  else Raise TypeError.

(** [d[k]] on a dictionary whose values are sets. *)
Definition getitem {V} (d : list (value * V)) (k : value) : result V :=
  match assoc k d with
  | Some v => Ok v
  | None => Raise KeyError
  end.

(** [uri_to_post.get(u) if u else None]. *)
Definition get_if_truthy (d : list (value * value)) (u : value) : result value :=
  if truthy u then dict_get d u else Ok VNone.

Section Hydrate.

(** The order in which Python iterates a [set], given its elements in
    insertion order: unspecified, and fixed while the set is not
    modified. *)
Variable set_iter : list value -> list value.

(** [str(v)], as an f-string formats a value that is not a string. *)
Variable py_str : value -> string.

Definition fmt (v : value) : string :=
  match v with
  | VStr s => s
  | _ => py_str v
  end.

(** The [at_uri] of phase 5. *)
Definition make_at_uri (did collection rkey : value) : string :=
  if truthy did && truthy collection && truthy rkey then
    ("at://" ++ fmt did ++ "/" ++ fmt collection ++ "/" ++ fmt rkey)%string
  else ""%string.

(** The body of the phase-5 loop: the enriched object of one record. *)
Definition enrich (r : refs) (did_to_profile uri_to_post : list (value * value))
    (ir : nat * value) : result value :=
  let idx := VInt (Z.of_nat (fst ir)) in
  let rec := snd ir in
  (commit <- py_get rec "commit" (VDict []) ;;
   c_record <- py_get commit "record" (VDict []) ;;
   did <- py_get rec "did" (VStr "") ;;
   collection <- py_get commit "collection" (VStr "") ;;
   rkey <- py_get commit "rkey" (VStr "") ;;
   let at_uri := make_at_uri did collection rkey in
   time_us <- py_get c_record "time_us" VNone ;;
   user_profile <- dict_get did_to_profile did ;;
   rec_dids <- getitem (record_mentions_map r) idx ;;
   mention_dict <-
     foldM (fun md mention_did =>
              p <- dict_get did_to_profile mention_did ;;
              Ok (setitem mention_did p md))
           (set_iter rec_dids) [] ;;
   reply <- py_get c_record "reply" (VDict []) ;;
   parent <- py_get reply "parent" (VDict []) ;;
   parent_uri <- py_get parent "uri" VNone ;;
   parent_post <- get_if_truthy uri_to_post parent_uri ;;
   root <- py_get reply "root" (VDict []) ;;
   root_uri <- py_get root "uri" VNone ;;
   root_post <- get_if_truthy uri_to_post root_uri ;;
   let quote_uri :=
     match assoc idx (record_embed_map r) with Some u => u | None => VNone end in
   quote_post <- get_if_truthy uri_to_post quote_uri ;;
   let hydrated_metadata :=
     VDict [ (VStr "user", user_profile);
             (VStr "mentions", VDict mention_dict);
             (VStr "parent_post", parent_post);
             (VStr "reply_post", root_post);
             (VStr "quote_post", quote_post) ] in
   Ok (VDict [ (VStr "at_uri", VStr at_uri);
               (VStr "did", did);
               (VStr "time_us", time_us);
               (VStr "message", rec);
               (VStr "hydrated_metadata", hydrated_metadata) ]))%res.

(** Phase 5: [enriched_list]. *)
Definition assemble (r : refs) (did_to_profile uri_to_post : list (value * value))
    (records : list value) : result (list value) :=
  foldM (fun enriched_list ir =>
           (o <- enrich r did_to_profile uri_to_post ir ;;
            Ok (enriched_list ++ [o]))%res)
        (enumerate records) [].

(** Phase 3: the two bulk calls under [asyncio.gather]. *)
Definition fetch_missing (api : BlueskyAPI) (missing_dids missing_uris : list value)
  : M (list (value * model) * list (value * model)) :=
  (rs <-- gather [fetch_missing_users api missing_dids;
                  fetch_missing_posts api missing_uris] ;;
   mret (nth 0 rs [], nth 1 rs []))%M.

(** Phase 2 on both caches (the reader-lock section). *)
Definition probe_caches (r : refs) : M (list value * list value) :=
  (missing_dids <-- probe user_attr (set_iter (all_dids r)) ;;
   missing_uris <-- probe post_attr (set_iter (all_uris r)) ;;
   mret (missing_dids, missing_uris))%M.

(** Phase 4 (the writer-lock section). *)
Definition publish_and_read (r : refs)
    (fetched_users fetched_posts : list (value * model))
  : M (list (value * value) * list (value * value)) :=
  (_ <-- publish_users fetched_users ;;
   _ <-- publish_posts fetched_posts ;;
   did_to_profile <-- readback user_attr (set_iter (all_dids r)) ;;
   uri_to_post <-- readback post_attr (set_iter (all_uris r)) ;;
   mret (did_to_profile, uri_to_post))%M.

(** [Hydration.hydrate_bulk(records, api_clients)]; [rnd] is the draw of
    [random.choice].  The two locks are not modelled: this is one
    hydration with no other task interleaved. *)
Definition hydrate_bulk (records : list value) (api_clients : list BlueskyAPI)
    (rnd : nat) : M (list value) :=
  (r <-- lift (collect_refs records) ;;
   missing <-- probe_caches r ;;
   api <-- lift (random_choice rnd api_clients) ;;
   fetched <-- fetch_missing api (fst missing) (snd missing) ;;
   tables <-- publish_and_read r (fst fetched) (snd fetched) ;;
   lift (assemble r (fst tables) (snd tables) records))%M.

(* =============================================================== *)
(** * TurboCharger (turbocharger.py) *)

(** [a % b]: floor modulo on integers; [ZeroDivisionError] on a zero
    divisor; [TypeError] when an operand is [None], a list or a
    dictionary, or the right operand of an integer is not an integer.
    A string on the left is printf-style formatting, not modelled. *)
Definition py_mod (a b : value) : result value :=
  match a, b with
  | VInt x, VInt y =>
      if (y =? 0)%Z then Raise ZeroDivisionError else Ok (VInt (x mod y))
  | VStr _, _ => Raise Unsupported
  | _, _ => Raise TypeError
  end.

(** The condition of [TurboCharger.run] that decides whether [record]
    is buffered:
    [(not self.modulo and not self.shard) or
     (record.get("time_us") % self.modulo == self.shard)]. *)
Definition shard_filter (modulo shard record : value) : result bool :=
  if negb (truthy modulo) && negb (truthy shard) then Ok true
  else
    (t <- py_get record "time_us" VNone ;;
     m <- py_mod t modulo ;;
     Ok (value_eqb m shard))%res.

(** The sink, [Egress.store_records]: opaque, may raise. *)
Variable store_records : list value -> result unit.

(** [await semaphore.acquire()]: takes a permit when one is free;
    [None] when the caller has to wait for a release. *)
Definition acquire (st : state) : option state :=
  if (0 <? semaphore st)%Z then
    Some (mkState (_user_cache st) (_post_cache st)
                  (semaphore st - 1) (calls st) (stored st))
  else None.

(** [semaphore.release()]. *)
Definition release (st : state) : state :=
  mkState (_user_cache st) (_post_cache st)
          (semaphore st + 1) (calls st) (stored st).

Definition store (enriched : list value) : M unit :=
  fun st =>
    match store_records enriched with
    | Ok _ => (Ok tt, mkState (_user_cache st) (_post_cache st) (semaphore st)
                             (calls st) (stored st ++ [enriched]))
    | Raise e => (Raise e, st)
    end.

(** [TurboCharger._hydrate_and_release]: [try: ... finally:
    semaphore.release()]. *)
Definition _hydrate_and_release (records : list value)
    (bluesky_clients : list BlueskyAPI) (rnd : nat) : M unit :=
  fun st =>
    let (r, st') :=
      (enriched <-- hydrate_bulk records bluesky_clients rnd ;;
       store enriched)%M st in
    (r, release st').

(** The first statement of the loop body of [TurboCharger.run]: the
    buffer after [record] has been looked at. *)
Definition buffer_record (modulo shard : value) (buffer : list value)
    (record : value) : result (list value) :=
  (keep <- shard_filter modulo shard record ;;
   Ok (if keep then buffer ++ [record] else buffer))%res.

(** [TurboCharger._process_batch] up to the point where the task is
    created: the batch, the buffer left, and the state with the permit
    taken. *)
Definition _process_batch (buffer : list value) (st : state)
  : option (list value * list value * state) :=
  let batch := firstn BATCH_SIZE buffer in
  let buffer' := skipn BATCH_SIZE buffer in
  match acquire st with
  | Some st' => Some (batch, buffer', st')
  | None => None
  end.

End Hydrate.

(* ================================================================= *)
(** * Further code *)

(** ** Hydration.configure_cache (hydration.py) *)

(** Both class-level caches are replaced by empty ones of the given sizes.
    (The two size attributes it also sets are read by no other code.) *)
Definition configure_cache (user_cache_size post_cache_size : Z) : M unit :=
  fun st =>
    (Ok tt, mkState (LRUCache_init user_cache_size) (LRUCache_init post_cache_size)
                    (semaphore st) (calls st) (stored st)).

(** ** TurboCharger.run (turbocharger.py) *)

(** The charger: the filter settings, the buffer, the clients that
    [load_clients] left, and the process state (the caches and the
    semaphore).  [tasks] are the batches of the tasks that
    [asyncio.create_task] was given and that have not finished; [created]
    and [finished] log, for the statements, the batch of every task created
    and of every task finished. *)
Record TurboCharger : Type := mkTurbo {
  modulo : value;
  shard : value;
  buffer : list value;
  bluesky_clients : list BlueskyAPI;
  tasks : list (list value);
  created : list (list value);
  finished : list (list value);
  process : state
}.

(** [TurboCharger(...)] and [load_clients()]: an empty buffer, a semaphore
    of 100 permits, no task. *)
Definition TurboCharger_init (modulo shard : value) (clients : list BlueskyAPI)
    (st : state) : TurboCharger :=
  mkTurbo modulo shard [] clients [] [] []
          (mkState (_user_cache st) (_post_cache st) PERMITS (calls st) (stored st)).

(** What happens to a running charger: the stream yields a record, the
    [i]-th unfinished task runs to its end (with [rnd] the draw of its
    [random.choice]), or the stream ends.  A task runs
    [_hydrate_and_release] in one step: hydrations are not interleaved with
    one another. *)
Inductive event : Type :=
| Message (record : value)
| TaskDone (i rnd : nat)
| StreamEnd.

(** [l] without its [i]-th element. *)
Definition remove_nth {A} (i : nat) (l : list A) : list A :=
  firstn i l ++ skipn (S i) l.

Section Run.

Variable set_iter : list value -> list value.
Variable py_str : value -> string.
Variable store_records : list value -> result unit.

(** [await self._process_batch()]: the batch is cut off the buffer, a
    permit is taken and the task is created.  [None] while no permit is
    free: [run] waits in [acquire] until a task releases one. *)
Definition dispatch (tc : TurboCharger) : option TurboCharger :=
  match _process_batch (buffer tc) (process tc) with
  | Some (batch, buffer', st') =>
      Some (mkTurbo (modulo tc) (shard tc) buffer' (bluesky_clients tc)
                    (tasks tc ++ [batch]) (created tc ++ [batch]) (finished tc) st')
  | None => None
  end.

(** The body of the loop of [run], for one record of the stream. *)
Definition run_record (tc : TurboCharger) (record : value)
  : result (option TurboCharger) :=
  (buffer' <- buffer_record (modulo tc) (shard tc) (buffer tc) record ;;
   let tc' := mkTurbo (modulo tc) (shard tc) buffer' (bluesky_clients tc)
                      (tasks tc) (created tc) (finished tc) (process tc) in
   Ok (if BATCH_SIZE <=? length buffer' then dispatch tc' else Some tc'))%res.

(** After the loop: [if self.buffer: await self._process_batch()]. *)
Definition run_end (tc : TurboCharger) : option TurboCharger :=
  match buffer tc with
  | [] => Some tc
  | _ => dispatch tc
  end.

(** A task runs to its end.  Nothing awaits the task, so an exception it
    raises reaches no one: only its effect on the state remains. *)
Definition finish_task (i rnd : nat) (tc : TurboCharger) : option TurboCharger :=
  match nth_error (tasks tc) i with
  | Some batch =>
      Some (mkTurbo (modulo tc) (shard tc) (buffer tc) (bluesky_clients tc)
                    (remove_nth i (tasks tc)) (created tc) (finished tc ++ [batch])
                    (snd (_hydrate_and_release set_iter py_str store_records batch
                            (bluesky_clients tc) rnd (process tc))))
  | None => None
  end.

(** One event; [Ok None] when the event cannot happen in this state ([run]
    is waiting for a permit, or there is no such task). *)
Definition step (ev : event) (tc : TurboCharger) : result (option TurboCharger) :=
  match ev with
  | Message record => run_record tc record
  | TaskDone i rnd => Ok (finish_task i rnd tc)
  | StreamEnd => Ok (run_end tc)
  end.

(** [TurboCharger.run] along a schedule of events. *)
Fixpoint run (evs : list event) (tc : TurboCharger) : result (option TurboCharger) :=
  match evs with
  | [] => Ok (Some tc)
  | ev :: evs' =>
      match step ev tc with
      | Ok (Some tc') => run evs' tc'
      | Ok None => Ok None
      | Raise e => Raise e
      end
  end.

End Run.

(** ** BlueskyAPI.load_sessions (bluesky_api.py) *)

(** [s.split(sep)] for a non-empty [sep]: the pieces of [s] between the
    occurrences of [sep], found from the left and not overlapping.  [skip]
    counts the characters of the occurrence found that are still to pass,
    [cur] is the piece being read. *)
Fixpoint split_from (sep : string) (skip : nat) (cur s : string) : list string :=
  match s with
  | EmptyString => [cur]
  | String c s' =>
      match skip with
      | S k => split_from sep k cur s'
      | O =>
          if String.prefix sep s
          then cur :: split_from sep (String.length sep - 1) EmptyString s'
          else split_from sep 0 (cur ++ String c EmptyString)%string s'
      end
  end.

Definition py_split (sep s : string) : list string :=
  split_from sep 0 EmptyString s.

(** [ss.split(":::")[-1]]. *)
Definition session_domain (ss : string) : string :=
  last (py_split ":::" ss) EmptyString.

Definition CLIENT_BANDWIDTH : nat := 10.

Section Sessions.

(** [AsyncClient(domain)] followed by [client.login(session_string=ss)]:
    the client logged in, or the exception raised on the way. *)
Variable login : string -> string -> result BlueskyAPI.

(** The body of the loop of [load_sessions], on the pair ([apis], [bads]).
    Whatever is raised inside the [try], the [AttributeError] of a session
    string that is not a string included, is caught by the bare [except]. *)
Definition load_step (acc : list BlueskyAPI * list value) (ss : value)
  : list BlueskyAPI * list value :=
  let (apis, bads) := acc in
  if length apis <? CLIENT_BANDWIDTH then
    match ss with
    | VStr s =>
        match login (session_domain s) s with
        | Ok api => (apis ++ [api], bads)
        | Raise _ => (apis, bads ++ [ss])
        end
    | _ => (apis, bads ++ [ss])
    end
  else acc.

(** [BlueskyAPI.load_sessions(session_strings)]. *)
Definition load_sessions (session_strings : list value) : list BlueskyAPI :=
  fst (fold_left load_step session_strings ([], [])).

End Sessions.

(** ** GrazeAPI.fetch_session_strings (graze_api.py) *)

(** [s.rstrip(c)] for one character [c]. *)
Fixpoint rstrip (c : ascii) (s : string) : string :=
  match s with
  | EmptyString => EmptyString
  | String a s' =>
      match rstrip c s' with
      | EmptyString => if Ascii.eqb a c then EmptyString else String a EmptyString
      | t => String a t
      end
  end.

(** The URL of the request. *)
Definition credentials_url (graze_api_base_url turbo_credential_secret : string)
  : string :=
  (rstrip "/" graze_api_base_url
   ++ "/app/api/v1/turbo-tokens/credentials?credential_secret="
   ++ turbo_credential_secret)%string.

(** [v[k]] for a string [k]: only a dictionary can be indexed by a
    string. *)
Definition subscript (v : value) (k : string) : result value :=
  match v with
  | VDict d =>
      match assoc (VStr k) d with
      | Some x => Ok x
      | None => Raise KeyError
      end
  | _ => Raise TypeError
  end.

Section Graze.

(** [client.get(url)], [raise_for_status()] and [response.json()]. *)
Variable http_get : string -> result value.

Definition fetch_session_strings (graze_api_base_url turbo_credential_secret : string)
  : result (list value) :=
  (credentials <- http_get (credentials_url graze_api_base_url
                                            turbo_credential_secret) ;;
   creds <- py_iter credentials ;;
   foldM (fun acc cred =>
            s <- subscript cred "session_string" ;; Ok (acc ++ [s]))
         creds [])%res.

End Graze.

(* ================================================================= *)
(** * Notions used by the statements *)

(** The entries of [d] other than the one for [k], in their order. *)
Definition others {V} (k : value) (d : list (value * V)) : list (value * V) :=
  filter (fun kv => negb (value_eqb (fst kv) k)) d.

Definition op_key (o : lru_op) : value :=
  match o with OpGet k => k | OpSet k _ => k end.

(** Position (from 1) of the last operation of a history that names
    [k]; 0 when none does. *)
Fixpoint last_use (hist : list lru_op) (k : value) : nat :=
  match hist with
  | [] => 0
  | o :: hist' =>
      match last_use hist' k with
      | O => if value_eqb (op_key o) k then 1 else 0
      | S p => S (S p)
      end
  end.

(** [a] was used before [b]. *)
Definition older (hist : list lru_op) (a b : value) : Prop :=
  last_use hist a < last_use hist b.

(** A cache as the code keeps it: keys unique, size within the bound. *)
Definition lru_wf (c : LRUCache) : Prop :=
  NoDup (keys (cache c)) /\ (Z.of_nat (length (cache c)) <= max_size c)%Z.

(** What holds of the cache after the history [hist]: the bound is the
    configured one, the stored keys are unique and within the bound, each
    was named by an operation, and they stand in order of last use, the
    least recently used first. *)
Definition lru_inv (n : Z) (hist : list lru_op) (c : LRUCache) : Prop :=
  max_size c = n /\ lru_wf c /\
  Forall (fun k => 0 < last_use hist k) (keys (cache c)) /\
  StronglySorted (older hist) (keys (cache c)).

(** The least integer not below [a / b]. *)
Definition ceil_div (a b : nat) : nat := (a + b - 1) / b.

(** The state with [l] appended to the log of remote calls. *)
Definition with_calls (st : state) (l : list call) : state :=
  mkState (_user_cache st) (_post_cache st) (semaphore st)
          (calls st ++ l) (stored st).

(** The outcome of gathered tasks, from the outcomes of the tasks. *)
Fixpoint gathered {A} (rs : list (result A)) : result (list A) :=
  match rs with
  | [] => Ok []
  | r :: rs' =>
      match r, gathered rs' with
      | Raise e, _ => Raise e
      | Ok _, Raise e => Raise e
      | Ok a, Ok l => Ok (a :: l)
      end
  end.

(** The result of a bulk call does not depend on the state, and its only
    effect is on the log. *)
Definition users_result (api : BlueskyAPI) (missing_dids : list value)
  : result (list (value * model)) :=
  match missing_dids with
  | [] => Ok []
  | _ => rbind (gathered (map (fun sub => rbind (get_profiles api sub)
                                             (fun resp => Ok (by_ident resp)))
                              (chunks_of missing_dids 25)))
               (fun chunks => Ok (fold_left update chunks []))
  end.

Definition posts_result (api : BlueskyAPI) (missing_uris : list value)
  : result (list (value * model)) :=
  match missing_uris with
  | [] => Ok []
  | _ => rbind (gathered (map (fun sub => rbind (get_posts api sub)
                                             (fun resp => Ok (by_ident resp)))
                              (chunks_of missing_uris 25)))
               (fun chunks => Ok (fold_left update chunks []))
  end.

(** The calls of one hydration: the profile chunks, then the post chunks. *)
Definition batch_calls (missing_dids missing_uris : list value) : list call :=
  map GetProfiles (chunks_of missing_dids 25) ++
  map GetPosts (chunks_of missing_uris 25).

(** What [cache.get(k)] would return: the stored value, or [None]. *)
Definition lookup (k : value) (c : LRUCache) : value :=
  match assoc k (cache c) with Some v => v | None => VNone end.

(** The entries [B] are the most recently used ones of [c], and their keys
    are among [K]. *)
Definition recent (K : list value) (c : LRUCache) (B : list (value * value)) : Prop :=
  lru_wf c /\ (exists A, cache c = A ++ B) /\ incl (keys B) K.

(** Same bound, same entries, possibly in another order. *)
Definition same_entries (c c' : LRUCache) : Prop :=
  max_size c' = max_size c /\ Permutation (cache c) (cache c').

(** No stored value is [None] (the caches only ever receive the
    dictionaries of [model_dump()]). *)
Definition no_none (c : LRUCache) : Prop :=
  Forall (fun kv => snd kv <> VNone) (cache c).

(** The two laws of an attribute: what is written is what is read, and a
    second write replaces the first. *)
Definition attr_ok (a : cache_attr) : Prop :=
  (forall c st, getc a (setc a c st) = c) /\
  (forall c c' st, setc a c' (setc a c st) = setc a c' st) /\
  (forall st, setc a (getc a st) st = st).

(** [v is None]. *)
Definition is_none (v : value) : bool :=
  match v with VNone => true | _ => false end.

(** [st'] differs from [st] in the caches at most. *)
Definition caches_only (st st' : state) : Prop :=
  semaphore st' = semaphore st /\ calls st' = calls st /\ stored st' = stored st.

(** The keys that phase 2 reports as missing from [c]. *)
Definition missing_from (c : LRUCache) (ks : list value) : list value :=
  filter (fun k => is_none (lookup k c)) ks.

(** A Python [set] in the model: elements hashable, each once. *)
Definition is_set (l : list value) : Prop :=
  NoDup l /\ Forall (fun k => hashable k = true) l.

(** The key under which phase 1 files the record at position [i]. *)
Definition idx_key (i : nat) : value := VInt (Z.of_nat i).

(** The mention DIDs that phase 1 extracts from one record: its
    [rec_dids]. *)
Definition rec_mentions (rec : value) : result (list value) :=
  (commit <- py_get rec "commit" (VDict []) ;;
   c_record <- py_get commit "record" (VDict []) ;;
   facets <- py_get c_record "facets" (VList []) ;;
   fs <- py_iter facets ;;
   ment <- foldM collect_facet fs ([], []) ;;
   Ok (fst ment))%res.

(** What phase 1 maintains on its accumulators. *)
Definition refs_ok (r : refs) : Prop :=
  is_set (all_dids r) /\ is_set (all_uris r) /\
  is_set (mention_dids_global r) /\
  Forall (fun e => is_set (snd e) /\ incl (snd e) (mention_dids_global r))
         (record_mentions_map r) /\
  Forall (fun e => hashable (snd e) = true /\ In (snd e) (all_uris r))
         (record_embed_map r).

(** The pair ([rec_dids], [mention_dids_global]) under the facet loops. *)
Definition mentions_ok (g0 : list value) (acc : list value * list value) : Prop :=
  is_set (fst acc) /\ is_set (snd acc) /\ incl (fst acc) (snd acc) /\
  incl g0 (snd acc).

(** Inversion of a chain of binds that ended in [Ok]. *)
Ltac inv_rbind H :=
  repeat match type of H with
  | rbind ?c _ = Ok _ =>
      let E := fresh "E" in
      destruct c eqn:E; [simpl in H | discriminate H]
  end.

(** The fields of an enriched object, given what phase 5 read and looked
    up. *)
Definition enriched_obj (at_uri : string) (did time_us rec user_profile : value)
    (mention_dict : list (value * value)) (parent_post root_post quote_post : value)
  : value :=
  VDict [ (VStr "at_uri", VStr at_uri);
          (VStr "did", did);
          (VStr "time_us", time_us);
          (VStr "message", rec);
          (VStr "hydrated_metadata",
           VDict [ (VStr "user", user_profile);
                   (VStr "mentions", VDict mention_dict);
                   (VStr "parent_post", parent_post);
                   (VStr "reply_post", root_post);
                   (VStr "quote_post", quote_post) ]) ].

(** [d.get(k)] as a value: [None] for a missing key. *)
Definition tbl_get (d : list (value * value)) (k : value) : value :=
  match assoc k d with Some v => v | None => VNone end.

(** The remote returns objects for requested keys only. *)
Definition answers_within (f : list value -> result (list model)) : Prop :=
  forall sub resp p, f sub = Ok resp -> In p resp -> In (VStr (ident p)) sub.

(** ** Records whose nodes have the types the data model gives them *)

Definition is_dict (v : value) : bool :=
  match v with VDict _ => true | _ => false end.

(** The field [k] of a node, [default] when the key is missing (or the
    node is not a dictionary). *)
Definition getd (v : value) (k : string) (default : value) : value :=
  match v with
  | VDict d => match assoc (VStr k) d with Some x => x | None => default end
  | _ => default
  end.

(** A leaf that phase 1 can take: falsy (skipped), or hashable. *)
Definition leaf_ok (v : value) : bool := negb (truthy v) || hashable v.

Definition feature_ok (feature : value) : bool :=
  is_dict feature &&
  (if eq_str (getd feature "$type" VNone) "app.bsky.richtext.facet#mention"
   then leaf_ok (getd feature "did" VNone) else true).

Definition facet_ok (facet : value) : bool :=
  is_dict facet &&
  match getd facet "features" (VList []) with
  | VList fs => forallb feature_ok fs
  | _ => false
  end.

(** The nodes that phase 1 walks, and its leaves. *)
Definition node_commit (rec : value) : value := getd rec "commit" (VDict []).
Definition node_record (rec : value) : value :=
  getd (node_commit rec) "record" (VDict []).
Definition node_embed (rec : value) : value :=
  getd (node_record rec) "embed" (VDict []).
Definition node_reply (rec : value) : value :=
  getd (node_record rec) "reply" (VDict []).
Definition node_parent (rec : value) : value :=
  getd (node_reply rec) "parent" (VDict []).
Definition node_root (rec : value) : value :=
  getd (node_reply rec) "root" (VDict []).

Definition posting_did (rec : value) : value := getd rec "did" VNone.
Definition parent_uri (rec : value) : value := getd (node_parent rec) "uri" VNone.
Definition root_uri (rec : value) : value := getd (node_root rec) "uri" VNone.
Definition is_quote (rec : value) : bool :=
  eq_str (getd (node_embed rec) "$type" VNone) "app.bsky.embed.record".
Definition quote_uri (rec : value) : value :=
  getd (getd (node_embed rec) "record" (VDict [])) "uri" VNone.

(** The elements of a node that is a list; a missing node, or one of
    another type, has none. *)
Definition list_of (v : value) : list value :=
  match v with VList l => l | _ => [] end.

(** The features of a record: those listed under [features] by each
    element of [commit.record.facets]. *)
Definition features_of (rec : value) : list value :=
  flat_map (fun facet => list_of (getd facet "features" (VList [])))
           (list_of (getd (node_record rec) "facets" (VList []))).

(** The DID that a feature mentions: its [did], when the feature is of the
    mention type and the [did] is truthy. *)
Definition mention_of (feature : value) : list value :=
  if eq_str (getd feature "$type" VNone) "app.bsky.richtext.facet#mention"
     && truthy (getd feature "did" VNone)
  then [getd feature "did" VNone] else [].

(** The DIDs that a record mentions, read off the record itself. *)
Definition mention_dids (rec : value) : list value :=
  flat_map mention_of (features_of rec).

(** Every node that is present is a dictionary (for [facets] and
    [features]: a list of dictionaries), and no leaf is a non-empty list or
    dictionary. *)
Definition well_typed (rec : value) : bool :=
  is_dict rec && leaf_ok (posting_did rec) &&
  is_dict (node_commit rec) && is_dict (node_record rec) &&
  is_dict (node_embed rec) &&
  (if is_quote rec
   then is_dict (getd (node_embed rec) "record" (VDict [])) && leaf_ok (quote_uri rec)
   else true) &&
  match getd (node_record rec) "facets" (VList []) with
  | VList fs => forallb facet_ok fs
  | _ => false
  end &&
  is_dict (node_reply rec) &&
  is_dict (node_parent rec) && leaf_ok (parent_uri rec) &&
  is_dict (node_root rec) && leaf_ok (root_uri rec).

(** The references of [rec] are in the sets [dids], [uris] and, for the
    mentions, [ments]: its posting DID, its two reply URIs, its quote URI
    and every DID it mentions. *)
Definition emitted_in (rec : value) (dids uris ments : list value) : Prop :=
  (truthy (posting_did rec) = true -> In (posting_did rec) dids) /\
  (truthy (parent_uri rec) = true -> In (parent_uri rec) uris) /\
  (truthy (root_uri rec) = true -> In (root_uri rec) uris) /\
  (is_quote rec = true -> truthy (quote_uri rec) = true ->
   In (quote_uri rec) uris) /\
  incl (mention_dids rec) ments.

(** After phase 1: the mention DIDs have joined [all_dids]. *)
Definition emitted (rec : value) (r : refs) : Prop :=
  emitted_in rec (all_dids r) (all_uris r) (all_dids r).

(** Every request to [api] is answered. *)
Definition responsive (api : BlueskyAPI) : Prop :=
  forall sub, (exists l, get_profiles api sub = Ok l) /\
              (exists l, get_posts api sub = Ok l).

(** [v] is a string, and not the empty one. *)
Definition nonempty_str (v : value) : Prop :=
  match v with VStr s => s <> EmptyString | _ => False end.

(* ================================================================= *)
(** * Notions used by the further properties *)

(** An operation is a [set]. *)
Definition is_set_op (o : lru_op) : bool :=
  match o with OpSet _ _ => true | OpGet _ => false end.

(** An operation that a cache without capacity cannot carry out: a [set],
    or a [get] whose key cannot be hashed. *)
Definition fails_empty (o : lru_op) : bool :=
  is_set_op o || negb (hashable (op_key o)).

(** A cache as the hydration keeps it: well formed, and no stored value is
    [None]. *)
Definition cache_ok (c : LRUCache) : Prop := lru_wf c /\ no_none c.

(** Both caches are as the hydration keeps them, with capacities [nu] and
    [np]. *)
Definition caches_ok (nu np : Z) (st : state) : Prop :=
  (cache_ok (_user_cache st) /\ max_size (_user_cache st) = nu) /\
  (cache_ok (_post_cache st) /\ max_size (_post_cache st) = np).

(** [st'] is [st] with other caches and a longer log of calls. *)
Definition extends (st st' : state) : Prop :=
  semaphore st' = semaphore st /\ stored st' = stored st /\
  exists l, calls st' = calls st ++ l.

(** What a cache holds for [d] once a hydration has published [fetched]:
    the dump of the object fetched for [d], or else what it held before. *)
Definition hydrated (fetched : list (value * model)) (before : LRUCache)
    (d : value) : value :=
  match assoc d fetched with
  | Some p => VDict (model_dump p)
  | None => lookup d before
  end.

(** The entry that phase 1 files in [record_embed_map] for a record: its
    quote URI, when it embeds a record and the URI is truthy. *)
Definition quoted (rec : value) : option value :=
  if is_quote rec && truthy (quote_uri rec) then Some (quote_uri rec) else None.


(** Every element is truthy. *)
Definition all_truthy (l : list value) : Prop :=
  Forall (fun k => truthy k = true) l.

Definition refs_truthy (r : refs) : Prop :=
  all_truthy (all_dids r) /\ all_truthy (all_uris r) /\
  all_truthy (mention_dids_global r).

Definition is_str (v : value) : bool :=
  match v with VStr _ => true | _ => false end.

(** The remote returns an object for every (string) key requested. *)
Definition resolves (f : list value -> result (list model)) : Prop :=
  forall sub resp s, f sub = Ok resp -> In (VStr s) sub ->
    exists p, In p resp /\ ident p = s.

(** The records that a stream of events delivers. *)
Definition messages (evs : list event) : list value :=
  flat_map (fun ev => match ev with Message r => [r] | _ => [] end) evs.

Definition is_end (ev : event) : bool :=
  match ev with StreamEnd => true | _ => false end.

(** The records that the filter of [run] lets through. *)
Definition kept (modulo shard : value) (records : list value) : list value :=
  filter (fun r => match shard_filter modulo shard r with
                   | Ok true => true
                   | _ => false
                   end) records.

(** The [message] of an enriched record. *)
Definition message_of (o : value) : value := getd o "message" VNone.

(** What [run] keeps of its buffer and of the batches it creates, after the
    records [recs]: the batches and the buffer are the kept records in
    order, every batch is full, and the buffer is not. *)
Definition batching (recs : list value) (tc : TurboCharger) : Prop :=
  concat (created tc) ++ buffer tc = kept (modulo tc) (shard tc) recs /\
  Forall (fun b => length b = BATCH_SIZE) (created tc) /\
  length (buffer tc) < BATCH_SIZE.

Definition is_done (ev : event) : bool :=
  match ev with TaskDone _ _ => true | _ => false end.

(** The permits: those free and those held by unfinished tasks are [n]
    together; every task created has finished or is unfinished. *)
Definition permits (n : Z) (tc : TurboCharger) : Prop :=
  (semaphore (process tc) + Z.of_nat (length (tasks tc)) = n)%Z /\
  (0 <= semaphore (process tc))%Z /\
  Permutation (created tc) (finished tc ++ tasks tc).

(** The batches [new] handed to the sink are, in order, hydrations of
    finished tasks (those flagged), each with the records of its batch as
    the messages of its enriched records. *)
Definition delivered (finished new : list (list value)) : Prop :=
  exists flags : list bool,
    length flags = length finished /\
    map (map message_of) new = map fst (filter snd (combine finished flags)).

(** The client that a session string yields, if it logs in. *)
Definition logged (login : string -> string -> result BlueskyAPI) (ss : value)
  : option BlueskyAPI :=
  match ss with
  | VStr s =>
      match login (session_domain s) s with
      | Ok api => Some api
      | Raise _ => None
      end
  | _ => None
  end.

(** The clients of the session strings that log in, in order. *)
Definition logged_in (login : string -> string -> result BlueskyAPI)
    (session_strings : list value) : list BlueskyAPI :=
  flat_map (fun ss => match logged login ss with
                      | Some api => [api]
                      | None => []
                      end) session_strings.

(** [sep] occurs in [s]. *)
Definition occurs (sep s : string) : Prop :=
  exists a b, s = (a ++ sep ++ b)%string.

(** No occurrence of [sep] in [cur ++ s] starts inside [cur]. *)
Definition clean (sep cur s : string) : Prop :=
  forall a b, cur = (a ++ b)%string -> b <> EmptyString ->
              String.prefix sep (b ++ s) = false.

(** A credential of the response and the session string it carries. *)
Definition carries (cred s : value) : Prop :=
  exists d, cred = VDict d /\ assoc (VStr "session_string") d = Some s.

(** What a slot of [hydrated_metadata] holds for the reference [u], with
    [c] the cache once the hydration is over: [None] for a reference that
    is missing or falsy, and otherwise what [c] holds for [u], which is
    [None] when it holds nothing. *)
Definition slot (c : LRUCache) (u : value) : value :=
  if truthy u then lookup u c else VNone.

(* ================================================================= *)
(** * Data for the concrete runs *)

(** The objects a remote that resolves every key returns for [sub]: one per
    string key, with [{field: key}] as its dump. *)
Definition resolve_all (field : string) (sub : list value) : list model :=
  flat_map (fun k => match k with
                     | VStr s => [mkModel s [(VStr field, k)]]
                     | _ => []
                     end) sub.

(** A client whose remote resolves every key: the profile of a DID is
    [{"did": did}], the post of a URI is [{"uri": uri}]. *)
Definition echo_api : BlueskyAPI :=
  mkAPI (fun sub => Ok (resolve_all "did" sub))
        (fun sub => Ok (resolve_all "uri" sub)).

(** A client whose profile endpoint fails. *)
Definition failing_api : BlueskyAPI :=
  mkAPI (fun _ => Raise (RemoteError 502))
        (fun sub => Ok (resolve_all "uri" sub)).

(** [str(v)] on integers, [None] and strings; lists and dictionaries, which
    no run below formats, print as a placeholder. *)
Definition str_of (v : value) : string :=
  match v with
  | VNone => "None"
  | VInt z => NilZero.string_of_int (Z.to_int z)
  | VStr s => s
  | VList _ => "[...]"
  | VDict _ => "{...}"
  end.

(** Sets iterated in insertion order. *)
Definition in_order (l : list value) : list value := l.

(** Empty caches of capacity 2, a permit already taken out of 100. *)
Definition st_small : state :=
  mkState (LRUCache_init 2) (LRUCache_init 2) 99 [] [].

(** Empty caches of the default capacity. *)
Definition st_default : state :=
  mkState (LRUCache_init 20000) (LRUCache_init 20000) 99 [] [].

(** A post without references, with the [time_us] Jetstream sends. *)
Definition ev_plain : value :=
  VDict [ (VStr "did", VStr "D1");
          (VStr "time_us", VInt 1700000000000017);
          (VStr "commit",
           VDict [ (VStr "collection", VStr "c"); (VStr "rkey", VStr "r");
                   (VStr "record", VDict []) ]) ].

(** A reply with one mention and a quote. *)
Definition ev_reply : value :=
  VDict [ (VStr "did", VStr "D1");
          (VStr "commit",
           VDict [ (VStr "collection", VStr "c"); (VStr "rkey", VStr "r");
                   (VStr "record",
                    VDict [ (VStr "reply",
                             VDict [ (VStr "parent", VDict [(VStr "uri", VStr "at://X/c/p")]);
                                     (VStr "root", VDict [(VStr "uri", VStr "at://Y/c/r")]) ]);
                            (VStr "facets",
                             VList [ VDict [ (VStr "features",
                                              VList [ VDict [ (VStr "$type",
                                                               VStr "app.bsky.richtext.facet#mention");
                                                              (VStr "did", VStr "D2") ] ]) ] ]);
                            (VStr "embed",
                             VDict [ (VStr "$type", VStr "app.bsky.embed.record");
                                     (VStr "record", VDict [(VStr "uri", VStr "at://Z/c/q")]) ]) ]) ]) ].

(** [{"commit": null}], and a record whose [facets] is a number. *)
Definition ev_null_commit : value := VDict [ (VStr "commit", VNone) ].

Definition ev_bad_facets : value :=
  VDict [ (VStr "commit",
           VDict [ (VStr "record", VDict [ (VStr "facets", VInt 7) ]) ]) ].

(** A record whose [commit.collection] is the number 5. *)
Definition ev_int_collection : value :=
  VDict [ (VStr "did", VStr "D1");
          (VStr "commit",
           VDict [ (VStr "collection", VInt 5); (VStr "rkey", VStr "r");
                   (VStr "record", VDict []) ]) ].

(** A full cache of capacity 2: [a] is the least recently used key. *)
Definition lru_full : LRUCache :=
  mkLRU 2 [ (VStr "a", VInt 1); (VStr "b", VInt 2) ].


(** A sink that accepts every batch. *)
Definition accept_all (enriched : list value) : result unit := Ok tt.

(** A response of the credentials endpoint with one credential. *)
Definition one_credential (url : string) : result value :=
  Ok (VList [ VDict [ (VStr "session_string", VStr "tok:::pds.example") ] ]).


(* ================================================================= *)
(** * The LRU cache *)

Lemma value_eqb_refl (a : value) : value_eqb a a = true.
Proof. unfold value_eqb. destruct (value_eq_dec a a); congruence. Qed.

Lemma value_eqb_true (a b : value) : value_eqb a b = true <-> a = b.
Proof. unfold value_eqb. destruct (value_eq_dec a b); split; congruence. Qed.

Lemma value_eqb_false (a b : value) : value_eqb a b = false <-> a <> b.
Proof. unfold value_eqb. destruct (value_eq_dec a b); split; congruence. Qed.

Lemma assoc_None {V} (k : value) (d : list (value * V)) :
  assoc k d = None <-> ~ In k (keys d).
Proof.
  induction d as [|[k' v'] d IH]; simpl.
  - tauto.
  - destruct (value_eq_dec k k') as [->|Hne].
    + split; [discriminate | intros H; exfalso; apply H; now left].
    + rewrite IH. split; [intros H [E|E]; [congruence|tauto] | tauto].
Qed.

Lemma assoc_Some_in {V} (k : value) (v : V) (d : list (value * V)) :
  assoc k d = Some v -> In k (keys d).
Proof.
  intros H. destruct (in_dec value_eq_dec k (keys d)) as [Hin|Hn]; [exact Hin|].
  apply assoc_None in Hn. congruence.
Qed.

Lemma in_keys_assoc {V} (k : value) (d : list (value * V)) :
  In k (keys d) -> exists v, assoc k d = Some v.
Proof.
  intros Hin. destruct (assoc k d) as [v|] eqn:E; [now exists v|].
  apply assoc_None in E. contradiction.
Qed.

Lemma contains_true {V} (k : value) (d : list (value * V)) :
  contains k d = true <-> In k (keys d).
Proof.
  unfold contains. split.
  - destruct (assoc k d) eqn:E; [intros _; eapply assoc_Some_in; eauto | discriminate].
  - intros Hin. destruct (in_keys_assoc k d Hin) as [v ->]. reflexivity.
Qed.

Lemma setitem_absent {V} (k : value) (v : V) (d : list (value * V)) :
  ~ In k (keys d) -> setitem k v d = d ++ [(k, v)].
Proof.
  induction d as [|[k' v'] d IH]; simpl; intros Hn; [reflexivity|].
  destruct (value_eq_dec k k') as [->|Hne]; [exfalso; apply Hn; now left|].
  rewrite IH; [reflexivity | tauto].
Qed.

Lemma others_absent {V} (k : value) (d : list (value * V)) :
  ~ In k (keys d) -> others k d = d.
Proof.
  induction d as [|[k' v'] d IH]; simpl; intros Hn; [reflexivity|].
  assert (Hne : k' <> k) by (intros ->; apply Hn; now left).
  apply value_eqb_false in Hne. rewrite Hne. simpl. rewrite IH; tauto.
Qed.

Lemma delitem_others {V} (k : value) (d : list (value * V)) :
  NoDup (keys d) -> delitem k d = others k d.
Proof.
  induction d as [|[k' v'] d IH]; simpl; intros Hnd; [reflexivity|].
  inversion Hnd as [|? ? Hnin Hnd']; subst.
  destruct (value_eq_dec k k') as [->|Hne].
  - rewrite value_eqb_refl. simpl. symmetry. now apply others_absent.
  - assert (Hne' : k' <> k) by congruence.
    apply value_eqb_false in Hne'. rewrite Hne'. simpl. now rewrite IH.
Qed.

Lemma keys_others {V} (k : value) (d : list (value * V)) :
  keys (others k d) = filter (fun x => negb (value_eqb x k)) (keys d).
Proof.
  induction d as [|[k' v'] d IH]; simpl; [reflexivity|].
  destruct (value_eqb k' k); simpl; now rewrite IH.
Qed.

Lemma in_keys_others {V} (k k' : value) (d : list (value * V)) :
  In k' (keys (others k d)) <-> In k' (keys d) /\ k' <> k.
Proof.
  rewrite keys_others, filter_In, negb_true_iff, value_eqb_false. tauto.
Qed.

Lemma NoDup_keys_others {V} (k : value) (d : list (value * V)) :
  NoDup (keys d) -> NoDup (keys (others k d)).
Proof. intros H. rewrite keys_others. now apply NoDup_filter. Qed.

Lemma length_others_present {V} (k : value) (d : list (value * V)) :
  NoDup (keys d) -> In k (keys d) -> S (length (others k d)) = length d.
Proof.
  induction d as [|[k' v'] d IH]; simpl; intros Hnd Hin; [contradiction|].
  inversion Hnd as [|? ? Hnin Hnd']; subst.
  destruct (value_eq_dec k' k) as [->|Hne].
  - rewrite value_eqb_refl. simpl. now rewrite others_absent.
  - pose proof Hne as Hb. apply value_eqb_false in Hb. rewrite Hb. simpl.
    rewrite IH; [reflexivity | assumption | destruct Hin; congruence].
Qed.

Lemma assoc_app_last {V} (k k' : value) (v : V) (d : list (value * V)) :
  assoc k' (d ++ [(k, v)]) =
  match assoc k' d with
  | Some x => Some x
  | None => if value_eq_dec k' k then Some v else None
  end.
Proof.
  induction d as [|[k0 v0] d IH]; simpl; [reflexivity|].
  destruct (value_eq_dec k' k0); [reflexivity | exact IH].
Qed.

Lemma assoc_others {V} (k k' : value) (d : list (value * V)) :
  assoc k' (others k d) = if value_eq_dec k' k then None else assoc k' d.
Proof.
  induction d as [|[k0 v0] d IH]; simpl.
  - now destruct (value_eq_dec k' k).
  - destruct (value_eqb k0 k) eqn:E; simpl.
    + apply value_eqb_true in E. subst k0. rewrite IH.
      destruct (value_eq_dec k' k); reflexivity.
    + apply value_eqb_false in E. rewrite IH.
      destruct (value_eq_dec k' k0) as [->|]; [|reflexivity].
      destruct (value_eq_dec k0 k); congruence.
Qed.

(** ** What [get] and [set] do, case by case *)

Lemma lru_get_unhashable (k : value) (c : LRUCache) :
  hashable k = false -> lru_get k c = (Raise TypeError, c).
Proof. intros H. unfold lru_get, py_in. now rewrite H. Qed.

Lemma lru_set_unhashable (k v : value) (c : LRUCache) :
  hashable k = false -> lru_set k v c = (Raise TypeError, c).
Proof. intros H. unfold lru_set, py_in. now rewrite H. Qed.

Lemma lru_get_absent (k : value) (c : LRUCache) :
  hashable k = true ->
  ~ In k (keys (cache c)) -> lru_get k c = (Ok VNone, c).
Proof.
  intros Hh Hn. unfold lru_get, py_in. rewrite Hh.
  destruct (contains k (cache c)) eqn:E; [|reflexivity].
  apply contains_true in E. contradiction.
Qed.

Lemma lru_get_present (k v : value) (c : LRUCache) :
  hashable k = true ->
  NoDup (keys (cache c)) -> assoc k (cache c) = Some v ->
  lru_get k c = (Ok v, mkLRU (max_size c) (others k (cache c) ++ [(k, v)])).
Proof.
  intros Hh Hnd Ha. unfold lru_get, py_in, contains, pop. rewrite Hh, Ha. simpl.
  rewrite delitem_others by assumption.
  rewrite setitem_absent; [reflexivity|].
  rewrite in_keys_others. tauto.
Qed.

Lemma lru_set_present (k v : value) (c : LRUCache) :
  hashable k = true ->
  NoDup (keys (cache c)) -> In k (keys (cache c)) ->
  lru_set k v c = (Ok tt, mkLRU (max_size c) (others k (cache c) ++ [(k, v)])).
Proof.
  intros Hh Hnd Hin. destruct (in_keys_assoc _ _ Hin) as [v0 Ha].
  unfold lru_set, py_in, contains, pop. rewrite Hh, Ha.
  rewrite delitem_others by assumption.
  rewrite setitem_absent; [reflexivity|].
  rewrite in_keys_others. tauto.
Qed.

Lemma lru_set_absent_full (k v : value) (c : LRUCache) :
  hashable k = true ->
  ~ In k (keys (cache c)) -> cache c <> [] ->
  (max_size c <= Z.of_nat (length (cache c)))%Z ->
  lru_set k v c = (Ok tt, mkLRU (max_size c) (tl (cache c) ++ [(k, v)])).
Proof.
  intros Hh Hn Hne Hfull. unfold lru_set, py_in. rewrite Hh.
  destruct (contains k (cache c)) eqn:E;
    [apply contains_true in E; contradiction|].
  destruct (Z.geb_spec (Z.of_nat (length (cache c))) (max_size c)); [|lia].
  destruct (cache c) as [|[k0 v0] d]; [congruence|]. simpl.
  rewrite setitem_absent; [reflexivity|].
  simpl in Hn. tauto.
Qed.

Lemma lru_set_absent_room (k v : value) (c : LRUCache) :
  hashable k = true ->
  ~ In k (keys (cache c)) ->
  (Z.of_nat (length (cache c)) < max_size c)%Z ->
  lru_set k v c = (Ok tt, mkLRU (max_size c) (cache c ++ [(k, v)])).
Proof.
  intros Hh Hn Hroom. unfold lru_set, py_in. rewrite Hh.
  destruct (contains k (cache c)) eqn:E;
    [apply contains_true in E; contradiction|].
  destruct (Z.geb_spec (Z.of_nat (length (cache c))) (max_size c)); [lia|].
  rewrite setitem_absent; [reflexivity | assumption].
Qed.

(** ** The order of the entries is the order of last use *)

Lemma last_use_snoc (hist : list lru_op) (o : lru_op) (k : value) :
  last_use (hist ++ [o]) k =
  if value_eqb (op_key o) k then S (length hist) else last_use hist k.
Proof.
  induction hist as [|a hist IH]; simpl.
  - reflexivity.
  - rewrite IH. destruct (value_eqb (op_key o) k); reflexivity.
Qed.

Lemma last_use_le (hist : list lru_op) (k : value) :
  last_use hist k <= length hist.
Proof.
  induction hist as [|a hist IH]; simpl; [lia|].
  destruct (last_use hist k); [destruct (value_eqb _ _)|]; lia.
Qed.

Lemma StronglySorted_app_last {A} (R : A -> A -> Prop) (l : list A) (a : A) :
  StronglySorted R l -> Forall (fun x => R x a) l -> StronglySorted R (l ++ [a]).
Proof.
  induction 1 as [|x l Hs IH Hx]; simpl; intros Hall.
  - repeat constructor.
  - inversion Hall; subst. constructor; [now apply IH|].
    apply Forall_app. split; [assumption | now constructor].
Qed.

Lemma StronglySorted_filter {A} (R : A -> A -> Prop) (f : A -> bool) (l : list A) :
  StronglySorted R l -> StronglySorted R (filter f l).
Proof.
  induction 1 as [|x l Hs IH Hx]; simpl; [constructor|].
  destruct (f x); [|assumption].
  constructor; [assumption|].
  rewrite Forall_forall in *. intros y Hy. apply filter_In in Hy. now apply Hx.
Qed.

Lemma StronglySorted_impl_in {A} (R R' : A -> A -> Prop) (l : list A) :
  (forall x y, In x l -> In y l -> R x y -> R' x y) ->
  StronglySorted R l -> StronglySorted R' l.
Proof.
  intros Himp Hs. induction Hs as [|x l Hs IH Hx]; [constructor|].
  constructor.
  - apply IH. intros; apply Himp; simpl; auto.
  - rewrite Forall_forall in *. intros y Hy.
    apply Himp; simpl; auto.
Qed.

(** Touching [k] with [o] after [hist]: entries that were in order stay
    in order, and [k] is the most recent of all. *)
Lemma touch_order (hist : list lru_op) (o : lru_op) (base : list value) :
  ~ In (op_key o) base ->
  Forall (fun k => 0 < last_use hist k) base ->
  StronglySorted (older hist) base ->
  Forall (fun k => 0 < last_use (hist ++ [o]) k) (base ++ [op_key o]) /\
  StronglySorted (older (hist ++ [o])) (base ++ [op_key o]).
Proof.
  intros Hn Hpos Hs.
  assert (Hsame : forall x, In x base -> last_use (hist ++ [o]) x = last_use hist x).
  { intros x Hx. rewrite last_use_snoc.
    destruct (value_eqb (op_key o) x) eqn:E; [|reflexivity].
    apply value_eqb_true in E. subst x. contradiction. }
  assert (Hk : last_use (hist ++ [o]) (op_key o) = S (length hist)).
  { rewrite last_use_snoc, value_eqb_refl. reflexivity. }
  split.
  - apply Forall_app. split.
    + rewrite Forall_forall in *. intros x Hx. rewrite Hsame by assumption. auto.
    + constructor; [lia | constructor].
  - apply StronglySorted_app_last.
    + eapply StronglySorted_impl_in; [|exact Hs].
      unfold older. intros x y Hx Hy. rewrite !Hsame by assumption. auto.
    + rewrite Forall_forall. intros x Hx. unfold older.
      rewrite Hsame, Hk by assumption.
      pose proof (last_use_le hist x). lia.
Qed.

Lemma untouched_order (hist : list lru_op) (o : lru_op) (l : list value) :
  ~ In (op_key o) l ->
  Forall (fun k => 0 < last_use hist k) l ->
  StronglySorted (older hist) l ->
  Forall (fun k => 0 < last_use (hist ++ [o]) k) l /\
  StronglySorted (older (hist ++ [o])) l.
Proof.
  intros Hn Hpos Hs.
  assert (Hsame : forall x, In x l -> last_use (hist ++ [o]) x = last_use hist x).
  { intros x Hx. rewrite last_use_snoc.
    destruct (value_eqb (op_key o) x) eqn:E; [|reflexivity].
    apply value_eqb_true in E. subst x. contradiction. }
  split.
  - rewrite Forall_forall in *. intros x Hx. rewrite Hsame by assumption. auto.
  - eapply StronglySorted_impl_in; [|exact Hs].
    unfold older. intros x y Hx Hy. rewrite !Hsame by assumption. auto.
Qed.

Lemma keys_app {V} (d e : list (value * V)) : keys (d ++ e) = keys d ++ keys e.
Proof. apply map_app. Qed.

Lemma keys_tl {V} (d : list (value * V)) : keys (tl d) = tl (keys d).
Proof. now destruct d. Qed.

(** The cache after a touch of [k]: [base] are the entries kept. *)
Lemma lru_inv_touch (n : Z) (hist : list lru_op) (o : lru_op) (v : value)
    (base : list (value * value)) :
  ~ In (op_key o) (keys base) ->
  NoDup (keys base) ->
  (Z.of_nat (S (length base)) <= n)%Z ->
  Forall (fun k => 0 < last_use hist k) (keys base) ->
  StronglySorted (older hist) (keys base) ->
  lru_inv n (hist ++ [o]) (mkLRU n (base ++ [(op_key o, v)])).
Proof.
  intros Hn Hnd Hlen Hpos Hs.
  destruct (touch_order hist o (keys base) Hn Hpos Hs) as [Hp' Hs'].
  unfold lru_inv, lru_wf. simpl. rewrite keys_app. simpl.
  repeat split; try assumption.
  - apply NoDup_app; [assumption | repeat constructor; simpl; tauto |].
    intros x Hx [<-|[]]. contradiction.
  - rewrite length_app. simpl. lia.
Qed.

Lemma lru_inv_step (n : Z) (hist : list lru_op) (o : lru_op) (c : LRUCache) :
  (1 <= n)%Z -> hashable (op_key o) = true -> lru_inv n hist c ->
  exists r c', lru_step o c = (Ok r, c') /\ lru_inv n (hist ++ [o]) c'.
Proof.
  intros Hn Hh (Hmax & (Hnd & Hlen) & Hpos & Hs). subst n.
  assert (Hbase_others : forall k,
    In k (keys (cache c)) ->
    ~ In k (keys (others k (cache c))) /\
    NoDup (keys (others k (cache c))) /\
    (Z.of_nat (S (length (others k (cache c)))) <= max_size c)%Z /\
    Forall (fun k => 0 < last_use hist k) (keys (others k (cache c))) /\
    StronglySorted (older hist) (keys (others k (cache c)))).
  { intros k Hin. repeat split.
    - rewrite in_keys_others. tauto.
    - now apply NoDup_keys_others.
    - rewrite length_others_present by assumption. lia.
    - rewrite keys_others. rewrite Forall_forall in *. intros x Hx.
      apply filter_In in Hx. now apply Hpos.
    - rewrite keys_others. now apply StronglySorted_filter. }
  destruct o as [k|k v]; simpl.
  - (* get *)
    destruct (assoc k (cache c)) as [v|] eqn:Ha.
    + rewrite (lru_get_present k v c Hh Hnd Ha). do 2 eexists. split; [reflexivity|].
      destruct (Hbase_others k (assoc_Some_in _ _ _ Ha)) as (H1 & H2 & H3 & H4 & H5).
      now apply (lru_inv_touch (max_size c) hist (OpGet k) v).
    + apply assoc_None in Ha. rewrite (lru_get_absent k c Hh Ha).
      do 2 eexists. split; [reflexivity|].
      destruct (untouched_order hist (OpGet k) (keys (cache c)) Ha Hpos Hs).
      unfold lru_inv, lru_wf. tauto.
  - (* set *)
    destruct (in_dec value_eq_dec k (keys (cache c))) as [Hin|Hnin].
    + rewrite (lru_set_present k v c Hh Hnd Hin). do 2 eexists. split; [reflexivity|].
      destruct (Hbase_others k Hin) as (H1 & H2 & H3 & H4 & H5).
      now apply (lru_inv_touch (max_size c) hist (OpSet k v) v).
    + destruct (Z_lt_le_dec (Z.of_nat (length (cache c))) (max_size c)) as [Hroom|Hfull].
      * rewrite (lru_set_absent_room k v c Hh Hnin Hroom).
        do 2 eexists. split; [reflexivity|].
        apply (lru_inv_touch (max_size c) hist (OpSet k v) v); try assumption.
        rewrite Nat2Z.inj_succ. lia.
      * assert (Hne : cache c <> []).
        { intros E. rewrite E in Hfull. simpl in Hfull. lia. }
        rewrite (lru_set_absent_full k v c Hh Hnin Hne Hfull).
        do 2 eexists. split; [reflexivity|].
        destruct (cache c) as [|[k0 v0] d] eqn:Ec; [congruence|].
        simpl in *. inversion Hnd; subst. inversion Hpos; subst.
        inversion Hs; subst.
        apply (lru_inv_touch (max_size c) hist (OpSet k v) v); simpl;
          try assumption; try tauto; try lia.
Qed.

Lemma lru_step_unhashable (o : lru_op) (c : LRUCache) :
  hashable (op_key o) = false -> lru_step o c = (Raise TypeError, c).
Proof.
  intros H. destruct o as [k|k v]; simpl in *.
  - now apply lru_get_unhashable.
  - now rewrite lru_set_unhashable.
Qed.

Lemma lru_run_inv (n : Z) (ops hist : list lru_op) (c : LRUCache) :
  (1 <= n)%Z -> lru_inv n hist c ->
  if forallb (fun o => hashable (op_key o)) ops
  then exists c', lru_run ops c = Ok c' /\ lru_inv n (hist ++ ops) c'
  else lru_run ops c = Raise TypeError.
Proof.
  intros Hn. revert hist c.
  induction ops as [|o ops IH]; intros hist c Hinv; simpl.
  - exists c. rewrite app_nil_r. auto.
  - destruct (hashable (op_key o)) eqn:Hh; simpl.
    + destruct (lru_inv_step n hist o c Hn Hh Hinv) as (r & c1 & Hstep & Hinv1).
      rewrite Hstep. specialize (IH (hist ++ [o]) c1 Hinv1).
      destruct (forallb (fun o => hashable (op_key o)) ops); [|exact IH].
      destruct IH as (c' & Hrun & Hinv').
      exists c'. split; [assumption|].
      now rewrite <- app_assoc in Hinv'.
    + now rewrite (lru_step_unhashable o c Hh).
Qed.

Lemma lru_inv_init (n : Z) : (0 <= n)%Z -> lru_inv n [] (LRUCache_init n).
Proof.
  intros Hn. unfold lru_inv, lru_wf, LRUCache_init. simpl.
  repeat split; try constructor. lia.
Qed.

(** A key that an operation of the history names is the key of one of its
    operations. *)
Lemma last_use_named (hist : list lru_op) (k : value) :
  0 < last_use hist k -> exists o, In o hist /\ op_key o = k.
Proof.
  induction hist as [|o hist IH]; simpl; [lia|].
  destruct (last_use hist k) eqn:E.
  - destruct (value_eqb (op_key o) k) eqn:Ek; [|lia].
    intros _. apply value_eqb_true in Ek. exists o. auto.
  - intros _. destruct IH as (o' & Hin & Hk); [lia|]. exists o'. auto.
Qed.

(** C1.  For every sequence [ops] of [set]/[get] operations on an
    [LRUCache] created with capacity [n >= 1]: when every key is hashable
    (as every string is) the run raises nothing, and otherwise it raises
    [TypeError], at the first operation whose key is a list or a
    dictionary.  In the cache [c] that a run reaches (hence after every
    operation, each prefix being a sequence itself):
    - at most [n] keys are stored, each once, in order of last use with
      the least recently used first;
    - [get] of an absent key returns [None] and leaves the cache as it is;
    - [get] of a present key returns its value and moves the key to the
      most-recently-used end, the other entries keeping their order;
    - [set] of a present key stores the new value at the
      most-recently-used end and keeps every other entry: nothing is
      evicted;
    - [set] of an absent key into a cache holding fewer than [n] entries
      puts the new key at the most-recently-used end and keeps every
      entry;
    - [set] of an absent key into a cache holding [n] entries drops
      exactly the first entry, which was used before all the others, and
      puts the new key at the most-recently-used end;
    - [get] and [set] of a key that is not hashable raise [TypeError] and
      leave the cache as it is. *)
Theorem C1_lru_cache (n : Z) (ops : list lru_op) :
  (1 <= n)%Z ->
  if forallb (fun o => hashable (op_key o)) ops then
    exists c,
      lru_run ops (LRUCache_init n) = Ok c /\
      max_size c = n /\
      (Z.of_nat (length (cache c)) <= n)%Z /\
      NoDup (keys (cache c)) /\
      StronglySorted (older ops) (keys (cache c)) /\
      (forall k, hashable k = true -> ~ In k (keys (cache c)) ->
         lru_get k c = (Ok VNone, c)) /\
      (forall k v, assoc k (cache c) = Some v ->
         lru_get k c = (Ok v, mkLRU n (others k (cache c) ++ [(k, v)]))) /\
      (forall k v, In k (keys (cache c)) ->
         lru_set k v c = (Ok tt, mkLRU n (others k (cache c) ++ [(k, v)]))) /\
      (forall k v, hashable k = true -> ~ In k (keys (cache c)) ->
         (Z.of_nat (length (cache c)) < n)%Z ->
         lru_set k v c = (Ok tt, mkLRU n (cache c ++ [(k, v)]))) /\
      (forall k v, hashable k = true -> ~ In k (keys (cache c)) ->
         Z.of_nat (length (cache c)) = n ->
         exists lru rest,
           cache c = lru :: rest /\
           Forall (older ops (fst lru)) (keys rest) /\
           lru_set k v c = (Ok tt, mkLRU n (rest ++ [(k, v)]))) /\
      (forall k v, hashable k = false ->
         lru_get k c = (Raise TypeError, c) /\
         lru_set k v c = (Raise TypeError, c))
  else lru_run ops (LRUCache_init n) = Raise TypeError.
Proof.
  intros Hn.
  pose proof (lru_run_inv n ops [] (LRUCache_init n) Hn
                (lru_inv_init n ltac:(lia))) as Hrun.
  destruct (forallb (fun o => hashable (op_key o)) ops) eqn:Hall; [|exact Hrun].
  destruct Hrun as (c & Hrun & Hinv).
  simpl in Hinv. destruct Hinv as (Hmax & (Hnd & Hlen) & Hpos & Hs).
  assert (Hkeys : forall k, In k (keys (cache c)) -> hashable k = true).
  { intros k Hin. rewrite Forall_forall in Hpos.
    destruct (last_use_named ops k (Hpos k Hin)) as (o & Ho & <-).
    rewrite forallb_forall in Hall. now apply Hall. }
  exists c. split; [exact Hrun|]. split; [exact Hmax|]. rewrite <- Hmax.
  split; [exact Hlen|]. split; [exact Hnd|].
  split; [exact Hs|]. split; [|split; [|split; [|split; [|split]]]].
  - intros k Hh Hk. now apply lru_get_absent.
  - intros k v Ha. apply lru_get_present; try assumption.
    apply Hkeys. eapply assoc_Some_in. exact Ha.
  - intros k v Hin. apply lru_set_present; auto.
  - intros k v Hh Hnin Hroom. now apply lru_set_absent_room.
  - intros k v Hh Hnin Hfull.
    assert (Hne : cache c <> []).
    { intros E. rewrite E in Hfull. simpl in Hfull. lia. }
    rewrite (lru_set_absent_full k v c Hh Hnin Hne) by lia.
    destruct (cache c) as [|lru rest]; [congruence|].
    exists lru, rest. split; [reflexivity|]. split; [|reflexivity].
    simpl in Hs. now inversion Hs.
  - intros k v Hh. split;
      [now apply lru_get_unhashable | now apply lru_set_unhashable].
Qed.

(* ================================================================= *)
(** * Chunking of the bulk calls *)

Lemma ceil_div_step (m k : nat) :
  1 <= k -> 1 <= m -> ceil_div m k = S (ceil_div (m - k) k).
Proof.
  intros Hk Hm. unfold ceil_div.
  destruct (le_lt_dec k m) as [Hle|Hlt].
  - replace (m + k - 1) with (1 * k + (m - k + k - 1)) by lia.
    rewrite Nat.div_add_l by lia. reflexivity.
  - replace (m - k) with 0 by lia. simpl.
    replace (m + k - 1) with (1 * k + (m - 1)) by lia.
    rewrite Nat.div_add_l by lia.
    rewrite (Nat.div_small (m - 1)) by lia.
    rewrite (Nat.div_small (k - 1)) by lia. reflexivity.
Qed.

Lemma ceil_div_0 (k : nat) : 1 <= k -> ceil_div 0 k = 0.
Proof. intros Hk. unfold ceil_div. simpl. apply Nat.div_small. lia. Qed.

Lemma range_length (start stop step fuel : nat) :
  1 <= step -> stop - start <= fuel ->
  length (range start stop step fuel) = ceil_div (stop - start) step.
Proof.
  intros Hstep. revert start.
  induction fuel as [|fuel IH]; intros start Hfuel; simpl.
  - replace (stop - start) with 0 by lia. now rewrite ceil_div_0.
  - destruct (Nat.ltb_spec start stop) as [Hlt|Hge].
    + simpl. rewrite IH by lia.
      rewrite (ceil_div_step (stop - start) step) by lia.
      do 2 f_equal. lia.
    + replace (stop - start) with 0 by lia. now rewrite ceil_div_0.
Qed.

Lemma range_concat {A} (items : list A) (step start fuel : nat) :
  1 <= step -> length items - start <= fuel ->
  concat (map (fun i => slice items i (i + step))
              (range start (length items) step fuel)) = skipn start items.
Proof.
  intros Hstep. revert start.
  induction fuel as [|fuel IH]; intros start Hfuel; simpl.
  - symmetry. apply skipn_all2. lia.
  - destruct (Nat.ltb_spec start (length items)) as [Hlt|Hge].
    + simpl. rewrite IH by lia. unfold slice.
      replace (start + step - start) with step by lia.
      replace (start + step) with (step + start) by lia.
      rewrite <- skipn_skipn. apply firstn_skipn.
    + symmetry. apply skipn_all2. lia.
Qed.

Lemma chunks_of_length (items : list value) (chunk_size : nat) :
  1 <= chunk_size ->
  length (chunks_of items chunk_size) = ceil_div (length items) chunk_size.
Proof.
  intros Hk. unfold chunks_of. rewrite length_map, range_length by lia.
  f_equal. lia.
Qed.

Lemma chunks_of_bound (items : list value) (chunk_size : nat) :
  Forall (fun sub => length sub <= chunk_size) (chunks_of items chunk_size).
Proof.
  unfold chunks_of. apply Forall_map. apply Forall_forall. intros i _.
  unfold slice. rewrite length_firstn. lia.
Qed.

Lemma chunks_of_concat (items : list value) (chunk_size : nat) :
  1 <= chunk_size -> concat (chunks_of items chunk_size) = items.
Proof.
  intros Hk. unfold chunks_of. now rewrite range_concat by lia.
Qed.

(* ================================================================= *)
(** * Phase 3: the remote calls *)

Lemma with_calls_nil (st : state) : with_calls st [] = st.
Proof. destruct st. unfold with_calls. simpl. now rewrite app_nil_r. Qed.

Lemma with_calls_app (st : state) (l l' : list call) :
  with_calls (with_calls st l) l' = with_calls st (l ++ l').
Proof. unfold with_calls. simpl. now rewrite app_assoc. Qed.

Lemma fetch_profiles_run (api : BlueskyAPI) (sub : list value) (st : state) :
  fetch_profiles api sub st =
  (rbind (get_profiles api sub) (fun resp => Ok (by_ident resp)),
   with_calls st [GetProfiles sub]).
Proof.
  unfold fetch_profiles, mbind, log_call, lift, mret, with_calls. simpl.
  destruct (get_profiles api sub); reflexivity.
Qed.

Lemma fetch_posts_run (api : BlueskyAPI) (sub : list value) (st : state) :
  fetch_posts api sub st =
  (rbind (get_posts api sub) (fun resp => Ok (by_ident resp)),
   with_calls st [GetPosts sub]).
Proof.
  unfold fetch_posts, mbind, log_call, lift, mret, with_calls. simpl.
  destruct (get_posts api sub); reflexivity.
Qed.

Lemma gather_run {A} (f : list value -> M A) (g : list value -> result A)
    (C : list value -> call) :
  (forall sub st, f sub st = (g sub, with_calls st [C sub])) ->
  forall subs st,
    gather (map f subs) st = (gathered (map g subs), with_calls st (map C subs)).
Proof.
  intros Hf subs. induction subs as [|sub subs IH]; intros st; simpl.
  - now rewrite with_calls_nil.
  - rewrite Hf, IH, with_calls_app. reflexivity.
Qed.

Lemma chunked_map_run (f : list value -> M (list (value * model)))
    (g : list value -> result (list (value * model))) (C : list value -> call)
    (items : list value) (chunk_size : nat) (st : state) :
  (forall sub st, f sub st = (g sub, with_calls st [C sub])) ->
  _chunked_map items chunk_size f st =
  (match items with
   | [] => Ok []
   | _ => rbind (gathered (map g (chunks_of items chunk_size)))
                (fun chunks => Ok (fold_left update chunks []))
   end,
   with_calls st (map C (chunks_of items chunk_size))).
Proof.
  intros Hf. unfold _chunked_map. destruct items as [|x items].
  - unfold mret. now rewrite with_calls_nil.
  - unfold mbind, mret. rewrite (gather_run f g C Hf).
    destruct (gathered _); reflexivity.
Qed.

Lemma fetch_missing_users_run (api : BlueskyAPI) (missing_dids : list value)
    (st : state) :
  fetch_missing_users api missing_dids st =
  (users_result api missing_dids,
   with_calls st (map GetProfiles (chunks_of missing_dids 25))).
Proof.
  unfold fetch_missing_users, users_result, get_user_data_for_dids.
  destruct missing_dids as [|d ds].
  - unfold mret. now rewrite with_calls_nil.
  - now rewrite (chunked_map_run _ _ GetProfiles _ _ _ (fetch_profiles_run api)).
Qed.

Lemma fetch_missing_posts_run (api : BlueskyAPI) (missing_uris : list value)
    (st : state) :
  fetch_missing_posts api missing_uris st =
  (posts_result api missing_uris,
   with_calls st (map GetPosts (chunks_of missing_uris 25))).
Proof.
  unfold fetch_missing_posts, posts_result, hydrate_records_for_uris.
  destruct missing_uris as [|d ds].
  - unfold mret. now rewrite with_calls_nil.
  - now rewrite (chunked_map_run _ _ GetPosts _ _ _ (fetch_posts_run api)).
Qed.

Lemma fetch_missing_run (api : BlueskyAPI) (missing_dids missing_uris : list value)
    (st : state) :
  fetch_missing api missing_dids missing_uris st =
  (match users_result api missing_dids, posts_result api missing_uris with
   | Raise e, _ => Raise e
   | Ok _, Raise e => Raise e
   | Ok fu, Ok fp => Ok (fu, fp)
   end,
   with_calls st (batch_calls missing_dids missing_uris)).
Proof.
  unfold fetch_missing, mbind, mret. simpl.
  rewrite fetch_missing_users_run, fetch_missing_posts_run.
  rewrite with_calls_app. unfold batch_calls.
  destruct (users_result api missing_dids), (posts_result api missing_uris);
    reflexivity.
Qed.

Lemma filter_profile_calls (l l' : list (list value)) :
  filter is_profile_call (map GetProfiles l ++ map GetPosts l') = map GetProfiles l.
Proof.
  rewrite filter_app.
  assert (H1 : filter is_profile_call (map GetProfiles l) = map GetProfiles l).
  { induction l; simpl; congruence. }
  assert (H2 : filter is_profile_call (map GetPosts l') = []).
  { induction l'; simpl; congruence. }
  now rewrite H1, H2, app_nil_r.
Qed.

Lemma filter_post_calls (l l' : list (list value)) :
  filter is_post_call (map GetProfiles l ++ map GetPosts l') = map GetPosts l'.
Proof.
  rewrite filter_app.
  assert (H1 : filter is_post_call (map GetProfiles l) = []).
  { induction l; simpl; congruence. }
  assert (H2 : filter is_post_call (map GetPosts l') = map GetPosts l').
  { induction l'; simpl; congruence. }
  now rewrite H1, H2.
Qed.

(* ================================================================= *)
(** * The caches under the operations of one hydration *)

Lemma others_app {V} (k : value) (d e : list (value * V)) :
  others k (d ++ e) = others k d ++ others k e.
Proof. apply filter_app. Qed.

Lemma assoc_In {V} (k : value) (v : V) (d : list (value * V)) :
  NoDup (keys d) -> (assoc k d = Some v <-> In (k, v) d).
Proof.
  induction d as [|[k0 v0] d IH]; simpl; intros Hnd.
  - split; [discriminate | contradiction].
  - inversion Hnd as [|? ? Hnin Hnd']; subst.
    destruct (value_eq_dec k k0) as [->|Hne].
    + split.
      * intros [= ->]. now left.
      * intros [[= ->]|Hin]; [reflexivity|].
        exfalso. apply Hnin. apply (in_map fst) in Hin. exact Hin.
    + rewrite IH by assumption. split; [now right|].
      intros [[= -> ->]|Hin]; [congruence | assumption].
  Qed.

Lemma assoc_perm {V} (k : value) (d d' : list (value * V)) :
  NoDup (keys d) -> Permutation d d' -> assoc k d = assoc k d'.
Proof.
  intros Hnd Hp.
  assert (Hnd' : NoDup (keys d')).
  { eapply Permutation_NoDup; [|exact Hnd]. now apply Permutation_map. }
  destruct (assoc k d) as [v|] eqn:E.
  - symmetry. apply assoc_In; [assumption|].
    eapply Permutation_in; [exact Hp|]. now apply assoc_In.
  - destruct (assoc k d') as [v'|] eqn:E'; [|reflexivity].
    apply assoc_In in E'; [|assumption].
    apply Permutation_sym in Hp. eapply Permutation_in in E'; [|exact Hp].
    apply assoc_In in E'; [congruence | assumption].
Qed.

Lemma perm_others {V} (k : value) (v : V) (d : list (value * V)) :
  NoDup (keys d) -> assoc k d = Some v ->
  Permutation d (others k d ++ [(k, v)]).
Proof.
  induction d as [|[k0 v0] d IH]; simpl; intros Hnd Ha; [discriminate|].
  inversion Hnd as [|? ? Hnin Hnd']; subst.
  destruct (value_eq_dec k k0) as [->|Hne].
  - injection Ha as ->. rewrite value_eqb_refl. simpl.
    rewrite others_absent by assumption. apply Permutation_cons_append.
  - assert (Hb : value_eqb k0 k = false) by (apply value_eqb_false; congruence).
    rewrite Hb. simpl. apply perm_skip. now apply IH.
Qed.

Lemma same_entries_refl (c : LRUCache) : same_entries c c.
Proof. split; [reflexivity | apply Permutation_refl]. Qed.

Lemma same_entries_trans (c1 c2 c3 : LRUCache) :
  same_entries c1 c2 -> same_entries c2 c3 -> same_entries c1 c3.
Proof.
  intros [H1 P1] [H2 P2]. split; [congruence|].
  eapply Permutation_trans; eassumption.
Qed.

Lemma same_entries_keys (c c' : LRUCache) (k : value) :
  same_entries c c' -> (In k (keys (cache c)) <-> In k (keys (cache c'))).
Proof.
  intros [_ Hp]. apply (Permutation_map fst) in Hp.
  split; apply Permutation_in; [assumption | now apply Permutation_sym].
Qed.

Lemma same_entries_wf (c c' : LRUCache) :
  same_entries c c' -> lru_wf c -> lru_wf c'.
Proof.
  intros [Hm Hp] [Hnd Hlen]. split.
  - eapply Permutation_NoDup; [|exact Hnd]. now apply Permutation_map.
  - rewrite Hm, <- (Permutation_length Hp). exact Hlen.
Qed.

Lemma same_entries_lookup (c c' : LRUCache) (k : value) :
  same_entries c c' -> NoDup (keys (cache c)) -> lookup k c' = lookup k c.
Proof.
  intros [_ Hp] Hnd. unfold lookup. now rewrite (assoc_perm k _ _ Hnd Hp).
Qed.

Lemma same_entries_no_none (c c' : LRUCache) :
  same_entries c c' -> no_none c -> no_none c'.
Proof.
  intros [_ Hp] Hn. unfold no_none in *.
  eapply Permutation_Forall; eassumption.
Qed.

(** [get] of a hashable key never raises, returns what [lookup] says, and
    only reorders. *)
Lemma lru_get_spec (k : value) (c : LRUCache) :
  hashable k = true -> NoDup (keys (cache c)) ->
  exists c', lru_get k c = (Ok (lookup k c), c') /\ same_entries c c'.
Proof.
  intros Hh Hnd. unfold lookup. destruct (assoc k (cache c)) as [v|] eqn:Ha.
  - rewrite (lru_get_present k v c Hh Hnd Ha). eexists. split; [reflexivity|].
    split; [reflexivity|]. simpl. now apply perm_others.
  - apply assoc_None in Ha. rewrite (lru_get_absent k c Hh Ha).
    exists c. split; [reflexivity | apply same_entries_refl].
Qed.

(** [set] of a present key never raises and only reorders the other
    entries. *)
Lemma lru_set_present_spec (k v : value) (c : LRUCache) :
  hashable k = true -> NoDup (keys (cache c)) -> In k (keys (cache c)) ->
  exists c', lru_set k v c = (Ok tt, c') /\
             max_size c' = max_size c /\
             cache c' = others k (cache c) ++ [(k, v)].
Proof.
  intros Hh Hnd Hin. rewrite (lru_set_present k v c Hh Hnd Hin).
  eexists. repeat split.
Qed.

Lemma recent_incl_cache (K : list value) (c : LRUCache) (B : list (value * value)) :
  recent K c B -> incl (keys B) (keys (cache c)).
Proof.
  intros (_ & (A & HA) & _) x Hx. rewrite HA, keys_app. apply in_or_app. now right.
Qed.

Lemma recent_length (K : list value) (c : LRUCache) (B : list (value * value))
    (k : value) :
  recent K c B -> NoDup K -> In k K -> ~ In k (keys (cache c)) ->
  S (length B) <= length K.
Proof.
  intros HR HK Hk Hnin. pose proof (recent_incl_cache _ _ _ HR) as Hinc.
  destruct HR as ((Hnd & _) & (A & HA) & HB).
  assert (HndB : NoDup (keys B)).
  { rewrite HA, keys_app in Hnd. now apply NoDup_app_remove_l in Hnd. }
  assert (Hlen : length (k :: keys B) <= length K).
  { apply NoDup_incl_length.
    - constructor; [|assumption]. intros Hin. apply Hnin. now apply Hinc.
    - intros x [<-|Hx]; [assumption | now apply HB]. }
  simpl in Hlen. unfold keys in Hlen. now rewrite length_map in Hlen.
Qed.

(** Touching a key that is present: it joins the recent entries. *)
Lemma recent_touch_present (K : list value) (c : LRUCache)
    (B : list (value * value)) (k v : value) :
  recent K c B -> In k K -> In k (keys (cache c)) ->
  recent K (mkLRU (max_size c) (others k (cache c) ++ [(k, v)]))
         (others k B ++ [(k, v)]).
Proof.
  intros ((Hnd & Hlen) & (A & HA) & HB) Hk Hin. split; [|split].
  - split; simpl.
    + rewrite keys_app. simpl. apply NoDup_app.
      * now apply NoDup_keys_others.
      * repeat constructor. simpl. intros [].
      * intros x Hx [<-|[]]. apply in_keys_others in Hx. now destruct Hx.
    + rewrite length_app. simpl.
      pose proof (length_others_present k (cache c) Hnd Hin). lia.
  - exists (others k A). simpl. now rewrite HA, others_app, app_assoc.
  - rewrite keys_app. simpl. intros x Hx. apply in_app_or in Hx.
    destruct Hx as [Hx|[<-|[]]]; [|assumption].
    apply in_keys_others in Hx. apply HB. now destruct Hx.
Qed.

Lemma incl_keys_touch (B : list (value * value)) (k v : value) :
  incl (keys B) (keys (others k B ++ [(k, v)])) /\
  In k (keys (others k B ++ [(k, v)])).
Proof.
  rewrite keys_app. simpl. split.
  - intros x Hx. apply in_or_app.
    destruct (value_eq_dec x k) as [->|Hne]; [right; now left|].
    left. apply in_keys_others. now split.
  - apply in_or_app. right. now left.
Qed.

Lemma user_attr_ok : attr_ok user_attr.
Proof. repeat split; intros; try reflexivity. now destruct st. Qed.

Lemma post_attr_ok : attr_ok post_attr.
Proof. repeat split; intros; try reflexivity. now destruct st. Qed.

Lemma on_run {A} (a : cache_attr) (f : LRUCache -> result A * LRUCache)
    (st : state) (r : result A) (c : LRUCache) :
  f (getc a st) = (r, c) -> on a f st = (r, setc a c st).
Proof. intros H. unfold on. now rewrite H. Qed.

Lemma recent_get (K : list value) (c : LRUCache) (B : list (value * value))
    (k : value) :
  hashable k = true -> recent K c B -> In k K ->
  exists c' B',
    lru_get k c = (Ok (lookup k c), c') /\ same_entries c c' /\
    recent K c' B' /\ incl (keys B) (keys B') /\
    (In k (keys (cache c)) -> In k (keys B')).
Proof.
  intros Hh HR Hk. pose proof HR as ((Hnd & Hlen) & _ & _).
  unfold lookup. destruct (assoc k (cache c)) as [v|] eqn:Ha.
  - rewrite (lru_get_present k v c Hh Hnd Ha).
    exists (mkLRU (max_size c) (others k (cache c) ++ [(k, v)])).
    exists (others k B ++ [(k, v)]).
    destruct (incl_keys_touch B k v) as [Hi Hin].
    split; [reflexivity|]. split.
    { split; [reflexivity|]. simpl. now apply perm_others. }
    split; [|split; [exact Hi | intros _; exact Hin]].
    apply recent_touch_present; try assumption.
    eapply assoc_Some_in; eassumption.
  - apply assoc_None in Ha. rewrite (lru_get_absent k c Hh Ha).
    exists c, B. split; [reflexivity|]. split; [apply same_entries_refl|].
    split; [assumption|]. split; [apply incl_refl | contradiction].
Qed.

Lemma recent_set (K : list value) (c : LRUCache) (B : list (value * value))
    (k v : value) :
  hashable k = true -> recent K c B -> NoDup K -> In k K ->
  (Z.of_nat (length K) <= max_size c)%Z ->
  exists c' B',
    lru_set k v c = (Ok tt, c') /\ max_size c' = max_size c /\
    recent K c' B' /\ incl (keys B) (keys B') /\ In k (keys B') /\
    incl (cache c') ((k, v) :: cache c).
Proof.
  intros Hh HR HK Hk Hcap. pose proof HR as ((Hnd & Hlen) & (A & HA) & HB).
  destruct (in_dec value_eq_dec k (keys (cache c))) as [Hin|Hnin].
  - rewrite (lru_set_present k v c Hh Hnd Hin).
    exists (mkLRU (max_size c) (others k (cache c) ++ [(k, v)])).
    exists (others k B ++ [(k, v)]).
    destruct (incl_keys_touch B k v) as [Hi Hin'].
    split; [reflexivity|]. split; [reflexivity|].
    split; [now apply recent_touch_present|].
    split; [exact Hi|]. split; [exact Hin'|].
    simpl. intros x Hx. apply in_app_or in Hx.
    destruct Hx as [Hx|[<-|[]]]; [|now left].
    right. unfold others in Hx. apply filter_In in Hx. now destruct Hx.
  - pose proof (recent_length K c B k HR HK Hk Hnin) as HlenB.
    assert (HninB : ~ In k (keys B)).
    { intros Hx. apply Hnin. rewrite HA, keys_app. apply in_or_app. now right. }
    assert (HndB : NoDup (keys B)).
    { rewrite HA, keys_app in Hnd. now apply NoDup_app_remove_l in Hnd. }
    assert (Hrec : forall A', NoDup (keys (A' ++ B)) ->
              ~ In k (keys (A' ++ B)) ->
              (Z.of_nat (S (length (A' ++ B))) <= max_size c)%Z ->
              recent K (mkLRU (max_size c) ((A' ++ B) ++ [(k, v)])) (B ++ [(k, v)])).
    { intros A' Hnd' Hnin' Hlen'. split; [|split].
      - split; simpl.
        + rewrite keys_app. simpl. apply NoDup_app; [assumption| |].
          * repeat constructor. simpl. intros [].
          * intros x Hx [<-|[]]. contradiction.
        + rewrite length_app. simpl. lia.
      - exists A'. simpl. now rewrite app_assoc.
      - rewrite keys_app. simpl. intros x Hx. apply in_app_or in Hx.
        destruct Hx as [Hx|[<-|[]]]; [now apply HB | assumption]. }
    assert (HinclB : incl (keys B) (keys (B ++ [(k, v)]))).
    { rewrite keys_app. intros x Hx. apply in_or_app. now left. }
    assert (HinB : In k (keys (B ++ [(k, v)]))).
    { rewrite keys_app. apply in_or_app. right. now left. }
    destruct (Z_lt_le_dec (Z.of_nat (length (cache c))) (max_size c)) as [Hroom|Hfull].
    + rewrite (lru_set_absent_room k v c Hh Hnin Hroom).
      exists (mkLRU (max_size c) (cache c ++ [(k, v)])), (B ++ [(k, v)]).
      split; [reflexivity|]. split; [reflexivity|].
      split.
      { rewrite HA. apply Hrec; rewrite <- HA; try assumption. lia. }
      split; [exact HinclB|]. split; [exact HinB|].
      simpl. intros x Hx. apply in_app_or in Hx.
      destruct Hx as [Hx|[<-|[]]]; [now right | now left].
    + assert (Hne : cache c <> []).
      { intros E. rewrite E in Hfull. simpl in Hfull. lia. }
      rewrite (lru_set_absent_full k v c Hh Hnin Hne Hfull).
      destruct A as [|a0 A'].
      { exfalso. simpl in HA. rewrite HA in Hfull. lia. }
      exists (mkLRU (max_size c) (tl (cache c) ++ [(k, v)])), (B ++ [(k, v)]).
      split; [reflexivity|]. split; [reflexivity|].
      rewrite HA in *. simpl tl. simpl in Hnd, Hnin, Hlen.
      inversion Hnd as [|? ? Hn0 Hnd0]; subst.
      split.
      { apply Hrec; try assumption.
        intros Hx. apply Hnin. now right. }
      split; [exact HinclB|]. split; [exact HinB|].
      simpl. intros x Hx. apply in_app_or in Hx.
      destruct Hx as [Hx|[<-|[]]]; [right; now right | now left].
Qed.

Lemma fold_setitem_ext (f g : value -> value) (l : list value)
    (acc : list (value * value)) :
  (forall x, f x = g x) ->
  fold_left (fun t k => setitem k (f k) t) l acc =
  fold_left (fun t k => setitem k (g k) t) l acc.
Proof.
  intros E. revert acc. induction l as [|x l IH]; intros acc; simpl; [reflexivity|].
  now rewrite E, IH.
Qed.

Lemma lookup_not_none_in (k : value) (c : LRUCache) :
  lookup k c <> VNone -> assoc k (cache c) = Some (lookup k c).
Proof.
  unfold lookup. destruct (assoc k (cache c)); [reflexivity | congruence].
Qed.

(** Phase 2 on one cache: never raises, only reorders the entries, reports
    the keys whose [get] is [None], and leaves every hit among the most
    recently used entries. *)
Lemma probe_loop (a : cache_attr) (K ks : list value) :
  attr_ok a -> Forall (fun k => hashable k = true) K -> incl ks K ->
  forall (st : state) (acc : list value) (B : list (value * value)),
    recent K (getc a st) B ->
    exists c' B',
      mfold (probe_step a) ks acc st =
        (Ok (acc ++ filter (fun k => is_none (lookup k (getc a st))) ks),
         setc a c' st) /\
      same_entries (getc a st) c' /\
      recent K c' B' /\ incl (keys B) (keys B') /\
      (forall k, In k ks -> In k (keys (cache (getc a st))) -> In k (keys B')).
Proof.
  intros (L1 & L2 & L3) HhK. induction ks as [|k ks IH]; intros Hks st acc B HR.
  - exists (getc a st), B. simpl. unfold mret. rewrite app_nil_r, L3.
    split; [reflexivity|]. split; [apply same_entries_refl|].
    split; [assumption|]. split; [apply incl_refl|]. intros k [].
  - assert (Hk : In k K) by (apply Hks; now left).
    assert (Hh : hashable k = true) by (rewrite Forall_forall in HhK; auto).
    assert (Hks' : incl ks K) by (intros x Hx; apply Hks; now right).
    pose proof HR as ((Hnd & _) & _ & _).
    destruct (recent_get K _ B k Hh HR Hk) as (c1 & B1 & Hget & Hse & HR1 & Hi1 & Hin1).
    simpl. unfold mbind at 1. unfold probe_step at 1. unfold mbind at 1.
    rewrite (on_run a _ st _ _ Hget). unfold mret at 1.
    rewrite <- (L1 c1 st) in HR1.
    destruct (IH Hks' (setc a c1 st)
                (match lookup k (getc a st) with
                 | VNone => acc ++ [k] | _ => acc end) B1 HR1)
      as (c2 & B2 & Hrun & Hse2 & HR2 & Hi2 & Hin2).
    rewrite Hrun. rewrite L1 in Hse2, Hin2. rewrite L2.
    exists c2, B2. split; [|split; [|split; [|split]]].
    + f_equal. f_equal. simpl.
      rewrite L1.
      rewrite (filter_ext (fun k0 => is_none (lookup k0 c1))
                          (fun k0 => is_none (lookup k0 (getc a st)))).
      2:{ intros x. now rewrite (same_entries_lookup _ _ x Hse Hnd). }
      destruct (lookup k (getc a st)); simpl;
        try reflexivity; now rewrite <- app_assoc.
    + eapply same_entries_trans; eassumption.
    + exact HR2.
    + eapply incl_tran; eassumption.
    + intros x [<-|Hx] Hxin.
      * apply Hi2. now apply Hin1.
      * apply Hin2; [assumption|]. now apply (same_entries_keys _ _ x Hse).
Qed.

(** Phase 4, second half, on one cache: never raises, only reorders the
    entries, and records for every key what [get] returns. *)
Lemma readback_loop (a : cache_attr) (K ks : list value) :
  attr_ok a -> Forall (fun k => hashable k = true) K -> incl ks K ->
  forall (st : state) (acc : list (value * value)) (B : list (value * value)),
    recent K (getc a st) B ->
    exists c' B',
      mfold (readback_step a) ks acc st =
        (Ok (fold_left (fun t k => setitem k (lookup k (getc a st)) t) ks acc),
         setc a c' st) /\
      same_entries (getc a st) c' /\
      recent K c' B' /\ incl (keys B) (keys B').
Proof.
  intros (L1 & L2 & L3) HhK. induction ks as [|k ks IH]; intros Hks st acc B HR.
  - exists (getc a st), B. simpl. unfold mret. rewrite L3.
    split; [reflexivity|]. split; [apply same_entries_refl|].
    split; [assumption | apply incl_refl].
  - assert (Hk : In k K) by (apply Hks; now left).
    assert (Hh : hashable k = true) by (rewrite Forall_forall in HhK; auto).
    assert (Hks' : incl ks K) by (intros x Hx; apply Hks; now right).
    pose proof HR as ((Hnd & _) & _ & _).
    destruct (recent_get K _ B k Hh HR Hk) as (c1 & B1 & Hget & Hse & HR1 & Hi1 & _).
    assert (Hstep : exists c2 B2,
      readback_step a acc k st =
        (Ok (setitem k (lookup k (getc a st)) acc), setc a c2 st) /\
      same_entries (getc a st) c2 /\ recent K c2 B2 /\ incl (keys B) (keys B2)).
    { unfold readback_step. unfold mbind at 1.
      rewrite (on_run a _ st _ _ Hget).
      destruct (value_eq_dec (lookup k (getc a st)) VNone) as [E|E].
      - rewrite E. unfold mbind, mret. exists c1, B1.
        split; [reflexivity|]. split; [assumption|]. split; assumption.
      - pose proof HR1 as ((Hnd1 & _) & _ & _).
        assert (Ha1 : assoc k (cache c1) = Some (lookup k (getc a st))).
        { rewrite <- (same_entries_lookup _ _ k Hse Hnd).
          apply lookup_not_none_in.
          now rewrite (same_entries_lookup _ _ k Hse Hnd). }
        assert (Hin1 : In k (keys (cache c1))) by (eapply assoc_Some_in; eassumption).
        pose proof (lru_set_present k (lookup k (getc a st)) c1 Hh Hnd1 Hin1) as Hset.
        rewrite <- (L1 c1 st) in Hset at 1.
        assert (Hon : on a (lru_set k (lookup k (getc a st))) (setc a c1 st) =
                      (Ok tt, setc a (mkLRU (max_size c1)
                         (others k (cache c1) ++ [(k, lookup k (getc a st))])) st)).
        { rewrite (on_run a _ (setc a c1 st) _ _ Hset). now rewrite L2. }
        exists (mkLRU (max_size c1)
                  (others k (cache c1) ++ [(k, lookup k (getc a st))])).
        exists (others k B1 ++ [(k, lookup k (getc a st))]).
        split.
        { unfold mbind.
          destruct (lookup k (getc a st)) eqn:El; try congruence;
            rewrite Hon; reflexivity. }
        split.
        { eapply same_entries_trans; [exact Hse|].
          split; [reflexivity|]. simpl. now apply perm_others. }
        split.
        { now apply recent_touch_present. }
        eapply incl_tran; [exact Hi1|].
        apply incl_keys_touch. }
    destruct Hstep as (c2 & B2 & Hs & Hse2 & HR2 & Hi2).
    simpl. unfold mbind at 1. rewrite Hs.
    rewrite <- (L1 c2 st) in HR2.
    destruct (IH Hks' (setc a c2 st) (setitem k (lookup k (getc a st)) acc) B2 HR2)
      as (c3 & B3 & Hrun & Hse3 & HR3 & Hi3).
    rewrite Hrun. rewrite L1 in Hse3. rewrite L2, L1.
    exists c3, B3. split; [|split; [|split]].
    + f_equal. f_equal. apply fold_setitem_ext.
      intros x. now rewrite (same_entries_lookup _ _ x Hse2 Hnd).
    + eapply same_entries_trans; eassumption.
    + exact HR3.
    + eapply incl_tran; eassumption.
Qed.

(** Phase 4, first half, on one cache, when the keys written are among
    [K] and the cache can hold all of [K]: never raises, every key written
    ends among the most recently used entries, and none of those that were
    there is lost. *)
Lemma publish_loop {X} (a : cache_attr) (K : list value)
    (kf vf : X -> value) (xs : list X) :
  attr_ok a -> Forall (fun k => hashable k = true) K ->
  NoDup K -> Forall (fun x => In (kf x) K) xs ->
  forall (st : state) (B : list (value * value)),
    recent K (getc a st) B ->
    (Z.of_nat (length K) <= max_size (getc a st))%Z ->
    exists c' B',
      mfold (fun _ x => on a (lru_set (kf x) (vf x))) xs tt st =
        (Ok tt, setc a c' st) /\
      max_size c' = max_size (getc a st) /\
      recent K c' B' /\ incl (keys B) (keys B') /\
      Forall (fun x => In (kf x) (keys B')) xs /\
      (forall kv, In kv (cache c') ->
         In kv (cache (getc a st)) \/ exists x, In x xs /\ kv = (kf x, vf x)).
Proof.
  intros (L1 & L2 & L3) HhK HK.
  induction xs as [|x xs IH]; intros Hxs st B HR Hcap.
  - exists (getc a st), B. simpl. unfold mret. rewrite L3.
    split; [reflexivity|]. split; [reflexivity|]. split; [assumption|].
    split; [apply incl_refl|]. split; [constructor|]. intros kv Hkv. now left.
  - inversion Hxs as [|? ? Hx Hxs']; subst.
    assert (Hh : hashable (kf x) = true) by (rewrite Forall_forall in HhK; auto).
    destruct (recent_set K _ B (kf x) (vf x) Hh HR HK Hx Hcap)
      as (c1 & B1 & Hset & Hmax & HR1 & Hi1 & Hin1 & Hent).
    simpl. unfold mbind at 1. rewrite (on_run a _ st _ _ Hset).
    rewrite <- (L1 c1 st) in HR1.
    assert (Hcap1 : (Z.of_nat (length K) <= max_size (getc a (setc a c1 st)))%Z).
    { rewrite L1, Hmax. exact Hcap. }
    destruct (IH Hxs' (setc a c1 st) B1 HR1 Hcap1)
      as (c2 & B2 & Hrun & Hmax2 & HR2 & Hi2 & Hall2 & Hent2).
    rewrite Hrun. rewrite L1 in Hmax2, Hent2. rewrite L2.
    exists c2, B2. split; [reflexivity|]. split; [congruence|].
    split; [assumption|]. split; [eapply incl_tran; eassumption|].
    split.
    + constructor; [now apply Hi2 | assumption].
    + intros kv Hkv. destruct (Hent2 kv Hkv) as [Hin|(y & Hy & E)].
      * apply Hent in Hin. destruct Hin as [<-|Hin]; [|now left].
        right. exists x. split; [now left | reflexivity].
      * right. exists y. split; [now right | assumption].
Qed.

(* ================================================================= *)
(** * The phases of [hydrate_bulk] *)

Lemma recent_nil (K : list value) (c : LRUCache) : lru_wf c -> recent K c [].
Proof.
  intros H. split; [assumption|]. split.
  - exists (cache c). now rewrite app_nil_r.
  - intros x [].
Qed.

Lemma probe_run (a : cache_attr) (ks : list value) (st : state) :
  attr_ok a -> Forall (fun k => hashable k = true) ks -> lru_wf (getc a st) ->
  exists c' B',
    probe a ks st = (Ok (missing_from (getc a st) ks), setc a c' st) /\
    same_entries (getc a st) c' /\ recent ks c' B' /\
    (forall k, In k ks -> In k (keys (cache (getc a st))) -> In k (keys B')).
Proof.
  intros Ha Hh Hwf.
  destruct (probe_loop a ks ks Ha Hh (incl_refl _) st [] [] (recent_nil _ _ Hwf))
    as (c' & B' & Hrun & Hse & HR & _ & Hin).
  exists c', B'. unfold probe. rewrite Hrun. simpl.
  split; [reflexivity|]. split; [exact Hse|]. split; [exact HR | exact Hin].
Qed.

Lemma probe_caches_run (set_iter : list value -> list value) (r : refs) (st : state) :
  Forall (fun k => hashable k = true) (set_iter (all_dids r)) ->
  Forall (fun k => hashable k = true) (set_iter (all_uris r)) ->
  lru_wf (_user_cache st) -> lru_wf (_post_cache st) ->
  exists cu cp Bu Bp,
    probe_caches set_iter r st =
      (Ok (missing_from (_user_cache st) (set_iter (all_dids r)),
           missing_from (_post_cache st) (set_iter (all_uris r))),
       mkState cu cp (semaphore st) (calls st) (stored st)) /\
    same_entries (_user_cache st) cu /\ same_entries (_post_cache st) cp /\
    recent (set_iter (all_dids r)) cu Bu /\
    recent (set_iter (all_uris r)) cp Bp /\
    (forall k, In k (set_iter (all_dids r)) ->
       In k (keys (cache (_user_cache st))) -> In k (keys Bu)) /\
    (forall k, In k (set_iter (all_uris r)) ->
       In k (keys (cache (_post_cache st))) -> In k (keys Bp)).
Proof.
  intros Hhu Hhp Hu Hp.
  destruct (probe_run user_attr (set_iter (all_dids r)) st user_attr_ok Hhu Hu)
    as (cu & Bu & Hrun1 & Hse1 & HR1 & Hin1).
  destruct (probe_run post_attr (set_iter (all_uris r)) (setc user_attr cu st)
              post_attr_ok Hhp Hp)
    as (cp & Bp & Hrun2 & Hse2 & HR2 & Hin2).
  exists cu, cp, Bu, Bp.
  unfold probe_caches, mbind, mret. rewrite Hrun1, Hrun2. simpl in *.
  split; [reflexivity|]. split; [exact Hse1|]. split; [exact Hse2|].
  split; [exact HR1|]. split; [exact HR2|]. split; [exact Hin1 | exact Hin2].
Qed.

Lemma hydrate_bulk_run (set_iter : list value -> list value)
    (py_str : value -> string) (records : list value)
    (api_clients : list BlueskyAPI) (rnd : nat) (st st1 : state)
    (r : refs) (mds mus : list value) (api : BlueskyAPI) :
  collect_refs records = Ok r ->
  probe_caches set_iter r st = (Ok (mds, mus), st1) ->
  random_choice rnd api_clients = Ok api ->
  hydrate_bulk set_iter py_str records api_clients rnd st =
  match users_result api mds, posts_result api mus with
  | Raise e, _ => (Raise e, with_calls st1 (batch_calls mds mus))
  | Ok _, Raise e => (Raise e, with_calls st1 (batch_calls mds mus))
  | Ok fu, Ok fp =>
      match publish_and_read set_iter r fu fp
              (with_calls st1 (batch_calls mds mus)) with
      | (Ok tables, st3) =>
          (assemble set_iter py_str r (fst tables) (snd tables) records, st3)
      | (Raise e, st3) => (Raise e, st3)
      end
  end.
Proof.
  intros H1 H2 H3. unfold hydrate_bulk, mbind, lift.
  rewrite H1, H2, H3. simpl. rewrite fetch_missing_run.
  destruct (users_result api mds), (posts_result api mus); reflexivity.
Qed.

(** ** What no phase touches *)

Lemma caches_only_refl (st : state) : caches_only st st.
Proof. now repeat split. Qed.

Lemma caches_only_trans (s1 s2 s3 : state) :
  caches_only s1 s2 -> caches_only s2 s3 -> caches_only s1 s3.
Proof. intros (A1 & A2 & A3) (B1 & B2 & B3). repeat split; congruence. Qed.

Lemma on_user_frame {A} (f : LRUCache -> result A * LRUCache) (st : state) :
  caches_only st (snd (on user_attr f st)).
Proof. unfold on. destruct (f _). now repeat split. Qed.

Lemma on_post_frame {A} (f : LRUCache -> result A * LRUCache) (st : state) :
  caches_only st (snd (on post_attr f st)).
Proof. unfold on. destruct (f _). now repeat split. Qed.

Lemma mbind_frame {A B} (m : M A) (f : A -> M B) (st : state) :
  (forall s, caches_only s (snd (m s))) ->
  (forall x s, caches_only s (snd (f x s))) ->
  caches_only st (snd (mbind m f st)).
Proof.
  intros Hm Hf. unfold mbind. pose proof (Hm st) as H.
  destruct (m st) as [[x|e] s1]; simpl in *; [|exact H].
  eapply caches_only_trans; [exact H | apply Hf].
Qed.

Lemma mfold_frame {A B} (f : A -> B -> M A) (l : list B) :
  (forall acc x s, caches_only s (snd (f acc x s))) ->
  forall acc st, caches_only st (snd (mfold f l acc st)).
Proof.
  intros Hf. induction l as [|x l IH]; intros acc st; simpl.
  - apply caches_only_refl.
  - apply mbind_frame; [apply Hf | apply IH].
Qed.

Lemma publish_and_read_frame (set_iter : list value -> list value) (r : refs)
    (fu fp : list (value * model)) (st : state) :
  caches_only st (snd (publish_and_read set_iter r fu fp st)).
Proof.
  assert (Hattr : forall (a : cache_attr) {A} (f : LRUCache -> result A * LRUCache) s,
             a = user_attr \/ a = post_attr -> caches_only s (snd (on a f s))).
  { intros a A f s [->| ->]; [apply on_user_frame | apply on_post_frame]. }
  assert (Hrb : forall a ks s, a = user_attr \/ a = post_attr ->
             caches_only s (snd (readback a ks s))).
  { intros a ks s Ha. unfold readback. apply mfold_frame. intros acc x s'.
    unfold readback_step. apply mbind_frame; [intros; now apply Hattr|].
    intros v s2. apply mbind_frame.
    - intros s3. destruct v; try (now apply Hattr); apply caches_only_refl.
    - intros; apply caches_only_refl. }
  unfold publish_and_read.
  apply mbind_frame.
  { intros s. unfold publish_users. apply mfold_frame. intros; apply on_user_frame. }
  intros _ s1. apply mbind_frame.
  { intros s. unfold publish_posts. apply mfold_frame. intros; apply on_post_frame. }
  intros _ s2. apply mbind_frame; [intros; apply Hrb; now left|].
  intros t1 s3. apply mbind_frame; [intros; apply Hrb; now right|].
  intros; apply caches_only_refl.
Qed.

(* ================================================================= *)
(** * Phase 1: the reference sets *)

Lemma is_set_nil : is_set [].
Proof. split; constructor. Qed.

Lemma set_add_ok (x : value) (s s' : list value) :
  set_add x s = Ok s' ->
  hashable x = true /\ (is_set s -> is_set s') /\ incl s s' /\ In x s' /\
  (forall y, In y s' -> In y s \/ y = x).
Proof.
  unfold set_add. destruct (hashable x) eqn:Hh; [|discriminate].
  intros [= <-]. split; [reflexivity|].
  destruct (in_dec value_eq_dec x s) as [Hin|Hnin].
  - split; [auto|]. split; [apply incl_refl|]. split; [assumption|]. auto.
  - split; [|split; [|split]].
    + intros [Hnd Hall]. split.
      * apply NoDup_app; [assumption | repeat constructor; intros [] |].
        intros y Hy [<-|[]]. contradiction.
      * apply Forall_app. split; [assumption | now repeat constructor].
    + intros y Hy. apply in_or_app. now left.
    + apply in_or_app. right. now left.
    + intros y Hy. apply in_app_or in Hy. destruct Hy as [Hy|[<-|[]]]; auto.
Qed.

Lemma add_if_truthy_ok (x : value) (s s' : list value) :
  add_if_truthy x s = Ok s' ->
  (is_set s -> is_set s') /\ incl s s' /\
  (truthy x = true -> In x s' /\ hashable x = true) /\
  (forall y, In y s' -> In y s \/ (y = x /\ truthy x = true)).
Proof.
  unfold add_if_truthy. destruct (truthy x) eqn:Ht.
  - intros H. apply set_add_ok in H. destruct H as (Hh & Hs & Hi & Hx & Hy).
    split; [assumption|]. split; [assumption|]. split; [auto|].
    intros y Hin. destruct (Hy y Hin); auto.
  - intros [= <-]. split; [auto|]. split; [apply incl_refl|].
    split; [discriminate | auto].
Qed.

Lemma set_update_ok (t s : list value) :
  Forall (fun k => hashable k = true) t ->
  (is_set s -> is_set (set_update s t)) /\
  incl s (set_update s t) /\ incl t (set_update s t) /\
  (forall y, In y (set_update s t) -> In y s \/ In y t).
Proof.
  revert s. induction t as [|x t IH]; intros s Ht; simpl.
  - split; [auto|]. split; [apply incl_refl|]. split; [intros y []|auto].
  - inversion Ht as [|? ? Hx Ht']; subst.
    assert (Hadd : set_add x s =
              Ok (if in_dec value_eq_dec x s then s else s ++ [x])).
    { unfold set_add. now rewrite Hx. }
    apply set_add_ok in Hadd. destruct Hadd as (_ & Hs & Hi & Hin & Hy).
    destruct (IH (if in_dec value_eq_dec x s then s else s ++ [x]) Ht')
      as (Hs2 & Hi2 & Hi3 & Hy2).
    split; [auto|]. split; [eapply incl_tran; eassumption|].
    split.
    + intros y [<-|Hyt]; [now apply Hi2 | now apply Hi3].
    + intros y Hyin. destruct (Hy2 y Hyin) as [H1|H1]; [|right; now right].
      destruct (Hy y H1) as [H2| ->]; [now left | right; now left].
Qed.

Lemma foldM_inv {A B} (P : A -> Prop) (f : A -> B -> result A) (l : list B) :
  (forall a x a', P a -> In x l -> f a x = Ok a' -> P a') ->
  forall a a', P a -> foldM f l a = Ok a' -> P a'.
Proof.
  induction l as [|x l IH]; intros Hstep a a' Ha; simpl.
  - now intros [= <-].
  - intros H. inv_rbind H. eapply IH; [| |exact H].
    + intros; eapply Hstep; eauto. now right.
    + eapply Hstep; eauto. now left.
Qed.

Lemma collect_feature_ok (g0 : list value) (acc acc' : list value * list value)
    (feature : value) :
  mentions_ok g0 acc -> collect_feature acc feature = Ok acc' ->
  mentions_ok g0 acc'.
Proof.
  intros (H1 & H2 & H3 & H4) H. unfold collect_feature in H. inv_rbind H.
  destruct (eq_str a _); [|injection H as <-; exact (conj H1 (conj H2 (conj H3 H4)))].
  inv_rbind H.
  destruct (truthy a0); [|injection H as <-; exact (conj H1 (conj H2 (conj H3 H4)))].
  inv_rbind H. injection H as <-.
  apply set_add_ok in E1, E2.
  destruct E1 as (_ & S1 & I1 & X1 & Y1). destruct E2 as (_ & S2 & I2 & X2 & Y2).
  unfold mentions_ok. simpl. split; [auto|]. split; [auto|]. split.
  - intros y Hy. destruct (Y1 y Hy) as [Hin| ->]; [|assumption].
    apply I2. now apply H3.
  - eapply incl_tran; eassumption.
Qed.

Lemma collect_facet_ok (g0 : list value) (acc acc' : list value * list value)
    (facet : value) :
  mentions_ok g0 acc -> collect_facet acc facet = Ok acc' ->
  mentions_ok g0 acc'.
Proof.
  intros Hm H. unfold collect_facet in H. inv_rbind H.
  eapply (foldM_inv (mentions_ok g0)); [|exact Hm|exact H].
  intros; eapply collect_feature_ok; eassumption.
Qed.

Lemma foldM_indep {B} (f : list value * list value -> B -> result (list value * list value))
    (l : list B) :
  (forall acc acc' x, f acc x = Ok acc' ->
     forall g, exists g', f (fst acc, g) x = Ok (fst acc', g')) ->
  forall acc acc', foldM f l acc = Ok acc' ->
    forall g, exists g', foldM f l (fst acc, g) = Ok (fst acc', g').
Proof.
  intros Hf. induction l as [|x l IH]; intros acc acc' H g; simpl in *.
  - injection H as <-. now exists g.
  - inv_rbind H. destruct (Hf _ _ _ E g) as (g1 & ->). simpl.
    now apply (IH a acc' H g1).
Qed.

Lemma collect_feature_indep (acc acc' : list value * list value) (feature : value) :
  collect_feature acc feature = Ok acc' ->
  forall g, exists g', collect_feature (fst acc, g) feature = Ok (fst acc', g').
Proof.
  intros H g. unfold collect_feature in *. inv_rbind H. simpl.
  destruct (eq_str a _); [|injection H as <-; now exists g].
  inv_rbind H. simpl.
  destruct (truthy a0); [|injection H as <-; now exists g].
  inv_rbind H. injection H as <-. simpl.
  apply set_add_ok in E2. destruct E2 as (Hh & _).
  unfold set_add at 1. rewrite Hh. simpl. eexists. reflexivity.
Qed.

Lemma collect_facet_indep (acc acc' : list value * list value) (facet : value) :
  collect_facet acc facet = Ok acc' ->
  forall g, exists g', collect_facet (fst acc, g) facet = Ok (fst acc', g').
Proof.
  intros H g. unfold collect_facet in *. inv_rbind H. simpl.
  rewrite E0. simpl.
  apply (foldM_indep collect_feature a0 collect_feature_indep acc acc' H g).
Qed.

Lemma Forall_setitem {V} (Q : V -> Prop) (k : value) (v : V) (d : list (value * V)) :
  Forall (fun e => Q (snd e)) d -> Q v ->
  Forall (fun e => Q (snd e)) (setitem k v d).
Proof.
  intros Hd Hv. induction d as [|[k0 v0] d IH]; simpl.
  - now repeat constructor.
  - inversion Hd; subst. destruct (value_eq_dec k k0); constructor; auto.
Qed.

(** One iteration of the phase-1 loop keeps the accumulators in shape,
    only adds to the sets, and files the record's own mention DIDs under
    its index. *)
Lemma collect_record_ok (r r' : refs) (i : nat) (rec : value) :
  refs_ok r -> collect_record r (i, rec) = Ok r' ->
  refs_ok r' /\
  incl (all_dids r) (all_dids r') /\ incl (all_uris r) (all_uris r') /\
  incl (mention_dids_global r) (mention_dids_global r') /\
  exists rd, rec_mentions rec = Ok rd /\
             record_mentions_map r' = setitem (idx_key i) rd (record_mentions_map r).
Proof.
  intros (Hd & Hu & Hg & Hm & He) H.
  unfold collect_record in H. simpl in H. inv_rbind H. injection H as <-. simpl.
  apply add_if_truthy_ok in E0. destruct E0 as (Sd & Id & _ & _).
  assert (Hq : is_set (fst a5) /\ incl (all_uris r) (fst a5) /\
               Forall (fun e => hashable (snd e) = true /\ In (snd e) (fst a5)) (snd a5)).
  { destruct (eq_str a4 _).
    - inv_rbind E5.
      match type of E5 with
      | (if truthy ?q then _ else _) = _ => destruct (truthy q) eqn:Ht
      end.
      + inv_rbind E5. injection E5 as <-. simpl.
        match goal with
        | Hs : set_add _ _ = Ok ?u |- _ =>
            apply set_add_ok in Hs; destruct Hs as (Hh & S & I & X & _);
            split; [auto|]; split; [assumption|];
            apply (Forall_setitem (fun v => hashable v = true /\ In v u)); [|auto]
        end.
        eapply Forall_impl; [|exact He]. simpl. intros e [? ?]. auto.
      + injection E5 as <-. simpl. split; [assumption|]. split; [apply incl_refl|].
        exact He.
    - injection E5 as <-. simpl. split; [assumption|]. split; [apply incl_refl|].
      exact He. }
  destruct Hq as (Sq & Iq & Fq).
  apply add_if_truthy_ok in E12. destruct E12 as (S12 & I12 & _ & _).
  apply add_if_truthy_ok in E15. destruct E15 as (S15 & I15 & _ & _).
  assert (Hment : mentions_ok (mention_dids_global r) a8).
  { eapply (foldM_inv (mentions_ok (mention_dids_global r))); [| |exact E8].
    - intros; eapply collect_facet_ok; eassumption.
    - split; [apply is_set_nil|]. split; [assumption|]. simpl.
      split; [intros y []|apply incl_refl]. }
  destruct Hment as (M1 & M2 & M3 & M4).
  split; [|split; [|split; [|split]]].
  - unfold refs_ok. simpl. split; [auto|]. split; [auto|]. split; [assumption|].
    split.
    + apply (Forall_setitem (fun v => is_set v /\ incl v (snd a8))); [|auto].
      eapply Forall_impl; [|exact Hm]. simpl. intros e [? ?].
      split; [assumption|]. eapply incl_tran; eassumption.
    + eapply Forall_impl; [|exact Fq]. simpl. intros e [? ?]. auto.
  - assumption.
  - eapply incl_tran; [exact Iq|]. eapply incl_tran; eassumption.
  - assumption.
  - destruct (foldM_indep collect_facet a7 collect_facet_indep _ _ E8 [])
      as (g' & Hind).
    exists (fst a8). split; [|reflexivity].
    unfold rec_mentions. rewrite E1. simpl. rewrite E2. simpl.
    rewrite E6. simpl. rewrite E7. simpl. simpl in Hind. now rewrite Hind.
Qed.

Lemma assoc_setitem {V} (k k' : value) (v : V) (d : list (value * V)) :
  assoc k' (setitem k v d) = if value_eq_dec k' k then Some v else assoc k' d.
Proof.
  induction d as [|[k0 v0] d IH]; simpl.
  - destruct (value_eq_dec k' k); reflexivity.
  - destruct (value_eq_dec k k0) as [->|Hne]; simpl.
    + destruct (value_eq_dec k' k0); reflexivity.
    + destruct (value_eq_dec k' k0) as [->|Hne'].
      * destruct (value_eq_dec k0 k); [congruence | reflexivity].
      * exact IH.
Qed.

Lemma assoc_pair {V} (k : value) (v : V) (d : list (value * V)) :
  assoc k d = Some v -> In (k, v) d.
Proof.
  induction d as [|[k0 v0] d IH]; simpl; [discriminate|].
  destruct (value_eq_dec k k0) as [->|Hne].
  - intros [= ->]. now left.
  - intros H. right. now apply IH.
Qed.

Lemma idx_key_inj (i j : nat) : idx_key i = idx_key j -> i = j.
Proof. unfold idx_key. intros [= H]. lia. Qed.

Lemma idx_key_fresh (s j : nat) : s <= j -> ~ In (idx_key j) (map idx_key (seq 0 s)).
Proof.
  intros Hle Hin. apply in_map_iff in Hin. destruct Hin as (i & E & Hi).
  apply idx_key_inj in E. apply in_seq in Hi. lia.
Qed.

(** The phase-1 loop from position [s] on. *)
Lemma collect_loop (l : list value) :
  forall (s : nat) (r0 r : refs),
    refs_ok r0 ->
    keys (record_mentions_map r0) = map idx_key (seq 0 s) ->
    foldM collect_record (combine (seq s (length l)) l) r0 = Ok r ->
    refs_ok r /\
    incl (all_dids r0) (all_dids r) /\ incl (all_uris r0) (all_uris r) /\
    incl (mention_dids_global r0) (mention_dids_global r) /\
    (forall j, j < s ->
       assoc (idx_key j) (record_mentions_map r) =
       assoc (idx_key j) (record_mentions_map r0)) /\
    (forall i rec, nth_error l i = Some rec ->
       exists rd, rec_mentions rec = Ok rd /\
                  assoc (idx_key (s + i)) (record_mentions_map r) = Some rd).
Proof.
  induction l as [|rec l IH]; intros s r0 r Hok Hkeys H; simpl in H.
  - injection H as <-. split; [assumption|].
    split; [apply incl_refl|]. split; [apply incl_refl|]. split; [apply incl_refl|].
    split; [reflexivity|]. intros [|i] rec' E; discriminate.
  - inv_rbind H.
    destruct (collect_record_ok r0 a s rec Hok E)
      as (Hok1 & I1 & I2 & I3 & rd & Hrd & Hmap).
    assert (Hfresh : ~ In (idx_key s) (keys (record_mentions_map r0))).
    { rewrite Hkeys. now apply idx_key_fresh. }
    assert (Hkeys1 : keys (record_mentions_map a) = map idx_key (seq 0 (S s))).
    { rewrite Hmap, (setitem_absent _ _ _ Hfresh), keys_app, Hkeys.
      rewrite seq_S, map_app. reflexivity. }
    destruct (IH (S s) a r Hok1 Hkeys1 H) as (Hok2 & J1 & J2 & J3 & Hold & Hnew).
    split; [assumption|].
    split; [eapply incl_tran; eassumption|].
    split; [eapply incl_tran; eassumption|].
    split; [eapply incl_tran; eassumption|].
    split.
    + intros j Hj. rewrite Hold by lia. rewrite Hmap, assoc_setitem.
      destruct (value_eq_dec (idx_key j) (idx_key s)) as [E'|]; [|reflexivity].
      apply idx_key_inj in E'. lia.
    + intros [|i] rec' Hnth; simpl in Hnth.
      * injection Hnth as <-. exists rd. split; [assumption|].
        rewrite Nat.add_0_r, Hold by lia. rewrite Hmap, assoc_setitem.
        destruct (value_eq_dec (idx_key s) (idx_key s)); congruence.
      * destruct (Hnew i rec' Hnth) as (rd' & Hrd' & Ha).
        exists rd'. split; [assumption|]. now rewrite Nat.add_succ_r.
Qed.

Lemma refs_ok_init : refs_ok refs_init.
Proof.
  unfold refs_ok, refs_init. simpl.
  repeat split; try apply is_set_nil; constructor.
Qed.

(** Phase 1 as a whole: the sets it leaves, and what it files per record. *)
Lemma collect_refs_ok (records : list value) (r : refs) :
  collect_refs records = Ok r ->
  refs_ok r /\
  incl (mention_dids_global r) (all_dids r) /\
  (forall i rec, nth_error records i = Some rec ->
     exists rd, rec_mentions rec = Ok rd /\
                assoc (idx_key i) (record_mentions_map r) = Some rd /\
                is_set rd /\ incl rd (all_dids r)).
Proof.
  intros H. unfold collect_refs in H. inv_rbind H. injection H as <-.
  unfold enumerate in E.
  destruct (collect_loop records 0 refs_init a refs_ok_init eq_refl E)
    as ((Hd & Hu & Hg & Hm & He) & _ & _ & _ & _ & Hnew).
  destruct (set_update_ok (mention_dids_global a) (all_dids a) (proj2 Hg))
    as (S1 & I1 & I2 & _).
  split; [|split].
  - unfold refs_ok. simpl. split; [auto|]. split; [assumption|].
    split; [assumption|]. split; assumption.
  - simpl. exact I2.
  - intros i rec Hnth. destruct (Hnew i rec Hnth) as (rd & Hrd & Ha).
    simpl in *. exists rd. split; [assumption|]. split; [assumption|].
    apply assoc_pair in Ha. rewrite Forall_forall in Hm.
    destruct (Hm _ Ha) as [Hs Hi]. simpl in *.
    split; [assumption|]. eapply incl_tran; eassumption.
Qed.

(* ================================================================= *)
(** * The remote calls of a hydration (C3) and a failed fetch (C5) *)

Lemma lookup_none_iff (k : value) (c : LRUCache) :
  no_none c -> (is_none (lookup k c) = true <-> ~ In k (keys (cache c))).
Proof.
  intros Hn. unfold lookup. destruct (assoc k (cache c)) as [v|] eqn:E.
  - split.
    + intros Hv. exfalso. apply assoc_pair in E.
      unfold no_none in Hn. rewrite Forall_forall in Hn.
      apply (Hn _ E). simpl. now destruct v.
    + intros Hnin. exfalso. apply Hnin. eapply assoc_Some_in; eassumption.
  - split; [intros _; now apply assoc_None | reflexivity].
Qed.

Lemma missing_from_iff (set_iter : list value -> list value) (c : LRUCache)
    (ks : list value) (k : value) :
  (forall l, Permutation (set_iter l) l) -> no_none c ->
  (In k (missing_from c (set_iter ks)) <-> In k ks /\ ~ In k (keys (cache c))).
Proof.
  intros Hperm Hn. unfold missing_from. rewrite filter_In, (lookup_none_iff k c Hn).
  split; intros [H1 H2]; (split; [|assumption]).
  - eapply Permutation_in; [apply Hperm | assumption].
  - eapply Permutation_in; [apply Permutation_sym, Hperm | assumption].
Qed.

(** The keys that the cache loops of a hydration iterate over are
    hashable: they are the elements of the sets of phase 1. *)
Lemma refs_iter_hashable (set_iter : list value -> list value)
    (records : list value) (r : refs) :
  (forall l, Permutation (set_iter l) l) ->
  collect_refs records = Ok r ->
  Forall (fun k => hashable k = true) (set_iter (all_dids r)) /\
  Forall (fun k => hashable k = true) (set_iter (all_uris r)).
Proof.
  intros Hperm Hr.
  destruct (collect_refs_ok records r Hr) as (((_ & Hd) & (_ & Hu) & _) & _).
  split; (eapply Permutation_Forall; [apply Permutation_sym, Hperm | assumption]).
Qed.

Lemma hydrate_bulk_calls (set_iter : list value -> list value)
    (py_str : value -> string) (records : list value)
    (api_clients : list BlueskyAPI) (rnd : nat) (st : state)
    (r : refs) (api : BlueskyAPI) :
  (forall l, Permutation (set_iter l) l) ->
  lru_wf (_user_cache st) -> lru_wf (_post_cache st) ->
  collect_refs records = Ok r ->
  random_choice rnd api_clients = Ok api ->
  calls (snd (hydrate_bulk set_iter py_str records api_clients rnd st)) =
  calls st ++ batch_calls (missing_from (_user_cache st) (set_iter (all_dids r)))
                          (missing_from (_post_cache st) (set_iter (all_uris r))).
Proof.
  intros Hperm Hu Hp Hr Hc.
  destruct (refs_iter_hashable set_iter records r Hperm Hr) as [Hhu Hhp].
  destruct (probe_caches_run set_iter r st Hhu Hhp Hu Hp)
    as (cu & cp & Bu & Bp & Hprobe & _).
  rewrite (hydrate_bulk_run _ _ _ _ _ _ _ _ _ _ _ Hr Hprobe Hc).
  destruct (users_result api _); [|reflexivity].
  destruct (posts_result api _); [|reflexivity].
  match goal with
  | |- context [publish_and_read ?si ?rr ?fu ?fp ?s] =>
      pose proof (publish_and_read_frame si rr fu fp s) as (_ & Hcalls & _);
      destruct (publish_and_read si rr fu fp s) as [[t|e] s3]
  end; simpl in *; rewrite Hcalls; reflexivity.
Qed.

(** C3.  For every batch whose phase 1 completes, with [missing_dids] and
    [missing_uris] the lists that the phase-2 probe returns, which hold
    exactly the referenced DIDs, respectively URIs, that are absent from the
    caches: the hydration sends exactly [ceil(|missing_dids| / 25)] profile
    requests and [ceil(|missing_uris| / 25)] post requests, each with at
    most 25 keys, which together carry the missing keys, each once; and on an
    empty list a bulk call returns the empty dictionary without a request. *)
Theorem C3_remote_calls (set_iter : list value -> list value)
    (py_str : value -> string) (records : list value)
    (api_clients : list BlueskyAPI) (rnd : nat) (st : state)
    (r : refs) (api : BlueskyAPI) :
  (forall l, Permutation (set_iter l) l) ->
  lru_wf (_user_cache st) -> lru_wf (_post_cache st) ->
  no_none (_user_cache st) -> no_none (_post_cache st) ->
  collect_refs records = Ok r ->
  random_choice rnd api_clients = Ok api ->
  exists missing_dids missing_uris st1 new_calls,
    probe_caches set_iter r st = (Ok (missing_dids, missing_uris), st1) /\
    (forall d, In d missing_dids <->
               In d (all_dids r) /\ ~ In d (keys (cache (_user_cache st)))) /\
    (forall u, In u missing_uris <->
               In u (all_uris r) /\ ~ In u (keys (cache (_post_cache st)))) /\
    NoDup missing_dids /\ NoDup missing_uris /\
    calls (snd (hydrate_bulk set_iter py_str records api_clients rnd st)) =
      calls st ++ new_calls /\
    length (filter is_profile_call new_calls) = ceil_div (length missing_dids) 25 /\
    length (filter is_post_call new_calls) = ceil_div (length missing_uris) 25 /\
    Forall (fun c => length (call_keys c) <= 25) new_calls /\
    concat (map call_keys (filter is_profile_call new_calls)) = missing_dids /\
    concat (map call_keys (filter is_post_call new_calls)) = missing_uris /\
    (forall s, fetch_missing_users api [] s = (Ok [], s)) /\
    (forall s, fetch_missing_posts api [] s = (Ok [], s)).
Proof.
  intros Hperm Hu Hp Hnu Hnp Hr Hc.
  destruct (refs_iter_hashable set_iter records r Hperm Hr) as [Hhu Hhp].
  destruct (probe_caches_run set_iter r st Hhu Hhp Hu Hp)
    as (cu & cp & Bu & Bp & Hprobe & _).
  destruct (collect_refs_ok records r Hr) as ((Hd & Hur & _) & _).
  set (mds := missing_from (_user_cache st) (set_iter (all_dids r))) in *.
  set (mus := missing_from (_post_cache st) (set_iter (all_uris r))) in *.
  exists mds, mus, (mkState cu cp (semaphore st) (calls st) (stored st)),
         (batch_calls mds mus).
  assert (Hnd : forall l, NoDup l -> NoDup (set_iter l)).
  { intros l Hl. eapply Permutation_NoDup; [apply Permutation_sym, Hperm | exact Hl]. }
  split; [exact Hprobe|].
  split; [intros d; now apply missing_from_iff|].
  split; [intros u; now apply missing_from_iff|].
  split; [apply NoDup_filter, Hnd, Hd|].
  split; [apply NoDup_filter, Hnd, Hur|].
  split; [eapply hydrate_bulk_calls; eassumption|].
  unfold batch_calls. rewrite filter_profile_calls, filter_post_calls.
  rewrite !length_map, !chunks_of_length by lia.
  split; [reflexivity|]. split; [reflexivity|].
  split.
  { apply Forall_app. split; apply Forall_map;
      (eapply Forall_impl; [|apply chunks_of_bound]); simpl; auto. }
  rewrite !map_map. simpl. rewrite !map_id, !chunks_of_concat by lia.
  split; [reflexivity|]. split; [reflexivity|].
  split; intros s; reflexivity.
Qed.

Lemma probe_caches_frame (set_iter : list value -> list value) (r : refs)
    (st : state) :
  caches_only st (snd (probe_caches set_iter r st)).
Proof.
  assert (Hp : forall a ks s, a = user_attr \/ a = post_attr ->
             caches_only s (snd (probe a ks s))).
  { intros a ks s Ha. unfold probe. apply mfold_frame. intros acc x s'.
    unfold probe_step. apply mbind_frame.
    - intros s2. destruct Ha as [-> | ->]; [apply on_user_frame | apply on_post_frame].
    - intros; apply caches_only_refl. }
  unfold probe_caches. apply mbind_frame; [intros; apply Hp; now left|].
  intros m s1. apply mbind_frame; [intros; apply Hp; now right|].
  intros; apply caches_only_refl.
Qed.

(** C5.  When one of the two bulk calls of a hydration raises, the
    hydration raises with both caches exactly as the phase-2 probe left
    them, nothing is handed to the sink, and [_hydrate_and_release] gives
    the permit back: the semaphore is one above its value when the task
    started, that is, at its value before [_process_batch] took the
    permit. *)
Theorem C5_fetch_failure (set_iter : list value -> list value)
    (py_str : value -> string) (store_records : list value -> result unit)
    (records : list value) (api_clients : list BlueskyAPI) (rnd : nat)
    (st st1 : state) (r : refs) (api : BlueskyAPI)
    (missing_dids missing_uris : list value) :
  collect_refs records = Ok r ->
  probe_caches set_iter r st = (Ok (missing_dids, missing_uris), st1) ->
  random_choice rnd api_clients = Ok api ->
  (exists e, fst (fetch_missing_users api missing_dids st1) = Raise e) \/
  (exists e, fst (fetch_missing_posts api missing_uris st1) = Raise e) ->
  exists e st' st'',
    hydrate_bulk set_iter py_str records api_clients rnd st = (Raise e, st') /\
    _user_cache st' = _user_cache st1 /\ _post_cache st' = _post_cache st1 /\
    _hydrate_and_release set_iter py_str store_records records api_clients rnd st
      = (Raise e, st'') /\
    _user_cache st'' = _user_cache st1 /\ _post_cache st'' = _post_cache st1 /\
    stored st'' = stored st /\
    semaphore st'' = (semaphore st + 1)%Z /\
    (forall st0, acquire st0 = Some st -> semaphore st'' = semaphore st0).
Proof.
  intros Hr Hprobe Hc Hfail.
  pose proof (probe_caches_frame set_iter r st) as Hframe.
  rewrite Hprobe in Hframe. simpl in Hframe. destruct Hframe as (Hsem & _ & Hsto).
  pose proof (hydrate_bulk_run set_iter py_str _ _ _ _ _ _ _ _ _ Hr Hprobe Hc) as Hrun.
  rewrite fetch_missing_users_run, fetch_missing_posts_run in Hfail. simpl in Hfail.
  assert (Hraise : exists e,
            hydrate_bulk set_iter py_str records api_clients rnd st =
            (Raise e, with_calls st1 (batch_calls missing_dids missing_uris))).
  { destruct (users_result api missing_dids) as [fu|e1] eqn:Eu.
    - destruct (posts_result api missing_uris) as [fp|e2] eqn:Ep.
      + destruct Hfail as [[e He]|[e He]]; discriminate.
      + now exists e2.
    - now exists e1. }
  destruct Hraise as (e & He).
  exists e, (with_calls st1 (batch_calls missing_dids missing_uris)),
         (release (with_calls st1 (batch_calls missing_dids missing_uris))).
  split; [exact He|]. split; [reflexivity|]. split; [reflexivity|].
  split.
  { unfold _hydrate_and_release, mbind. now rewrite He. }
  split; [reflexivity|]. split; [reflexivity|].
  split; [simpl; exact Hsto|].
  split; [simpl; now rewrite Hsem|].
  intros st0 Hacq. unfold acquire in Hacq.
  destruct (0 <? semaphore st0)%Z; [|discriminate].
  injection Hacq as <-. simpl in *. rewrite Hsem. lia.
Qed.

(* ================================================================= *)
(** * Phase 5: the enriched records *)

(** What a completed phase-5 iteration read and built. *)
Lemma enrich_inv (set_iter : list value -> list value) (py_str : value -> string)
    (r : refs) (did_to_profile uri_to_post : list (value * value))
    (i : nat) (rec o : value) :
  enrich set_iter py_str r did_to_profile uri_to_post (i, rec) = Ok o ->
  exists commit c_record did collection rkey time_us user_profile rec_dids
         mention_dict parent_post root_post quote_post,
    py_get rec "commit" (VDict []) = Ok commit /\
    py_get commit "record" (VDict []) = Ok c_record /\
    py_get rec "did" (VStr "") = Ok did /\
    py_get commit "collection" (VStr "") = Ok collection /\
    py_get commit "rkey" (VStr "") = Ok rkey /\
    py_get c_record "time_us" VNone = Ok time_us /\
    dict_get did_to_profile did = Ok user_profile /\
    getitem (record_mentions_map r) (idx_key i) = Ok rec_dids /\
    foldM (fun md mention_did =>
             rbind (dict_get did_to_profile mention_did)
                   (fun p => Ok (setitem mention_did p md)))
          (set_iter rec_dids) [] = Ok mention_dict /\
    o = enriched_obj (make_at_uri py_str did collection rkey) did time_us rec
                     user_profile mention_dict parent_post root_post quote_post.
Proof.
  intros H. unfold enrich in H. simpl in H. inv_rbind H. injection H as <-.
  do 12 eexists.
  repeat (split; [first [reflexivity | eassumption]|]). reflexivity.
Qed.

Lemma assemble_loop (set_iter : list value -> list value) (py_str : value -> string)
    (r : refs) (t1 t2 : list (value * value)) (l : list value) :
  forall (s : nat) (acc out : list value),
    foldM (fun enriched_list ir =>
             rbind (enrich set_iter py_str r t1 t2 ir)
                   (fun o => Ok (enriched_list ++ [o])))
          (combine (seq s (length l)) l) acc = Ok out ->
    exists out',
      out = acc ++ out' /\
      Forall2 (fun ir o => enrich set_iter py_str r t1 t2 ir = Ok o)
              (combine (seq s (length l)) l) out'.
Proof.
  induction l as [|rec l IH]; intros s acc out H; simpl in H.
  - injection H as <-. exists []. rewrite app_nil_r. split; [reflexivity|constructor].
  - inv_rbind H. inv_rbind E. injection E as <-.
    destruct (IH (S s) _ _ H) as (out' & -> & HF).
    exists (a0 :: out'). rewrite <- app_assoc. split; [reflexivity|].
    simpl. constructor; assumption.
Qed.

Lemma Forall2_combine_seq {A B} (P : nat * A -> B -> Prop) (l : list A) :
  forall (s : nat) (out : list B),
    Forall2 P (combine (seq s (length l)) l) out ->
    length out = length l /\
    forall i x o, nth_error l i = Some x -> nth_error out i = Some o -> P (s + i, x) o.
Proof.
  induction l as [|a l IH]; intros s out HF; simpl in HF.
  - inversion HF; subst. split; [reflexivity|]. intros [|i]; discriminate.
  - inversion HF as [|? o0 ? out' Hp HF']; subst.
    destruct (IH (S s) out' HF') as (Hlen & Hnth).
    split; [simpl; now rewrite Hlen|].
    intros [|i] x o Hx Ho; simpl in *.
    + injection Hx as <-. injection Ho as <-. now rewrite Nat.add_0_r.
    + rewrite Nat.add_succ_r. now apply (Hnth i x o).
Qed.

(** Phase 5 yields one object per record, in order, each the outcome of
    [enrich] on that record. *)
Lemma assemble_inv (set_iter : list value -> list value) (py_str : value -> string)
    (r : refs) (t1 t2 : list (value * value)) (records out : list value) :
  assemble set_iter py_str r t1 t2 records = Ok out ->
  length out = length records /\
  forall i rec o, nth_error records i = Some rec -> nth_error out i = Some o ->
    enrich set_iter py_str r t1 t2 (i, rec) = Ok o.
Proof.
  intros H. unfold assemble, enumerate in H.
  destruct (assemble_loop _ _ _ _ _ _ _ _ _ H) as (out' & -> & HF).
  simpl. apply (Forall2_combine_seq _ records 0 out' HF).
Qed.

(** A completed hydration, phase by phase. *)
Lemma hydrate_bulk_inv (set_iter : list value -> list value)
    (py_str : value -> string) (records : list value)
    (api_clients : list BlueskyAPI) (rnd : nat) (st st' : state)
    (out : list value) :
  hydrate_bulk set_iter py_str records api_clients rnd st = (Ok out, st') ->
  exists r mds mus st1 api fu fp tables,
    collect_refs records = Ok r /\
    probe_caches set_iter r st = (Ok (mds, mus), st1) /\
    random_choice rnd api_clients = Ok api /\
    users_result api mds = Ok fu /\ posts_result api mus = Ok fp /\
    publish_and_read set_iter r fu fp (with_calls st1 (batch_calls mds mus))
      = (Ok tables, st') /\
    assemble set_iter py_str r (fst tables) (snd tables) records = Ok out.
Proof.
  intros H.
  destruct (collect_refs records) as [r|e] eqn:Hr;
    [|unfold hydrate_bulk, mbind, lift in H; rewrite Hr in H; discriminate].
  destruct (probe_caches set_iter r st) as [[[mds mus]|e] st1] eqn:Hp;
    [|unfold hydrate_bulk, mbind, lift in H; rewrite Hr, Hp in H; discriminate].
  destruct (random_choice rnd api_clients) as [api|e] eqn:Hc;
    [|unfold hydrate_bulk, mbind, lift in H; rewrite Hr, Hp, Hc in H; discriminate].
  rewrite (hydrate_bulk_run _ _ _ _ _ _ _ _ _ _ _ Hr Hp Hc) in H.
  destruct (users_result api mds) as [fu|e] eqn:Hu; [|discriminate].
  destruct (posts_result api mus) as [fp|e] eqn:Hpo; [|discriminate].
  destruct (publish_and_read _ _ _ _ _) as [[tables|e] s3] eqn:Hpr; [|discriminate].
  injection H as Ha <-.
  exists r, mds, mus, st1, api, fu, fp, tables. now repeat split.
Qed.

(** An operation that returned had a hashable key. *)
Lemma lru_get_hashable (k v : value) (c c' : LRUCache) :
  lru_get k c = (Ok v, c') -> hashable k = true.
Proof.
  intros H. destruct (hashable k) eqn:Hh; [reflexivity|].
  rewrite (lru_get_unhashable k c Hh) in H. discriminate.
Qed.

Lemma lru_set_hashable (k v : value) (c c' : LRUCache) (u : unit) :
  lru_set k v c = (Ok u, c') -> hashable k = true.
Proof.
  intros H. destruct (hashable k) eqn:Hh; [reflexivity|].
  rewrite (lru_set_unhashable k v c Hh) in H. discriminate.
Qed.

Lemma lru_set_wf (k v : value) (c c' : LRUCache) (u : unit) :
  lru_wf c -> lru_set k v c = (Ok u, c') ->
  lru_wf c' /\ max_size c' = max_size c.
Proof.
  intros [Hnd Hlen] H. pose proof (lru_set_hashable _ _ _ _ _ H) as Hh. destruct u.
  destruct (in_dec value_eq_dec k (keys (cache c))) as [Hin|Hnin].
  - rewrite (lru_set_present k v c Hh Hnd Hin) in H. injection H as <-.
    split; [|reflexivity]. split; simpl.
    + rewrite keys_app. simpl. apply NoDup_app.
      * now apply NoDup_keys_others.
      * repeat constructor. intros [].
      * intros x Hx [<-|[]]. apply in_keys_others in Hx. now destruct Hx.
    + rewrite length_app. simpl.
      pose proof (length_others_present k (cache c) Hnd Hin). lia.
  - destruct (Z_lt_le_dec (Z.of_nat (length (cache c))) (max_size c)) as [Hroom|Hfull].
    + rewrite (lru_set_absent_room k v c Hh Hnin Hroom) in H. injection H as <-.
      split; [|reflexivity]. split; simpl.
      * rewrite keys_app. simpl. apply NoDup_app; [assumption| |].
        -- repeat constructor. intros [].
        -- intros x Hx [<-|[]]. contradiction.
      * rewrite length_app. simpl. lia.
    + assert (Hcases : cache c = [] \/ cache c <> []).
      { destruct (cache c); [left | right]; congruence. }
      destruct Hcases as [Ee|Hne].
      * unfold lru_set, py_in, contains in H. rewrite Hh, Ee in H. simpl in H.
        rewrite Ee in Hfull. simpl in Hfull.
        destruct (Z.geb_spec 0 (max_size c)); [discriminate | lia].
      * rewrite (lru_set_absent_full k v c Hh Hnin Hne Hfull) in H.
        injection H as <-. split; [|reflexivity].
        destruct (cache c) as [|kv0 d]; [congruence|].
        simpl in Hnd, Hnin, Hlen. inversion Hnd; subst. split; simpl.
        -- rewrite keys_app. simpl. apply NoDup_app; [assumption| |].
           ++ repeat constructor. intros [].
           ++ intros x Hx [<-|[]]. apply Hnin. now right.
        -- rewrite length_app. simpl. lia.
Qed.

Lemma publish_wf {X} (a : cache_attr) (kf vf : X -> value) (xs : list X) :
  attr_ok a ->
  forall (st st' : state) (u : unit),
    lru_wf (getc a st) ->
    mfold (fun _ x => on a (lru_set (kf x) (vf x))) xs tt st = (Ok u, st') ->
    exists c', st' = setc a c' st /\ lru_wf c' /\
               max_size c' = max_size (getc a st).
Proof.
  intros (L1 & L2 & L3). induction xs as [|x xs IH]; intros st st' u Hwf H; simpl in H.
  - injection H as _ <-. exists (getc a st). now rewrite L3.
  - unfold mbind in H. unfold on at 1 in H.
    destruct (lru_set (kf x) (vf x) (getc a st)) as [[[]|e] c1] eqn:Hset;
      [|discriminate].
    destruct (lru_set_wf _ _ _ _ _ Hwf Hset) as [Hwf1 Hmax1].
    rewrite <- (L1 c1 st) in Hwf1.
    destruct (IH _ _ _ Hwf1 H) as (c2 & -> & Hwf2 & Hmax2).
    exists c2. rewrite L2. rewrite L1 in Hmax2.
    split; [reflexivity|]. split; [assumption | congruence].
Qed.

Lemma readback_run (a : cache_attr) (ks : list value) (st : state) :
  attr_ok a -> Forall (fun k => hashable k = true) ks -> lru_wf (getc a st) ->
  exists c',
    readback a ks st =
      (Ok (fold_left (fun t k => setitem k (lookup k (getc a st)) t) ks []),
       setc a c' st) /\
    same_entries (getc a st) c'.
Proof.
  intros Ha Hh Hwf.
  destruct (readback_loop a ks ks Ha Hh (incl_refl _) st [] [] (recent_nil _ _ Hwf))
    as (c' & B' & Hrun & Hse & _).
  exists c'. split; assumption.
Qed.

(** A read-back that returned went over hashable keys only. *)
Lemma readback_hashable (a : cache_attr) (ks : list value) :
  forall (st st' : state) (acc t : list (value * value)),
    mfold (readback_step a) ks acc st = (Ok t, st') ->
    Forall (fun k => hashable k = true) ks.
Proof.
  induction ks as [|k ks IH]; intros st st' acc t H; [constructor|].
  simpl in H. unfold mbind at 1 in H.
  destruct (readback_step a acc k st) as [[t1|e] s1] eqn:E; [|discriminate].
  constructor; [|eapply IH; exact H].
  unfold readback_step, mbind in E. unfold on at 1 in E.
  destruct (lru_get k (getc a st)) as [[v|e] c1] eqn:G; [|discriminate].
  eapply lru_get_hashable. exact G.
Qed.

(** A completed phase 4: the caches after the writes, and the two tables
    read back from them. *)
Lemma publish_and_read_inv (set_iter : list value -> list value) (r : refs)
    (fu fp : list (value * model)) (s s' : state)
    (tables : list (value * value) * list (value * value)) :
  lru_wf (_user_cache s) -> lru_wf (_post_cache s) ->
  publish_and_read set_iter r fu fp s = (Ok tables, s') ->
  exists cu cp cu' cp',
    publish_users fu s = (Ok tt, setc user_attr cu s) /\
    publish_posts fp (setc user_attr cu s) =
      (Ok tt, setc post_attr cp (setc user_attr cu s)) /\
    lru_wf cu /\ lru_wf cp /\
    same_entries cu cu' /\ same_entries cp cp' /\
    s' = mkState cu' cp' (semaphore s) (calls s) (stored s) /\
    fst tables =
      fold_left (fun t k => setitem k (lookup k cu) t) (set_iter (all_dids r)) [] /\
    snd tables =
      fold_left (fun t k => setitem k (lookup k cp) t) (set_iter (all_uris r)) [].
Proof.
  intros Hu Hp H. unfold publish_and_read, mbind in H.
  destruct (publish_users fu s) as [[[]|e] s1] eqn:E1; [|discriminate].
  destruct (publish_wf user_attr (fun kp => VStr (ident (snd kp)))
              (fun kp => VDict (model_dump (snd kp))) fu user_attr_ok s s1 tt Hu E1)
    as (cu & -> & Hwu & _).
  destruct (publish_posts fp _) as [[[]|e] s2] eqn:E2; [|discriminate].
  destruct (publish_wf post_attr (fun kp : value * model => fst kp)
              (fun kp => VDict (model_dump (snd kp))) fp post_attr_ok
              (setc user_attr cu s) s2 tt Hp E2)
    as (cp & -> & Hwp & _).
  destruct (readback user_attr (set_iter (all_dids r)) _)
    as [[t1|e] s3] eqn:R1; [|discriminate].
  pose proof (readback_hashable _ _ _ _ _ _ R1) as Hh1.
  destruct (readback_run user_attr (set_iter (all_dids r))
              (setc post_attr cp (setc user_attr cu s)) user_attr_ok Hh1 Hwu)
    as (cu' & Hrb1 & Hse1).
  rewrite Hrb1 in R1. injection R1 as <- <-.
  destruct (readback post_attr (set_iter (all_uris r)) _)
    as [[t2|e] s4] eqn:R2; [|discriminate].
  pose proof (readback_hashable _ _ _ _ _ _ R2) as Hh2.
  destruct (readback_run post_attr (set_iter (all_uris r))
              (setc user_attr cu' (setc post_attr cp (setc user_attr cu s)))
              post_attr_ok Hh2 Hwp)
    as (cp' & Hrb2 & Hse2).
  pose proof (eq_trans (eq_sym Hrb2) R2) as R2'. injection R2' as <- <-.
  unfold mret in H. injection H as <- <-.
  exists cu, cp, cu', cp'. simpl in *.
  repeat (split; [first [reflexivity | assumption]|]). reflexivity.
Qed.

Lemma assoc_fold_setitem (f : value -> value) (ks : list value) :
  forall (acc : list (value * value)) (m : value),
    assoc m (fold_left (fun t k => setitem k (f k) t) ks acc) =
    if in_dec value_eq_dec m ks then Some (f m) else assoc m acc.
Proof.
  induction ks as [|k ks IH]; intros acc m; simpl; [reflexivity|].
  rewrite IH, assoc_setitem.
  destruct (in_dec value_eq_dec m ks) as [Hin|Hnin].
  - destruct (value_eq_dec k m); reflexivity.
  - destruct (value_eq_dec k m) as [->|Hne].
    + destruct (value_eq_dec m m); congruence.
    + destruct (value_eq_dec m k); congruence.
Qed.

Lemma keys_fold_setitem (f : value -> value) (ks : list value) :
  forall (acc : list (value * value)),
    NoDup (keys acc ++ ks) ->
    keys (fold_left (fun t k => setitem k (f k) t) ks acc) = keys acc ++ ks.
Proof.
  induction ks as [|k ks IH]; intros acc Hnd; simpl.
  - now rewrite app_nil_r.
  - assert (Hk : ~ In k (keys acc)).
    { intros Hin. apply NoDup_remove_2 in Hnd. apply Hnd.
      apply in_or_app. now left. }
    rewrite IH; rewrite (setitem_absent _ _ _ Hk), keys_app; simpl.
    + now rewrite <- app_assoc.
    + now rewrite <- app_assoc.
Qed.

Lemma mention_fold_inv (tbl : list (value * value)) (ms : list value) :
  forall (acc md : list (value * value)),
    foldM (fun md mention_did =>
             rbind (dict_get tbl mention_did)
                   (fun p => Ok (setitem mention_did p md)))
          ms acc = Ok md ->
    md = fold_left (fun t m => setitem m (tbl_get tbl m) t) ms acc.
Proof.
  induction ms as [|m ms IH]; intros acc md H; simpl in H.
  - now injection H as <-.
  - inv_rbind H. inv_rbind E. injection E as <-. simpl.
    unfold dict_get in E0. destruct (hashable m); [|discriminate].
    injection E0 as <-. now apply IH.
Qed.

Lemma Forall2_combine_snd {A B} (P : nat * A -> B -> Prop) (l : list A) :
  forall (s : nat) (out : list B),
    Forall2 P (combine (seq s (length l)) l) out ->
    Forall2 (fun x o => exists i, P (i, x) o) l out.
Proof.
  induction l as [|a l IH]; intros s out HF; simpl in HF.
  - inversion HF; subst. constructor.
  - inversion HF as [|? o0 ? out' Hp HF']; subst.
    constructor; [now exists s | now apply (IH (S s))].
Qed.

Lemma py_get_enriched (at_uri : string) (did time_us rec user_profile : value)
    (mention_dict : list (value * value)) (parent_post root_post quote_post : value) :
  let o := enriched_obj at_uri did time_us rec user_profile mention_dict
                        parent_post root_post quote_post in
  py_get o "at_uri" VNone = Ok (VStr at_uri) /\
  py_get o "did" VNone = Ok did /\
  py_get o "time_us" VNone = Ok time_us /\
  py_get o "message" VNone = Ok rec /\
  py_get o "hydrated_metadata" VNone =
    Ok (VDict [ (VStr "user", user_profile);
                (VStr "mentions", VDict mention_dict);
                (VStr "parent_post", parent_post);
                (VStr "reply_post", root_post);
                (VStr "quote_post", quote_post) ]).
Proof. repeat split. Qed.

(* ================================================================= *)
(** * The enriched records (C2, C9) *)

(** Whenever [hydrate_bulk] returns: one object per record, in order, each
    carrying its record as [message]. *)
Lemma hydrate_bulk_messages (set_iter : list value -> list value)
    (py_str : value -> string) (records : list value)
    (api_clients : list BlueskyAPI) (rnd : nat) (st st' : state)
    (out : list value) :
  hydrate_bulk set_iter py_str records api_clients rnd st = (Ok out, st') ->
  length out = length records /\
  map (fun o => py_get o "message" VNone) out = map Ok records /\
  forall i rec, nth_error records i = Some rec ->
    exists o, nth_error out i = Some o /\ py_get o "message" VNone = Ok rec.
Proof.
  intros H.
  destruct (hydrate_bulk_inv _ _ _ _ _ _ _ _ H)
    as (r & mds & mus & st1 & api & fu & fp & tables & _ & _ & _ & _ & _ & _ & Ha).
  destruct (assemble_inv _ _ _ _ _ _ _ Ha) as (Hlen & Hnth).
  unfold assemble, enumerate in Ha.
  destruct (assemble_loop _ _ _ _ _ _ _ _ _ Ha) as (out' & E & HF). simpl in E. subst out'.
  apply Forall2_combine_snd in HF.
  split; [exact Hlen|]. split.
  - clear - HF. induction HF as [|rec o l l' (i & Hi) HF IH]; simpl; [reflexivity|].
    apply enrich_inv in Hi.
    destruct Hi as (? & ? & ? & ? & ? & ? & ? & ? & ? & ? & ? & ? & Hi).
    decompose [and] Hi. subst o. f_equal. exact IH.
  - intros i rec Hrec.
    destruct (nth_error out i) as [o|] eqn:Ho.
    + exists o. split; [reflexivity|].
      pose proof (Hnth i rec o Hrec Ho) as Hi. apply enrich_inv in Hi.
      destruct Hi as (? & ? & ? & ? & ? & ? & ? & ? & ? & ? & ? & ? & Hi).
      decompose [and] Hi. subst o. reflexivity.
    + exfalso. apply nth_error_None in Ho.
      assert (i < length records) by (apply nth_error_Some; congruence). lia.
Qed.

Lemma make_at_uri_nonempty (py_str : value -> string) (did collection rkey : value) :
  make_at_uri py_str did collection rkey <> ""%string <->
  truthy did = true /\ truthy collection = true /\ truthy rkey = true.
Proof.
  unfold make_at_uri.
  destruct (truthy did), (truthy collection), (truthy rkey); simpl;
    split; try (intros (? & ? & ?); discriminate); try congruence;
    try (intros _; repeat split); try discriminate.
Qed.

Lemma truthy_str (s : string) : truthy (VStr s) = true <-> s <> ""%string.
Proof.
  simpl. rewrite negb_true_iff. split.
  - intros H E. subst s. discriminate.
  - intros H. apply String.eqb_neq. exact H.
Qed.

(** C9, as the code has it.  For every record of a hydration that returns,
    with [did], [collection] and [rkey] what the record holds under [did],
    [commit.collection] and [commit.rkey] (the empty string when the key is
    missing): [at_uri] is ["at://{did}/{collection}/{rkey}"], each component
    formatted as an f-string does, when all three are truthy, and the empty
    string otherwise; so [at_uri] is non-empty exactly when all three are
    truthy, which for three strings means: all three non-empty. *)
Theorem C9_at_uri (set_iter : list value -> list value)
    (py_str : value -> string) (records : list value)
    (api_clients : list BlueskyAPI) (rnd : nat) (st st' : state)
    (out : list value) :
  hydrate_bulk set_iter py_str records api_clients rnd st = (Ok out, st') ->
  forall i rec o,
    nth_error records i = Some rec -> nth_error out i = Some o ->
    exists commit did collection rkey at_uri,
      py_get rec "commit" (VDict []) = Ok commit /\
      py_get rec "did" (VStr "") = Ok did /\
      py_get commit "collection" (VStr "") = Ok collection /\
      py_get commit "rkey" (VStr "") = Ok rkey /\
      py_get o "at_uri" VNone = Ok (VStr at_uri) /\
      (truthy did = true -> truthy collection = true -> truthy rkey = true ->
       at_uri = ("at://" ++ fmt py_str did ++ "/" ++ fmt py_str collection
                 ++ "/" ++ fmt py_str rkey)%string) /\
      (truthy did && truthy collection && truthy rkey = false ->
       at_uri = ""%string) /\
      (at_uri <> ""%string <->
       truthy did = true /\ truthy collection = true /\ truthy rkey = true) /\
      (forall d c k, did = VStr d -> collection = VStr c -> rkey = VStr k ->
         (at_uri <> ""%string <->
          d <> ""%string /\ c <> ""%string /\ k <> ""%string) /\
         (d <> ""%string -> c <> ""%string -> k <> ""%string ->
          at_uri = ("at://" ++ d ++ "/" ++ c ++ "/" ++ k)%string)).
Proof.
  intros H i rec o Hrec Ho.
  destruct (hydrate_bulk_inv _ _ _ _ _ _ _ _ H)
    as (r & mds & mus & st1 & api & fu & fp & tables & _ & _ & _ & _ & _ & _ & Ha).
  destruct (assemble_inv _ _ _ _ _ _ _ Ha) as (_ & Hnth).
  pose proof (Hnth i rec o Hrec Ho) as Hi. apply enrich_inv in Hi.
  destruct Hi as (commit & c_record & did & collection & rkey & time_us & up & rd
                  & md & pp & rp & qp & G1 & G2 & G3 & G4 & G5 & _ & _ & _ & _ & ->).
  exists commit, did, collection, rkey, (make_at_uri py_str did collection rkey).
  split; [exact G1|]. split; [exact G3|]. split; [exact G4|]. split; [exact G5|].
  split; [reflexivity|].
  split.
  { intros T1 T2 T3. unfold make_at_uri. now rewrite T1, T2, T3. }
  split.
  { intros T. unfold make_at_uri. now rewrite T. }
  split; [apply make_at_uri_nonempty|].
  intros d c k -> -> ->. split.
  - rewrite make_at_uri_nonempty, !truthy_str. reflexivity.
  - intros Hd Hc Hk. unfold make_at_uri.
    apply truthy_str in Hd, Hc, Hk. rewrite Hd, Hc, Hk. reflexivity.
Qed.

(* ================================================================= *)
(** * The caches after a hydration (C4) *)

Lemma in_setitem {V} (k : value) (v : V) (d : list (value * V)) (kv : value * V) :
  In kv (setitem k v d) -> kv = (k, v) \/ In kv d.
Proof.
  induction d as [|[k0 v0] d IH]; simpl.
  - intros [<-|[]]. now left.
  - destruct (value_eq_dec k k0) as [->|Hne]; simpl.
    + intros [<-|H]; [now left | right; now right].
    + intros [<-|H]; [right; now left|].
      destruct (IH H); [now left | right; now right].
Qed.

Lemma in_by_ident (l : list model) (k : value) (p : model) :
  In (k, p) (by_ident l) -> k = VStr (ident p) /\ In p l.
Proof.
  unfold by_ident.
  assert (G : forall acc,
            (forall k p, In (k, p) acc -> k = VStr (ident p) /\ In p l) ->
            forall l', incl l' l ->
            In (k, p) (fold_left (fun acc p => setitem (VStr (ident p)) p acc) l' acc) ->
            k = VStr (ident p) /\ In p l).
  { intros acc Hacc l'. revert acc Hacc.
    induction l' as [|q l' IH]; intros acc Hacc Hl' Hin; simpl in Hin.
    - now apply Hacc.
    - apply (IH (setitem (VStr (ident q)) q acc)); [| |exact Hin].
      + intros k1 p1 H1. apply in_setitem in H1. destruct H1 as [[= -> ->]|H1].
        * split; [reflexivity|]. apply Hl'. now left.
        * now apply Hacc.
      + intros x Hx. apply Hl'. now right. }
  apply (G [] (fun k p (H : In (k, p) []) => match H with end) l (incl_refl l)).
Qed.

Lemma in_update {V} (d e : list (value * V)) (kv : value * V) :
  In kv (update d e) -> In kv d \/ In kv e.
Proof.
  unfold update. revert d. induction e as [|[k v] e IH]; intros d H; simpl in H.
  - now left.
  - destruct (IH _ H) as [H1|H1]; [|right; now right].
    apply in_setitem in H1. simpl in H1.
    destruct H1 as [->|H1]; [right; now left | now left].
Qed.

Lemma in_merged {V} (chunks : list (list (value * V))) (kv : value * V) :
  forall acc, In kv (fold_left update chunks acc) ->
    In kv acc \/ exists chunk, In chunk chunks /\ In kv chunk.
Proof.
  induction chunks as [|c chunks IH]; intros acc H; simpl in H.
  - now left.
  - destruct (IH _ H) as [H1|(c' & Hc' & Hkv)].
    + apply in_update in H1. destruct H1; [now left|].
      right. exists c. split; [now left | assumption].
    + right. exists c'. split; [now right | assumption].
Qed.

Lemma gathered_inv {A B} (g : A -> result B) (subs : list A) (chunks : list B) :
  gathered (map g subs) = Ok chunks ->
  forall chunk, In chunk chunks -> exists sub, In sub subs /\ g sub = Ok chunk.
Proof.
  revert chunks. induction subs as [|sub subs IH]; intros chunks H chunk Hin;
    simpl in H.
  - injection H as <-. contradiction.
  - destruct (g sub) as [b|e] eqn:Eg; [|discriminate].
    destruct (gathered (map g subs)) as [l|e] eqn:El; [|discriminate].
    injection H as <-. destruct Hin as [<-|Hin].
    + exists sub. split; [now left | assumption].
    + destruct (IH l eq_refl chunk Hin) as (sub' & H1 & H2).
      exists sub'. split; [now right | assumption].
Qed.

Lemma in_firstn {A} (n : nat) (l : list A) (x : A) : In x (firstn n l) -> In x l.
Proof.
  intros H. rewrite <- (firstn_skipn n l). apply in_or_app. now left.
Qed.

Lemma in_skipn {A} (n : nat) (l : list A) (x : A) : In x (skipn n l) -> In x l.
Proof.
  intros H. rewrite <- (firstn_skipn n l). apply in_or_app. now right.
Qed.

Lemma in_chunk (items : list value) (chunk_size : nat) (sub : list value) (x : value) :
  In sub (chunks_of items chunk_size) -> In x sub -> In x items.
Proof.
  unfold chunks_of. intros Hsub Hx. apply in_map_iff in Hsub.
  destruct Hsub as (i & <- & _). unfold slice in Hx.
  apply in_firstn in Hx. now apply in_skipn in Hx.
Qed.

(** What a bulk call returns, when the remote answers within the request:
    items filed under their own identifier, for keys that were asked. *)
Lemma bulk_result_keys (f : list value -> result (list model))
    (items : list value) (fetched : list (value * model)) :
  answers_within f ->
  match items with
  | [] => Ok []
  | _ => rbind (gathered (map (fun sub => rbind (f sub)
                                            (fun resp => Ok (by_ident resp)))
                              (chunks_of items 25)))
               (fun chunks => Ok (fold_left update chunks []))
  end = Ok fetched ->
  forall k p, In (k, p) fetched -> k = VStr (ident p) /\ In k items.
Proof.
  intros Hf H k p Hin. destruct items as [|x items].
  - injection H as <-. contradiction.
  - inv_rbind H. injection H as <-.
    apply in_merged in Hin. destruct Hin as [[]|(chunk & Hc & Hkv)].
    destruct (gathered_inv _ _ _ E chunk Hc) as (sub & Hsub & Hg).
    inv_rbind Hg. injection Hg as <-.
    apply in_by_ident in Hkv. destruct Hkv as [-> Hp].
    split; [reflexivity|].
    eapply in_chunk; [exact Hsub|]. eapply Hf; eassumption.
Qed.

(** Whatever the remote answers, the items of a bulk call are filed under
    strings. *)
Lemma bulk_result_str (f : list value -> result (list model))
    (items : list value) (fetched : list (value * model)) :
  match items with
  | [] => Ok []
  | _ => rbind (gathered (map (fun sub => rbind (f sub)
                                            (fun resp => Ok (by_ident resp)))
                              (chunks_of items 25)))
               (fun chunks => Ok (fold_left update chunks []))
  end = Ok fetched ->
  forall k p, In (k, p) fetched -> k = VStr (ident p).
Proof.
  intros H k p Hin. destruct items as [|x items].
  - injection H as <-. contradiction.
  - inv_rbind H. injection H as <-.
    apply in_merged in Hin. destruct Hin as [[]|(chunk & Hc & Hkv)].
    destruct (gathered_inv _ _ _ E chunk Hc) as (sub & Hsub & Hg).
    inv_rbind Hg. injection Hg as <-.
    apply in_by_ident in Hkv. now destruct Hkv.
Qed.

Lemma setc_inj (a : cache_attr) (c c' : LRUCache) (st : state) :
  attr_ok a -> setc a c st = setc a c' st -> c = c'.
Proof.
  intros (L1 & _ & _) H. apply (f_equal (getc a)) in H. now rewrite !L1 in H.
Qed.

(** One cache through phase 4, when it can hold every key of [K] and only
    keys of [K] are written: the recent entries and the written keys are
    all there at the end. *)
Lemma referenced_kept {X} (a : cache_attr) (K : list value) (kf vf : X -> value)
    (xs : list X) (s : state) (c2 c3 : LRUCache) (B : list (value * value)) :
  attr_ok a -> Forall (fun k => hashable k = true) K ->
  NoDup K -> recent K (getc a s) B ->
  (Z.of_nat (length K) <= max_size (getc a s))%Z ->
  Forall (fun x => In (kf x) K) xs ->
  mfold (fun _ x => on a (lru_set (kf x) (vf x))) xs tt s = (Ok tt, setc a c2 s) ->
  same_entries c2 c3 ->
  (forall k, In k (keys B) -> In k (keys (cache c3))) /\
  (forall x, In x xs -> In (kf x) (keys (cache c3))).
Proof.
  intros Ha HhK HK HR Hcap Hxs Hrun Hse.
  destruct (publish_loop a K kf vf xs Ha HhK HK Hxs s B HR Hcap)
    as (c' & B' & Hrun' & _ & HR' & Hi & Hall & _).
  rewrite Hrun in Hrun'. injection Hrun' as E. apply (setc_inj a _ _ _ Ha) in E.
  subst c'. pose proof (recent_incl_cache _ _ _ HR') as Hinc.
  split.
  - intros k Hk. apply (same_entries_keys _ _ k Hse). now apply Hinc, Hi.
  - intros x Hx. apply (same_entries_keys _ _ _ Hse). apply Hinc.
    rewrite Forall_forall in Hall. now apply Hall.
Qed.

(** C4, as the code has it.  After a hydration that returns (so both bulk
    fetches succeeded), run on well-formed caches with no other task in
    between, when each cache can hold as many entries as the batch
    references keys of its kind and the remote returns objects for
    requested keys only: every referenced DID that was cached before, or
    that the profile fetch returned, is in the profile cache, and every
    referenced URI that was cached before, or that the post fetch returned,
    is in the post cache. *)
Theorem C4_referenced_keys_cached (set_iter : list value -> list value)
    (py_str : value -> string) (records : list value)
    (api_clients : list BlueskyAPI) (rnd : nat) (st st' : state)
    (out : list value) (r : refs) (api : BlueskyAPI) :
  (forall l, Permutation (set_iter l) l) ->
  lru_wf (_user_cache st) -> lru_wf (_post_cache st) ->
  collect_refs records = Ok r ->
  random_choice rnd api_clients = Ok api ->
  answers_within (get_profiles api) -> answers_within (get_posts api) ->
  (Z.of_nat (length (all_dids r)) <= max_size (_user_cache st))%Z ->
  (Z.of_nat (length (all_uris r)) <= max_size (_post_cache st))%Z ->
  hydrate_bulk set_iter py_str records api_clients rnd st = (Ok out, st') ->
  exists missing_dids missing_uris st1 fetched_users fetched_posts,
    probe_caches set_iter r st = (Ok (missing_dids, missing_uris), st1) /\
    fst (fetch_missing_users api missing_dids st1) = Ok fetched_users /\
    fst (fetch_missing_posts api missing_uris st1) = Ok fetched_posts /\
    (forall d, In d (all_dids r) ->
       In d (keys (cache (_user_cache st))) \/ In d (keys fetched_users) ->
       In d (keys (cache (_user_cache st')))) /\
    (forall u, In u (all_uris r) ->
       In u (keys (cache (_post_cache st))) \/ In u (keys fetched_posts) ->
       In u (keys (cache (_post_cache st')))).
Proof.
  intros Hperm Hu Hp Hr Hc Hau Hap Hcapu Hcapp H.
  destruct (hydrate_bulk_inv _ _ _ _ _ _ _ _ H)
    as (r' & mds & mus & st1 & api' & fu & fp & tables
        & Hr' & Hprobe & Hc' & Hfu & Hfp & Hpr & _).
  rewrite Hr in Hr'. injection Hr' as <-.
  rewrite Hc in Hc'. injection Hc' as <-.
  destruct (refs_iter_hashable set_iter records r Hperm Hr) as [Hku0 Hkp0].
  destruct (probe_caches_run set_iter r st Hku0 Hkp0 Hu Hp)
    as (cu & cp & Bu & Bp & Hprobe' & Hse1 & Hse2 & HRu & HRp & Hhu & Hhp).
  rewrite Hprobe in Hprobe'. injection Hprobe' as Emds Emus ->.
  pose proof (same_entries_wf _ _ Hse1 Hu) as Hwu.
  pose proof (same_entries_wf _ _ Hse2 Hp) as Hwp.
  apply publish_and_read_inv in Hpr; [|exact Hwu|exact Hwp].
  destruct Hpr as (cu2 & cp2 & cu' & cp' & Hpu & Hpp & _ & _ & Hse3 & Hse4 & -> & _ & _).
  destruct (collect_refs_ok records r Hr) as ((Hd & Hur & _) & _).
  assert (Hnd : forall l, NoDup l -> NoDup (set_iter l)).
  { intros l Hl. eapply Permutation_NoDup; [apply Permutation_sym, Hperm | exact Hl]. }
  assert (Hin : forall l x, In x l -> In x (set_iter l)).
  { intros l x Hx. eapply Permutation_in; [apply Permutation_sym, Hperm | exact Hx]. }
  assert (Hlen : forall l, length (set_iter l) = length l).
  { intros l. apply Permutation_length, Hperm. }
  pose proof (bulk_result_keys (get_profiles api) mds fu Hau Hfu) as Hku.
  pose proof (bulk_result_keys (get_posts api) mus fp Hap Hfp) as Hkp.
  assert (Hmu : incl mds (set_iter (all_dids r))).
  { rewrite Emds. intros x Hx. unfold missing_from in Hx.
    apply filter_In in Hx. now destruct Hx. }
  assert (Hmp : incl mus (set_iter (all_uris r))).
  { rewrite Emus. intros x Hx. unfold missing_from in Hx.
    apply filter_In in Hx. now destruct Hx. }
  destruct (referenced_kept user_attr (set_iter (all_dids r))
              (fun kp : value * model => VStr (ident (snd kp)))
              (fun kp => VDict (model_dump (snd kp))) fu
              (with_calls (mkState cu cp (semaphore st) (calls st) (stored st))
                          (batch_calls mds mus))
              cu2 cu' Bu user_attr_ok Hku0 (Hnd _ (proj1 Hd)) HRu)
    as (Ku1 & Ku2); try assumption.
  { simpl. rewrite Hlen. destruct Hse1 as [-> _]. exact Hcapu. }
  { apply Forall_forall. intros [k p] Hkp'. simpl.
    destruct (Hku k p Hkp') as [-> Hk]. now apply Hmu. }
  destruct (referenced_kept post_attr (set_iter (all_uris r))
              (fun kp : value * model => fst kp)
              (fun kp => VDict (model_dump (snd kp))) fp
              (setc user_attr cu2
                 (with_calls (mkState cu cp (semaphore st) (calls st) (stored st))
                             (batch_calls mds mus)))
              cp2 cp' Bp post_attr_ok Hkp0 (Hnd _ (proj1 Hur)) HRp)
    as (Kp1 & Kp2); try assumption.
  { simpl. rewrite Hlen. destruct Hse2 as [-> _]. exact Hcapp. }
  { apply Forall_forall. intros [k p] Hkp'. simpl.
    destruct (Hkp k p Hkp') as [_ Hk]. now apply Hmp. }
  exists mds, mus, (mkState cu cp (semaphore st) (calls st) (stored st)), fu, fp.
  split; [now rewrite Hprobe, Emds, Emus|].
  split; [now rewrite fetch_missing_users_run|].
  split; [now rewrite fetch_missing_posts_run|].
  simpl. split.
  - intros d Hd' [Hc1|Hf].
    + apply Ku1. apply Hhu; [now apply Hin | assumption].
    + apply in_map_iff in Hf. destruct Hf as ([k p] & <- & Hkp').
      simpl. destruct (Hku k p Hkp') as [Ek _]. rewrite Ek.
      apply (Ku2 (k, p) Hkp').
  - intros u Hu' [Hc1|Hf].
    + apply Kp1. apply Hhp; [now apply Hin | assumption].
    + apply in_map_iff in Hf. destruct Hf as ([k p] & <- & Hkp').
      simpl. apply (Kp2 (k, p) Hkp').
Qed.

(* ================================================================= *)
(** * Phase 1 on well-typed records (C7) *)

Lemma py_get_dict (v : value) (k : string) (d : value) :
  is_dict v = true -> py_get v k d = Ok (getd v k d).
Proof. destruct v; simpl; congruence. Qed.

Lemma py_get_Ok (v : value) (k : string) (d x : value) :
  py_get v k d = Ok x -> x = getd v k d /\ is_dict v = true.
Proof. destruct v; simpl; try discriminate. intros [= <-]. now split. Qed.

Lemma leaf_ok_add (x : value) (s : list value) :
  leaf_ok x = true -> exists s', add_if_truthy x s = Ok s'.
Proof.
  unfold leaf_ok, add_if_truthy, set_add. destruct (truthy x); simpl.
  - intros ->. eexists. reflexivity.
  - intros _. eexists. reflexivity.
Qed.

Lemma foldM_total {A B} (f : A -> B -> result A) (l : list B) :
  Forall (fun x => forall a, exists a', f a x = Ok a') l ->
  forall a, exists a', foldM f l a = Ok a'.
Proof.
  induction 1 as [|x l Hx _ IH]; intros a; simpl.
  - now exists a.
  - destruct (Hx a) as (a1 & ->). simpl. apply IH.
Qed.

Lemma collect_feature_total (feature : value) :
  feature_ok feature = true ->
  forall acc, exists acc', collect_feature acc feature = Ok acc'.
Proof.
  unfold feature_ok. intros H acc. apply andb_true_iff in H. destruct H as [Hd Hl].
  unfold collect_feature. rewrite (py_get_dict _ _ _ Hd). simpl.
  destruct (eq_str _ _); [|now exists acc].
  rewrite (py_get_dict _ _ _ Hd). simpl.
  unfold leaf_ok in Hl. destruct (truthy _); [|now exists acc].
  simpl in Hl. unfold set_add. rewrite Hl. simpl. eexists. reflexivity.
Qed.

Lemma collect_facet_total (facet : value) :
  facet_ok facet = true ->
  forall acc, exists acc', collect_facet acc facet = Ok acc'.
Proof.
  unfold facet_ok. intros H acc. apply andb_true_iff in H. destruct H as [Hd Hf].
  unfold collect_facet. rewrite (py_get_dict _ _ _ Hd). simpl.
  destruct (getd facet "features" (VList [])) as [| | |fs|]; try discriminate.
  simpl. apply foldM_total. apply Forall_forall. intros x Hx.
  apply collect_feature_total. rewrite forallb_forall in Hf. now apply Hf.
Qed.

Lemma well_typed_inv (rec : value) :
  well_typed rec = true ->
  is_dict rec = true /\ leaf_ok (posting_did rec) = true /\
  is_dict (node_commit rec) = true /\ is_dict (node_record rec) = true /\
  is_dict (node_embed rec) = true /\
  (is_quote rec = true ->
   is_dict (getd (node_embed rec) "record" (VDict [])) = true /\
   leaf_ok (quote_uri rec) = true) /\
  (exists fs, getd (node_record rec) "facets" (VList []) = VList fs /\
              forallb facet_ok fs = true) /\
  is_dict (node_reply rec) = true /\
  is_dict (node_parent rec) = true /\ leaf_ok (parent_uri rec) = true /\
  is_dict (node_root rec) = true /\ leaf_ok (root_uri rec) = true.
Proof.
  unfold well_typed. rewrite !andb_true_iff.
  intros (((((((((((H1 & H2) & H3) & H4) & H5) & H6) & H7) & H8) & H9) & H10) & H11) & H12).
  repeat (split; [assumption|]).
  split.
  { intros Hq. rewrite Hq in H6. now apply andb_true_iff in H6. }
  split.
  { destruct (getd (node_record rec) "facets" (VList [])); try discriminate.
    eexists. split; [reflexivity | assumption]. }
  repeat (split; [assumption|]). assumption.
Qed.

(** Phase 1 does not raise on a well-typed record, whatever it has
    accumulated. *)
Lemma collect_record_total (rec : value) (r : refs) (i : nat) :
  well_typed rec = true -> exists r', collect_record r (i, rec) = Ok r'.
Proof.
  intros H. apply well_typed_inv in H.
  destruct H as (D0 & Ldid & Dc & Dr & De & Hquote & (fs & Efs & Hfs)
                 & Dreply & Dp & Lp & Droot & Lroot).
  unfold posting_did, parent_uri, root_uri, is_quote, quote_uri,
    node_parent, node_root, node_reply, node_embed, node_record, node_commit in *.
  unfold collect_record. simpl.
  rewrite (py_get_dict rec "did") by assumption. simpl.
  destruct (leaf_ok_add _ (all_dids r) Ldid) as (s1 & ->). simpl.
  rewrite (py_get_dict rec "commit") by assumption. simpl.
  rewrite (py_get_dict _ "record") by assumption. simpl.
  rewrite (py_get_dict _ "embed") by assumption. simpl.
  rewrite (py_get_dict _ "$type") by assumption. simpl.
  assert (Hq : exists q,
    (if eq_str (getd (getd (getd (getd rec "commit" (VDict [])) "record" (VDict []))
                          "embed" (VDict [])) "$type" VNone) "app.bsky.embed.record"
     then
       rbind (py_get (getd (getd (getd rec "commit" (VDict [])) "record" (VDict []))
                           "embed" (VDict [])) "record" (VDict []))
         (fun erec => rbind (py_get erec "uri" VNone)
            (fun quote_uri =>
               if truthy quote_uri
               then rbind (set_add quote_uri (all_uris r))
                      (fun uris => Ok (uris, setitem (VInt (Z.of_nat i)) quote_uri
                                                     (record_embed_map r)))
               else Ok (all_uris r, record_embed_map r)))
     else Ok (all_uris r, record_embed_map r)) = Ok q).
  { destruct (eq_str _ _); [|eexists; reflexivity].
    destruct (Hquote eq_refl) as [Wd Wl].
    rewrite (py_get_dict _ "record") by assumption. simpl.
    rewrite (py_get_dict _ "uri") by assumption. simpl.
    unfold leaf_ok in Wl. destruct (truthy _); [|eexists; reflexivity].
    simpl in Wl. unfold set_add. rewrite Wl. simpl. eexists. reflexivity. }
  destruct Hq as (q & ->). simpl.
  rewrite (py_get_dict _ "facets") by assumption. rewrite Efs. simpl.
  destruct (foldM_total collect_facet fs) with (a := (@nil value, mention_dids_global r))
    as (m & ->).
  { apply Forall_forall. intros x Hx. apply collect_facet_total.
    rewrite forallb_forall in Hfs. now apply Hfs. }
  simpl.
  rewrite (py_get_dict _ "reply") by assumption. simpl.
  rewrite (py_get_dict _ "parent") by assumption. simpl.
  rewrite (py_get_dict _ "uri") by assumption. simpl.
  destruct (leaf_ok_add _ (fst q) Lp) as (s2 & ->). simpl.
  rewrite (py_get_dict _ "root") by assumption. simpl.
  rewrite (py_get_dict _ "uri") by assumption. simpl.
  destruct (leaf_ok_add _ s2 Lroot) as (s3 & ->). simpl.
  eexists. reflexivity.
Qed.

Lemma emitted_in_mono (rec : value) (d u m d' u' m' : list value) :
  incl d d' -> incl u u' -> incl m m' ->
  emitted_in rec d u m -> emitted_in rec d' u' m'.
Proof.
  intros Hd Hu Hm (H1 & H2 & H3 & H4 & H5).
  split; [auto|]. split; [auto|]. split; [auto|]. split; [auto|].
  eapply incl_tran; eassumption.
Qed.

(** The feature loop keeps what [rec_dids] holds and adds the DID that
    each feature mentions. *)
Lemma collect_feature_mentions (acc acc' : list value * list value)
    (feature : value) :
  collect_feature acc feature = Ok acc' ->
  incl (fst acc) (fst acc') /\ incl (mention_of feature) (fst acc').
Proof.
  intros H. unfold collect_feature in H. inv_rbind H.
  apply py_get_Ok in E. destruct E as [-> _]. unfold mention_of.
  destruct (eq_str _ _).
  - inv_rbind H. apply py_get_Ok in E. destruct E as [-> _]. simpl.
    destruct (truthy _).
    + inv_rbind H. injection H as <-. simpl.
      apply set_add_ok in E. destruct E as (_ & _ & I & X & _).
      split; [exact I|]. intros y [<-|[]]. exact X.
    + injection H as <-. split; [apply incl_refl | intros y []].
  - injection H as <-. split; [apply incl_refl | intros y []].
Qed.

Lemma collect_features_mentions (fs : list value) :
  forall acc acc',
    foldM collect_feature fs acc = Ok acc' ->
    incl (fst acc) (fst acc') /\ incl (flat_map mention_of fs) (fst acc').
Proof.
  induction fs as [|f fs IH]; intros acc acc' H; simpl in H.
  - injection H as <-. split; [apply incl_refl | intros y []].
  - inv_rbind H. apply collect_feature_mentions in E. destruct E as [I1 M1].
    destruct (IH _ _ H) as [I2 M2]. split.
    + eapply incl_tran; eassumption.
    + simpl. apply incl_app; [|exact M2]. eapply incl_tran; eassumption.
Qed.

Lemma collect_facets_mentions (fs : list value) :
  forall acc acc',
    foldM collect_facet fs acc = Ok acc' ->
    incl (fst acc) (fst acc') /\
    incl (flat_map mention_of
            (flat_map (fun facet => list_of (getd facet "features" (VList []))) fs))
         (fst acc').
Proof.
  induction fs as [|f fs IH]; intros acc acc' H; simpl in H.
  - injection H as <-. split; [apply incl_refl | intros y []].
  - inv_rbind H. unfold collect_facet in E. inv_rbind E.
    apply py_get_Ok in E0. destruct E0 as [-> _].
    apply collect_features_mentions in E. destruct E as [I1 M1].
    destruct (IH _ _ H) as [I2 M2]. split.
    + eapply incl_tran; eassumption.
    + simpl. rewrite flat_map_app. apply incl_app; [|exact M2].
      eapply incl_tran; [|exact I2].
      destruct (getd f "features" (VList [])); simpl; try (intros y []).
      simpl in E1. injection E1 as <-. exact M1.
Qed.

(** The set [rec_dids] that phase 1 builds for a record holds every DID
    the record mentions. *)
Lemma rec_mentions_covers (rec : value) (rd : list value) :
  rec_mentions rec = Ok rd -> incl (mention_dids rec) rd.
Proof.
  intros H. unfold rec_mentions in H. inv_rbind H. injection H as <-.
  apply py_get_Ok in E, E0, E1.
  destruct E as [-> _], E0 as [-> _], E1 as [-> _].
  apply collect_facets_mentions in E3. destruct E3 as [_ M].
  unfold mention_dids, features_of, node_record, node_commit.
  destruct (getd (getd (getd rec "commit" (VDict [])) "record" (VDict []))
                 "facets" (VList [])); simpl; try (intros y []).
  simpl in E2. injection E2 as <-. exact M.
Qed.

Lemma in_setitem_same {V} (k : value) (v : V) (d : list (value * V)) :
  exists k', In (k', v) (setitem k v d).
Proof.
  induction d as [|[k0 v0] d IH]; simpl.
  - exists k. now left.
  - destruct (value_eq_dec k k0).
    + exists k0. now left.
    + destruct IH as (k' & H). exists k'. now right.
Qed.

(** One iteration of the phase-1 loop puts the record's references into the
    sets. *)
Lemma collect_record_emits (r r' : refs) (i : nat) (rec : value) :
  refs_ok r -> collect_record r (i, rec) = Ok r' ->
  emitted_in rec (all_dids r') (all_uris r') (mention_dids_global r').
Proof.
  intros Hok H.
  destruct (collect_record_ok r r' i rec Hok H)
    as ((_ & _ & _ & Hm & _) & _ & _ & _ & rd & Hrd & Hmap).
  unfold collect_record in H. simpl in H. inv_rbind H. injection H as <-.
  simpl in *.
  apply py_get_Ok in E, E1, E2, E3, E4, E9, E10, E11, E13, E14.
  destruct E as [-> _], E1 as [-> _], E2 as [-> _], E3 as [-> _], E4 as [-> _],
           E9 as [-> _], E10 as [-> _], E11 as [-> _], E13 as [-> _], E14 as [-> _].
  apply add_if_truthy_ok in E0, E12, E15.
  destruct E0 as (_ & _ & A0 & _), E12 as (_ & I12 & A12 & _),
           E15 as (_ & I15 & A15 & _).
  unfold emitted_in, posting_did, parent_uri, root_uri, is_quote, quote_uri,
    node_parent, node_root, node_reply, node_embed, node_record, node_commit.
  split; [intros T; now apply A0|].
  split; [intros T; apply I15; now apply A12|].
  split; [intros T; now apply A15|].
  split.
  - intros Q T. rewrite Q in E5. inv_rbind E5.
    apply py_get_Ok in E, E0. destruct E as [-> _], E0 as [-> _].
    rewrite T in E5. inv_rbind E5. injection E5 as <-. simpl in *.
    apply set_add_ok in E. destruct E as (_ & _ & _ & X & _).
    apply I15, I12, X.
  - eapply incl_tran; [exact (rec_mentions_covers _ _ Hrd)|].
    destruct (in_setitem_same (VInt (Z.of_nat i)) (fst a8) (record_mentions_map r))
      as (k' & Hin).
    rewrite Forall_forall in Hm. specialize (Hm _ Hin). simpl in Hm.
    unfold idx_key in Hmap. apply (f_equal (assoc (VInt (Z.of_nat i)))) in Hmap.
    rewrite !assoc_setitem in Hmap.
    destruct (value_eq_dec _ _) in Hmap; [|congruence].
    injection Hmap as <-. apply Hm.
Qed.

Lemma collect_loop_emits (l : list value) :
  forall (s : nat) (r0 r : refs),
    refs_ok r0 ->
    keys (record_mentions_map r0) = map idx_key (seq 0 s) ->
    foldM collect_record (combine (seq s (length l)) l) r0 = Ok r ->
    Forall (fun rec => emitted_in rec (all_dids r) (all_uris r)
                                  (mention_dids_global r)) l.
Proof.
  induction l as [|rec l IH]; intros s r0 r Hok Hkeys H; simpl in H; [constructor|].
  inv_rbind H.
  destruct (collect_record_ok r0 a s rec Hok E)
    as (Hok1 & _ & _ & _ & rd & _ & Hmap).
  pose proof (collect_record_emits r0 a s rec Hok E) as Hem.
  assert (Hfresh : ~ In (idx_key s) (keys (record_mentions_map r0))).
  { rewrite Hkeys. now apply idx_key_fresh. }
  assert (Hkeys1 : keys (record_mentions_map a) = map idx_key (seq 0 (S s))).
  { rewrite Hmap, (setitem_absent _ _ _ Hfresh), keys_app, Hkeys.
    rewrite seq_S, map_app. reflexivity. }
  destruct (collect_loop l (S s) a r Hok1 Hkeys1 H) as (_ & J1 & J2 & J3 & _).
  constructor.
  - eapply emitted_in_mono; eassumption.
  - eapply IH; eassumption.
Qed.

(** C7, as the code has it.  On a batch of records in which every
    intermediate node ([commit], [commit.record], [embed], the embed's
    [record], [reply], [parent], [root], each facet and each feature) is
    missing or a dictionary, [facets] and each [features] is missing or a
    list, and no leaf read ([did], a [uri]) is a non-empty list or
    dictionary, phase 1 does not raise: a missing node counts as absent, and
    of every record the posting DID, the reply URIs, the quote URI and each
    DID that a mention feature of one of its facets carries (as read off
    the record by [mention_dids], not by the extraction loop) end up in
    [all_dids] and [all_uris]. *)
Theorem C7_extraction_total (records : list value) :
  Forall (fun rec => well_typed rec = true) records ->
  exists r, collect_refs records = Ok r /\
            Forall (fun rec => emitted rec r) records.
Proof.
  intros Hwt. unfold collect_refs, enumerate.
  assert (Hloop : forall l s r0,
            Forall (fun rec => well_typed rec = true) l ->
            exists r, foldM collect_record (combine (seq s (length l)) l) r0 = Ok r).
  { induction l as [|rec l IH]; intros s r0 Hl; simpl.
    - now exists r0.
    - inversion Hl as [|? ? Hrec Hl']; subst.
      destruct (collect_record_total rec r0 s Hrec) as (r1 & ->). simpl.
      now apply IH. }
  destruct (Hloop records 0 refs_init Hwt) as (r & Hr). rewrite Hr. simpl.
  eexists. split; [reflexivity|].
  pose proof (collect_loop_emits records 0 refs_init r refs_ok_init eq_refl Hr) as Hem.
  destruct (collect_loop records 0 refs_init r refs_ok_init eq_refl Hr)
    as ((_ & _ & Hg & _) & _).
  destruct (set_update_ok (mention_dids_global r) (all_dids r) (proj2 Hg))
    as (_ & I1 & I2 & _).
  eapply Forall_impl; [|exact Hem]. intros rec He. unfold emitted. simpl.
  eapply emitted_in_mono; [exact I1 | apply incl_refl | exact I2 | exact He].
Qed.

(* ================================================================= *)
(** * When a hydration returns *)

Lemma lru_set_total (k v : value) (c : LRUCache) :
  hashable k = true -> lru_wf c -> (1 <= max_size c)%Z ->
  exists c', lru_set k v c = (Ok tt, c').
Proof.
  intros Hh [Hnd Hlen] Hmax.
  destruct (in_dec value_eq_dec k (keys (cache c))) as [Hin|Hnin].
  - rewrite (lru_set_present k v c Hh Hnd Hin). eexists. reflexivity.
  - destruct (Z_lt_le_dec (Z.of_nat (length (cache c))) (max_size c)) as [Hroom|Hfull].
    + rewrite (lru_set_absent_room k v c Hh Hnin Hroom). eexists. reflexivity.
    + rewrite (lru_set_absent_full k v c Hh Hnin); [eexists; reflexivity | | exact Hfull].
      intros E. rewrite E in Hfull. simpl in Hfull. lia.
Qed.

Lemma publish_total {X} (a : cache_attr) (kf vf : X -> value) (xs : list X) :
  attr_ok a -> Forall (fun x => hashable (kf x) = true) xs ->
  forall st, lru_wf (getc a st) -> (1 <= max_size (getc a st))%Z ->
    exists c', mfold (fun _ x => on a (lru_set (kf x) (vf x))) xs tt st =
               (Ok tt, setc a c' st).
Proof.
  intros Ha Hh. pose proof Ha as (L1 & L2 & L3).
  induction Hh as [|x xs Hx _ IH]; intros st Hwf Hmax; simpl.
  - exists (getc a st). unfold mret. now rewrite L3.
  - destruct (lru_set_total (kf x) (vf x) _ Hx Hwf Hmax) as (c1 & Hset).
    destruct (lru_set_wf _ _ _ _ _ Hwf Hset) as [Hwf1 Hmax1].
    unfold mbind. rewrite (on_run a _ st _ _ Hset).
    destruct (IH (setc a c1 st)) as (c2 & Hrun).
    + now rewrite L1.
    + rewrite L1. lia.
    + rewrite Hrun, L2. now exists c2.
Qed.

Lemma publish_and_read_total (set_iter : list value -> list value) (r : refs)
    (fu fp : list (value * model)) (s : state) :
  Forall (fun k => hashable k = true) (set_iter (all_dids r)) ->
  Forall (fun k => hashable k = true) (set_iter (all_uris r)) ->
  Forall (fun kp => hashable (fst kp) = true) fp ->
  lru_wf (_user_cache s) -> lru_wf (_post_cache s) ->
  (1 <= max_size (_user_cache s))%Z -> (1 <= max_size (_post_cache s))%Z ->
  exists tables s', publish_and_read set_iter r fu fp s = (Ok tables, s').
Proof.
  intros Hhu Hhp Hfp Hu Hp Mu Mp. unfold publish_and_read, mbind.
  destruct (publish_total user_attr (fun kp : value * model => VStr (ident (snd kp)))
              (fun kp => VDict (model_dump (snd kp))) fu user_attr_ok
              ltac:(apply Forall_forall; reflexivity) s Hu Mu)
    as (cu & E1).
  unfold publish_users. rewrite E1.
  destruct (publish_wf user_attr _ _ fu user_attr_ok s _ tt Hu E1)
    as (cu0 & E & Hwu & _).
  apply (setc_inj user_attr _ _ _ user_attr_ok) in E. subst cu0.
  destruct (publish_total post_attr (fun kp : value * model => fst kp)
              (fun kp => VDict (model_dump (snd kp))) fp post_attr_ok Hfp
              (setc user_attr cu s) Hp Mp)
    as (cp & E2).
  unfold publish_posts. rewrite E2.
  destruct (publish_wf post_attr _ _ fp post_attr_ok (setc user_attr cu s) _ tt Hp E2)
    as (cp0 & E & Hwp & _).
  apply (setc_inj post_attr _ _ _ post_attr_ok) in E. subst cp0.
  destruct (readback_run user_attr (set_iter (all_dids r))
              (setc post_attr cp (setc user_attr cu s)) user_attr_ok Hhu Hwu)
    as (cu' & Hrb1 & _).
  rewrite Hrb1.
  destruct (readback_run post_attr (set_iter (all_uris r))
              (setc user_attr cu' (setc post_attr cp (setc user_attr cu s)))
              post_attr_ok Hhp Hwp)
    as (cp' & Hrb2 & _).
  rewrite Hrb2. unfold mret. eexists. eexists. reflexivity.
Qed.

Lemma gathered_total {A B} (g : A -> result B) (subs : list A) :
  (forall sub, exists b, g sub = Ok b) ->
  exists l, gathered (map g subs) = Ok l.
Proof.
  intros Hg. induction subs as [|sub subs (l & IH)]; simpl.
  - now exists [].
  - destruct (Hg sub) as (b & ->). rewrite IH. now exists (b :: l).
Qed.

Lemma bulk_results_total (api : BlueskyAPI) (mds mus : list value) :
  responsive api ->
  (exists fu, users_result api mds = Ok fu) /\
  (exists fp, posts_result api mus = Ok fp).
Proof.
  intros Hr. split.
  - unfold users_result. destruct mds; [now exists []|].
    destruct (gathered_total
                (fun sub => rbind (get_profiles api sub) (fun resp => Ok (by_ident resp)))
                (chunks_of (v :: mds) 25)) as (l & ->).
    + intros sub. destruct (proj1 (Hr sub)) as (resp & ->). simpl. eexists. reflexivity.
    + simpl. eexists. reflexivity.
  - unfold posts_result. destruct mus; [now exists []|].
    destruct (gathered_total
                (fun sub => rbind (get_posts api sub) (fun resp => Ok (by_ident resp)))
                (chunks_of (v :: mus) 25)) as (l & ->).
    + intros sub. destruct (proj2 (Hr sub)) as (resp & ->). simpl. eexists. reflexivity.
    + simpl. eexists. reflexivity.
Qed.

Lemma random_choice_in {A} (rnd : nat) (l : list A) :
  l <> [] -> exists a, random_choice rnd l = Ok a /\ In a l.
Proof.
  intros Hne. destruct l as [|a l]; [congruence|].
  unfold random_choice. eexists. split; [reflexivity|].
  apply nth_In. apply Nat.mod_upper_bound. simpl. discriminate.
Qed.

(** The nodes of a record that went through phase 1. *)
Lemma collect_record_nodes (r r' : refs) (i : nat) (rec : value) :
  collect_record r (i, rec) = Ok r' ->
  is_dict rec = true /\ is_dict (node_commit rec) = true /\
  is_dict (node_record rec) = true /\ is_dict (node_reply rec) = true /\
  is_dict (node_parent rec) = true /\ is_dict (node_root rec) = true /\
  leaf_ok (parent_uri rec) = true /\ leaf_ok (root_uri rec) = true.
Proof.
  intros H. unfold collect_record in H. simpl in H. inv_rbind H. clear H.
  apply py_get_Ok in E, E1, E2, E9, E10, E11, E13, E14.
  destruct E as [_ D0], E1 as [-> _], E2 as [-> Dc], E9 as [-> Dr],
           E10 as [-> Dre], E11 as [-> Dp], E13 as [-> _], E14 as [-> Dro].
  unfold parent_uri, root_uri, node_parent, node_root, node_reply, node_record,
    node_commit.
  apply add_if_truthy_ok in E12, E15.
  destruct E12 as (_ & _ & A12 & _), E15 as (_ & _ & A15 & _).
  assert (Hleaf : forall x, (truthy x = true -> hashable x = true) -> leaf_ok x = true).
  { intros x Hx. unfold leaf_ok. destruct (truthy x); [|reflexivity].
    simpl. now apply Hx. }
  split; [exact D0|]. split; [exact Dc|]. split; [exact Dr|]. split; [exact Dre|].
  split; [exact Dp|]. split; [exact Dro|].
  split; apply Hleaf; intros T; [now apply A12 | now apply A15].
Qed.

Lemma foldM_steps {A B} (f : A -> B -> result A) (l : list B) :
  forall a a', foldM f l a = Ok a' ->
    Forall (fun x => exists b b', f b x = Ok b') l.
Proof.
  induction l as [|x l IH]; intros a a' H; simpl in H; [constructor|].
  inv_rbind H. constructor; [now exists a, a0 | now apply (IH a0 a')].
Qed.

Lemma get_if_truthy_total (d : list (value * value)) (u : value) :
  leaf_ok u = true -> exists v, get_if_truthy d u = Ok v.
Proof.
  unfold leaf_ok, get_if_truthy, dict_get. destruct (truthy u); simpl.
  - intros ->. eexists. reflexivity.
  - intros _. eexists. reflexivity.
Qed.

Lemma mention_fold_total (tbl : list (value * value)) (ms : list value) :
  Forall (fun k => hashable k = true) ms ->
  forall acc, exists md,
    foldM (fun md mention_did =>
             rbind (dict_get tbl mention_did)
                   (fun p => Ok (setitem mention_did p md)))
          ms acc = Ok md.
Proof.
  induction 1 as [|m ms Hm _ IH]; intros acc; simpl.
  - now exists acc.
  - unfold dict_get at 1. rewrite Hm. simpl. apply IH.
Qed.

(** Phase 5 does not raise on a record that went through phase 1, unless
    its [did] is unhashable (an empty list or dictionary passes phase 1 and
    fails at [did_to_profile.get(did)]). *)
Lemma enrich_total (set_iter : list value -> list value) (py_str : value -> string)
    (r r0 r1 : refs) (t1 t2 : list (value * value)) (i j : nat) (rec : value)
    (rd : list value) :
  (forall l, Permutation (set_iter l) l) ->
  refs_ok r ->
  collect_record r0 (j, rec) = Ok r1 ->
  hashable (getd rec "did" (VStr "")) = true ->
  assoc (idx_key i) (record_mentions_map r) = Some rd ->
  Forall (fun k => hashable k = true) rd ->
  exists o, enrich set_iter py_str r t1 t2 (i, rec) = Ok o.
Proof.
  intros Hperm (_ & _ & _ & _ & He) Hcr Hdid Hassoc Hrd.
  destruct (collect_record_nodes _ _ _ _ Hcr)
    as (D0 & Dc & Dr & Dre & Dp & Dro & Lp & Lr).
  unfold parent_uri, root_uri, node_parent, node_root, node_reply, node_record,
    node_commit in *.
  unfold enrich. simpl.
  rewrite (py_get_dict rec "commit") by assumption. simpl.
  rewrite (py_get_dict _ "record") by assumption. simpl.
  rewrite (py_get_dict rec "did") by assumption. simpl.
  rewrite (py_get_dict _ "collection") by assumption. simpl.
  rewrite (py_get_dict _ "rkey") by assumption. simpl.
  rewrite (py_get_dict _ "time_us") by assumption. simpl.
  unfold dict_get at 1. rewrite Hdid. simpl.
  unfold getitem. unfold idx_key in Hassoc. rewrite Hassoc. simpl.
  destruct (mention_fold_total t1 (set_iter rd)) with (acc := @nil (value * value))
    as (md & ->).
  { eapply Permutation_Forall; [apply Permutation_sym, Hperm | exact Hrd]. }
  simpl.
  rewrite (py_get_dict _ "reply") by assumption. simpl.
  rewrite (py_get_dict _ "parent") by assumption. simpl.
  rewrite (py_get_dict _ "uri") by assumption. simpl.
  destruct (get_if_truthy_total t2 _ Lp) as (pp & ->). simpl.
  rewrite (py_get_dict _ "root") by assumption. simpl.
  rewrite (py_get_dict _ "uri") by assumption. simpl.
  destruct (get_if_truthy_total t2 _ Lr) as (rp & ->). simpl.
  match goal with
  | |- context [get_if_truthy t2 ?q] =>
      destruct (get_if_truthy_total t2 q) as (qp & ->)
  end.
  - destruct (assoc (VInt (Z.of_nat i)) (record_embed_map r)) as [u|] eqn:Eu;
      [|reflexivity].
    apply assoc_pair in Eu. rewrite Forall_forall in He.
    destruct (He _ Eu) as [Hh _]. simpl in Hh. unfold leaf_ok. rewrite Hh.
    apply orb_true_r.
  - simpl. eexists. reflexivity.
Qed.

Lemma in_enumerate {A} (l : list A) (i : nat) (x : A) :
  In (i, x) (enumerate l) -> nth_error l i = Some x.
Proof.
  unfold enumerate.
  assert (G : forall (l : list A) s i, In (i, x) (combine (seq s (length l)) l) ->
              s <= i /\ nth_error l (i - s) = Some x).
  { clear. induction l as [|y l IH]; intros s i H; simpl in H; [contradiction|].
    destruct H as [[= <- <-]|H].
    - rewrite Nat.sub_diag. now split.
    - destruct (IH _ _ H) as [H1 H2]. split; [lia|].
      replace (i - s) with (S (i - S s)) by lia. exact H2. }
  intros H. destruct (G _ _ _ H) as [_ H2]. now rewrite Nat.sub_0_r in H2.
Qed.

Lemma assemble_total (set_iter : list value -> list value) (py_str : value -> string)
    (records : list value) (r : refs) (t1 t2 : list (value * value)) :
  (forall l, Permutation (set_iter l) l) ->
  collect_refs records = Ok r ->
  Forall (fun rec => hashable (getd rec "did" (VStr "")) = true) records ->
  exists out, assemble set_iter py_str r t1 t2 records = Ok out.
Proof.
  intros Hperm Hr Hdid.
  destruct (collect_refs_ok records r Hr) as (Hok & _ & Hrecs).
  assert (Hsteps : Forall (fun ir : nat * value =>
                     exists b b', collect_record b ir = Ok b') (enumerate records)).
  { unfold collect_refs in Hr. inv_rbind Hr. eapply foldM_steps; eassumption. }
  unfold assemble.
  assert (Hall : Forall (fun ir => forall acc, exists acc',
                   rbind (enrich set_iter py_str r t1 t2 ir)
                         (fun o => Ok (acc ++ [o])) = Ok acc') (enumerate records)).
  { apply Forall_forall. intros [i rec] Hin acc.
    rewrite Forall_forall in Hsteps. destruct (Hsteps _ Hin) as (b & b' & Hb).
    pose proof (in_enumerate _ _ _ Hin) as Hnth.
    destruct (Hrecs i rec Hnth) as (rd & _ & Ha & (_ & Hh) & _).
    destruct (enrich_total set_iter py_str r b b' t1 t2 i i rec rd) as (o & ->);
      try assumption.
    - rewrite Forall_forall in Hdid. apply Hdid.
      eapply nth_error_In; eassumption.
    - simpl. eexists. reflexivity. }
  apply (foldM_total _ _ Hall).
Qed.

(** A hydration returns when phase 1 completes, no [did] is unhashable,
    the caches are well formed with room for an entry, the pool is not empty
    and the remote answers. *)
Lemma hydrate_bulk_total (set_iter : list value -> list value)
    (py_str : value -> string) (records : list value)
    (api_clients : list BlueskyAPI) (rnd : nat) (st : state) (r : refs) :
  (forall l, Permutation (set_iter l) l) ->
  lru_wf (_user_cache st) -> lru_wf (_post_cache st) ->
  (1 <= max_size (_user_cache st))%Z -> (1 <= max_size (_post_cache st))%Z ->
  collect_refs records = Ok r ->
  Forall (fun rec => hashable (getd rec "did" (VStr "")) = true) records ->
  api_clients <> [] -> Forall responsive api_clients ->
  exists out st',
    hydrate_bulk set_iter py_str records api_clients rnd st = (Ok out, st').
Proof.
  intros Hperm Hu Hp Mu Mp Hr Hdid Hne Hresp.
  destruct (refs_iter_hashable set_iter records r Hperm Hr) as [Hhu Hhp].
  destruct (probe_caches_run set_iter r st Hhu Hhp Hu Hp)
    as (cu & cp & Bu & Bp & Hprobe & Hse1 & Hse2 & _).
  destruct (random_choice_in rnd api_clients Hne) as (api & Hc & Hin).
  rewrite Forall_forall in Hresp.
  destruct (bulk_results_total api
              (missing_from (_user_cache st) (set_iter (all_dids r)))
              (missing_from (_post_cache st) (set_iter (all_uris r)))
              (Hresp api Hin)) as ((fu & Hfu) & (fp & Hfp)).
  rewrite (hydrate_bulk_run _ _ _ _ _ _ _ _ _ _ _ Hr Hprobe Hc), Hfu, Hfp.
  match goal with
  | |- context [publish_and_read ?si ?rr ?a ?b ?s] =>
      destruct (publish_and_read_total si rr a b s) as (tables & s' & ->)
  end; simpl; try assumption.
  - apply Forall_forall. intros [k p] Hkp.
    rewrite (bulk_result_str _ _ _ Hfp k p Hkp). reflexivity.
  - eapply same_entries_wf; eassumption.
  - eapply same_entries_wf; eassumption.
  - destruct Hse1 as [-> _]. exact Mu.
  - destruct Hse2 as [-> _]. exact Mp.
  - destruct (assemble_total set_iter py_str records r (fst tables) (snd tables)
                Hperm Hr Hdid) as (out & ->).
    now exists out, s'.
Qed.

(** C2.  For every batch on which no phase raises, [hydrate_bulk] returns
    exactly one enriched object per input record, in input order, and the
    [message] field of the i-th object is the i-th input record, unchanged.
    No phase raises when phase 1 completes on the batch, no record's [did]
    is unhashable, the caches are well formed with room for an entry, the
    pool is not empty and the remote answers every request. *)
Theorem C2_one_record_per_event (set_iter : list value -> list value)
    (py_str : value -> string) (records : list value)
    (api_clients : list BlueskyAPI) (rnd : nat) (st : state) :
  (forall r,
     (forall l, Permutation (set_iter l) l) ->
     lru_wf (_user_cache st) -> lru_wf (_post_cache st) ->
     (1 <= max_size (_user_cache st))%Z -> (1 <= max_size (_post_cache st))%Z ->
     collect_refs records = Ok r ->
     Forall (fun rec => hashable (getd rec "did" (VStr "")) = true) records ->
     api_clients <> [] -> Forall responsive api_clients ->
     exists out st',
       hydrate_bulk set_iter py_str records api_clients rnd st = (Ok out, st')) /\
  (forall out st',
     hydrate_bulk set_iter py_str records api_clients rnd st = (Ok out, st') ->
     length out = length records /\
     map (fun o => py_get o "message" VNone) out = map Ok records /\
     forall i rec, nth_error records i = Some rec ->
       exists o, nth_error out i = Some o /\ py_get o "message" VNone = Ok rec).
Proof.
  split.
  - intros r. apply hydrate_bulk_total.
  - intros out st'. apply hydrate_bulk_messages.
Qed.

(* ================================================================= *)
(** * The shard filter (C6) and [time_us] (C8) *)

(** What the filter of [TurboCharger.run] does where it does not raise. *)
Lemma shard_filter_spec (modulo shard record : value) :
  (truthy modulo = false -> truthy shard = false ->
   shard_filter modulo shard record = Ok true) /\
  (forall m s t,
     modulo = VInt m -> shard = VInt s -> m <> 0%Z ->
     py_get record "time_us" VNone = Ok (VInt t) ->
     shard_filter modulo shard record = Ok (Z.eqb (t mod m) s)).
Proof.
  split.
  - intros Hm Hs. unfold shard_filter. now rewrite Hm, Hs.
  - intros m s t -> -> Hm Ht. unfold shard_filter. simpl.
    assert (Hb : (m =? 0)%Z = false) by (now apply Z.eqb_neq).
    rewrite Hb. simpl. rewrite Ht. simpl. rewrite Hb. simpl.
    f_equal. destruct (Z.eqb_spec (t mod m) s) as [E|E].
    + apply value_eqb_true. now rewrite E.
    + apply value_eqb_false. intros [= E']. contradiction.
Qed.

(** C6, where the code departs from it.  With [modulo] zero (or unset) and
    a non-zero [shard], the filter is not bypassed: the condition divides by
    zero (or by [None]) and [run] raises on the first event; and with an
    active filter an event without [time_us] is not dropped: the condition
    raises [TypeError]. *)
Theorem C6_shard_filter_raises :
  shard_filter (VInt 0) (VInt 1) ev_plain = Raise ZeroDivisionError /\
  buffer_record (VInt 0) (VInt 1) [] ev_plain = Raise ZeroDivisionError /\
  shard_filter VNone (VInt 1) ev_plain = Raise TypeError /\
  shard_filter (VInt 2) (VInt 0) ev_reply = Raise TypeError /\
  buffer_record (VInt 2) (VInt 0) [] ev_reply = Raise TypeError.
Proof. repeat split. Qed.

(** C8, where the code departs from it.  The event [ev_plain] carries
    [time_us] at its top level, where the shard filter reads it; the
    enriched object built from it has [time_us = None], because phase 5
    reads [time_us] from [commit.record]. *)
Theorem C8_time_us_not_passed_through :
  py_get ev_plain "time_us" VNone = Ok (VInt 1700000000000017) /\
  shard_filter (VInt 2) (VInt 1) ev_plain = Ok true /\
  exists out st',
    hydrate_bulk in_order str_of [ev_plain] [echo_api] 0 st_small = (Ok out, st') /\
    map (fun o => py_get o "time_us" VNone) out = [Ok VNone].
Proof.
  split; [reflexivity|]. split; [reflexivity|].
  eexists. eexists. split; [vm_compute; reflexivity | reflexivity].
Qed.

(** In general, the [time_us] of an enriched object is the [time_us] field
    of the record's [commit.record]. *)
Lemma hydrate_bulk_time_us (set_iter : list value -> list value)
    (py_str : value -> string) (records : list value)
    (api_clients : list BlueskyAPI) (rnd : nat) (st st' : state)
    (out : list value) :
  hydrate_bulk set_iter py_str records api_clients rnd st = (Ok out, st') ->
  forall i rec o,
    nth_error records i = Some rec -> nth_error out i = Some o ->
    py_get o "time_us" VNone = Ok (getd (node_record rec) "time_us" VNone).
Proof.
  intros H i rec o Hrec Ho.
  destruct (hydrate_bulk_inv _ _ _ _ _ _ _ _ H)
    as (r & mds & mus & st1 & api & fu & fp & tables & _ & _ & _ & _ & _ & _ & Ha).
  destruct (assemble_inv _ _ _ _ _ _ _ Ha) as (_ & Hnth).
  pose proof (Hnth i rec o Hrec Ho) as Hi. apply enrich_inv in Hi.
  destruct Hi as (commit & c_record & did & collection & rkey & time_us & up & rd
                  & md & pp & rp & qp & G1 & G2 & _ & _ & _ & G6 & _ & _ & _ & ->).
  apply py_get_Ok in G1, G2, G6.
  destruct G1 as [-> _], G2 as [-> _], G6 as [-> _]. reflexivity.
Qed.


(* ================================================================= *)
(** * Further properties *)

Lemma others_snoc_same {V} (k : value) (v : V) (d : list (value * V)) :
  others k (d ++ [(k, v)]) = others k d.
Proof.
  unfold others. rewrite filter_app. simpl.
  rewrite value_eqb_refl. simpl. apply app_nil_r.
Qed.

Lemma others_idem {V} (k : value) (d : list (value * V)) :
  others k (others k d) = others k d.
Proof.
  apply others_absent. rewrite in_keys_others. tauto.
Qed.

Lemma assoc_snoc_same {V} (k : value) (v : V) (d : list (value * V)) :
  ~ In k (keys d) -> assoc k (d ++ [(k, v)]) = Some v.
Proof.
  intros Hn. rewrite assoc_app_last.
  apply assoc_None in Hn. rewrite Hn.
  destruct (value_eq_dec k k); congruence.
Qed.

(** The three cases of [set] on a well-formed cache that can hold an
    entry. *)
Lemma lru_set_cases (k v : value) (c : LRUCache) :
  hashable k = true -> lru_wf c -> (1 <= max_size c)%Z ->
  exists d, lru_set k v c = (Ok tt, mkLRU (max_size c) (d ++ [(k, v)])) /\
            ~ In k (keys d) /\ NoDup (keys d) /\
            (In k (keys (cache c)) -> d = others k (cache c)) /\
            (~ In k (keys (cache c)) ->
             (Z.of_nat (length (cache c)) < max_size c)%Z -> d = cache c) /\
            (~ In k (keys (cache c)) ->
             (max_size c <= Z.of_nat (length (cache c)))%Z -> d = tl (cache c)).
Proof.
  intros Hh [Hnd Hlen] Hmax.
  destruct (in_dec value_eq_dec k (keys (cache c))) as [Hin|Hnin].
  - exists (others k (cache c)). rewrite (lru_set_present k v c Hh Hnd Hin).
    split; [reflexivity|]. split; [rewrite in_keys_others; tauto|].
    split; [now apply NoDup_keys_others|].
    split; [reflexivity|]. split; intros; contradiction.
  - destruct (Z_lt_le_dec (Z.of_nat (length (cache c))) (max_size c)) as [Hroom|Hfull].
    + exists (cache c). rewrite (lru_set_absent_room k v c Hh Hnin Hroom).
      split; [reflexivity|]. split; [assumption|]. split; [assumption|].
      split; [intros; contradiction|]. split; [reflexivity | intros; lia].
    + assert (Hne : cache c <> []).
      { intros E. rewrite E in Hfull. simpl in Hfull. lia. }
      exists (tl (cache c)). rewrite (lru_set_absent_full k v c Hh Hnin Hne Hfull).
      split; [reflexivity|].
      destruct (cache c) as [|kv0 d]; [congruence|]. simpl in *.
      inversion Hnd; subst.
      split; [tauto|]. split; [assumption|].
      split; [intros; tauto|]. split; [intros; lia | reflexivity].
Qed.

(** X1.  On a cache whose keys are unique and within its capacity, the
    capacity being at least 1, and for a hashable key [k] (any key but a
    list or a dictionary, which Python refuses to hash): [set(k, v)] raises
    nothing, and a [get(k)] right after it returns [v] and leaves the cache
    as the [set] left it. *)
Theorem lru_get_after_set (k v : value) (c : LRUCache) :
  hashable k = true -> lru_wf c -> (1 <= max_size c)%Z ->
  exists c', lru_set k v c = (Ok tt, c') /\ lru_get k c' = (Ok v, c').
Proof.
  intros Hh Hwf Hmax.
  destruct (lru_set_cases k v c Hh Hwf Hmax) as (d & Hset & Hnin & Hnd & _).
  eexists. split; [exact Hset|].
  rewrite (lru_get_present k v); simpl.
  - rewrite others_snoc_same, others_absent by assumption. reflexivity.
  - exact Hh.
  - rewrite keys_app. simpl. apply NoDup_app; [assumption| |].
    + repeat constructor. intros [].
    + intros x Hx [<-|[]]. contradiction.
  - now apply assoc_snoc_same.
Qed.

(** X2.  On a cache whose keys are unique and within its capacity, the
    capacity being at least 1, and for a hashable key [k] (any key but a
    list or a dictionary): [set(k, v1)] followed by [set(k, v2)] raises
    nothing and leaves the cache exactly as [set(k, v2)] alone does: the
    second write replaces the first, the order of the keys and the eviction
    included. *)
Theorem lru_set_twice (k v1 v2 : value) (c : LRUCache) :
  hashable k = true -> lru_wf c -> (1 <= max_size c)%Z ->
  exists c1 c2,
    lru_set k v1 c = (Ok tt, c1) /\ lru_set k v2 c1 = (Ok tt, c2) /\
    lru_set k v2 c = (Ok tt, c2).
Proof.
  intros Hh Hwf Hmax.
  destruct (lru_set_cases k v1 c Hh Hwf Hmax) as (d & Hset & Hnin & Hnd & H1 & H2 & H3).
  destruct (lru_set_cases k v2 c Hh Hwf Hmax) as (d' & Hset' & _ & _ & H1' & H2' & H3').
  assert (Ed : d' = d).
  { destruct (in_dec value_eq_dec k (keys (cache c))) as [Hin|Hn].
    - now rewrite H1, H1'.
    - destruct (Z_lt_le_dec (Z.of_nat (length (cache c))) (max_size c)) as [Hr|Hf].
      + now rewrite H2, H2'.
      + now rewrite H3, H3'. }
  subst d'. eexists. eexists. split; [exact Hset|]. split; [|exact Hset'].
  rewrite lru_set_present; simpl.
  - now rewrite others_snoc_same, others_absent.
  - exact Hh.
  - rewrite keys_app. simpl. apply NoDup_app; [assumption| |].
    + repeat constructor. intros [].
    + intros x Hx [<-|[]]. contradiction.
  - rewrite keys_app. apply in_or_app. right. now left.
Qed.

(** X3.  On a cache with unique keys, a second [get] of the same key returns
    what the first returned (or raises [TypeError] as the first did, when
    the key is a list or a dictionary) and leaves the cache as the first
    left it. *)
Theorem lru_get_twice (k : value) (c : LRUCache) :
  NoDup (keys (cache c)) ->
  lru_get k (snd (lru_get k c)) = lru_get k c.
Proof.
  intros Hnd. destruct (hashable k) eqn:Hh.
  2:{ rewrite (lru_get_unhashable k c Hh). simpl. now apply lru_get_unhashable. }
  destruct (assoc k (cache c)) as [v|] eqn:Ha.
  - rewrite (lru_get_present k v c Hh Hnd Ha). simpl.
    assert (Hn : ~ In k (keys (others k (cache c)))).
    { rewrite in_keys_others. tauto. }
    rewrite (lru_get_present k v); simpl.
    + now rewrite others_snoc_same, others_idem.
    + exact Hh.
    + rewrite keys_app. simpl. apply NoDup_app.
      * now apply NoDup_keys_others.
      * repeat constructor. intros [].
      * intros x Hx [<-|[]]. contradiction.
    + now apply assoc_snoc_same.
  - apply assoc_None in Ha. rewrite (lru_get_absent k c Hh Ha). simpl.
    now apply lru_get_absent.
Qed.

Lemma assoc_snoc_other {V} (k k' : value) (v : V) (d : list (value * V)) :
  k' <> k -> assoc k' (d ++ [(k, v)]) = assoc k' d.
Proof.
  intros Hne. rewrite assoc_app_last.
  destruct (assoc k' d); [reflexivity|].
  destruct (value_eq_dec k' k); congruence.
Qed.

(** X4.  On a cache whose keys are unique and within its capacity, the
    capacity being at least 1, and for a hashable key [k] (any key but a
    list or a dictionary): [set(k, v)] raises nothing and every other key
    [k'] is stored with the value it had, or absent as it was; or else [k]
    was new, the cache was full and [k'] was its first entry, the least
    recently used, which is now absent. *)
Theorem lru_set_other_keys (k v k' : value) (c : LRUCache) :
  hashable k = true -> lru_wf c -> (1 <= max_size c)%Z -> k' <> k ->
  exists c',
    lru_set k v c = (Ok tt, c') /\
    (assoc k' (cache c') = assoc k' (cache c) \/
     (~ In k (keys (cache c)) /\ Z.of_nat (length (cache c)) = max_size c /\
      (exists v' rest, cache c = (k', v') :: rest) /\
      assoc k' (cache c') = None)).
Proof.
  intros Hh Hwf Hmax Hne.
  destruct (lru_set_cases k v c Hh Hwf Hmax) as (d & Hset & Hnin & Hnd & H1 & H2 & H3).
  eexists. split; [exact Hset|]. simpl. rewrite assoc_snoc_other by assumption.
  destruct Hwf as [Hndc Hlen].
  destruct (in_dec value_eq_dec k (keys (cache c))) as [Hin|Hn].
  - left. rewrite (H1 Hin), assoc_others.
    destruct (value_eq_dec k' k); congruence.
  - destruct (Z_lt_le_dec (Z.of_nat (length (cache c))) (max_size c)) as [Hr|Hf].
    + left. now rewrite (H2 Hn Hr).
    + rewrite (H3 Hn Hf). destruct (cache c) as [|[k0 v0] rest] eqn:Ec.
      * now left.
      * simpl in *. destruct (value_eq_dec k' k0) as [->|Hk0].
        -- right. split; [assumption|]. split; [lia|].
           split; [now exists v0, rest|].
           inversion Hndc; subst. now apply assoc_None.
        -- now left.
Qed.

(** X5.  On a cache created with capacity zero or less, a [get] of a
    hashable key returns and leaves the cache empty, a [set] of a hashable
    key raises [KeyError] ([popitem] on the empty dictionary), and either
    call on a list or a dictionary as key raises [TypeError] (the key is
    unhashable): a sequence of operations stops at the first operation that
    is a [set] or has an unhashable key, raising [TypeError] when that key
    is unhashable and [KeyError] otherwise, and it leaves the cache as
    created when it holds no such operation. *)
Theorem lru_zero_capacity (n : Z) (ops : list lru_op) :
  (n <= 0)%Z ->
  lru_run ops (LRUCache_init n) =
  match find fails_empty ops with
  | None => Ok (LRUCache_init n)
  | Some o => Raise (if hashable (op_key o) then KeyError else TypeError)
  end.
Proof.
  intros Hn. induction ops as [|o ops IH]; [reflexivity|].
  cbn [lru_run find]. unfold fails_empty at 1.
  destruct (hashable (op_key o)) eqn:Hh.
  - destruct o as [k|k v]; cbn [is_set_op op_key orb negb lru_step] in *.
    + rewrite (lru_get_absent k _ Hh); [exact IH | intros []].
    + rewrite Hh. unfold lru_set, py_in. rewrite Hh. simpl.
      destruct (Z.geb_spec 0 n); [reflexivity | lia].
  - rewrite (lru_step_unhashable o _ Hh), orb_true_r, Hh. reflexivity.
Qed.

(** X6.  On a cache with unique keys, [get(k)] of a hashable key [k] (any
    key but a list or a dictionary) returns the value stored under [k],
    [None] when there is none, and changes the value of no key, nor the
    capacity, nor the number of entries: only the order of the keys. *)
Theorem lru_get_keeps_values (k k' : value) (c : LRUCache) :
  hashable k = true -> NoDup (keys (cache c)) ->
  exists c', lru_get k c = (Ok (lookup k c), c') /\
             assoc k' (cache c') = assoc k' (cache c) /\
             max_size c' = max_size c /\
             length (cache c') = length (cache c).
Proof.
  intros Hh Hnd. destruct (lru_get_spec k c Hh Hnd) as (c' & Hget & Hm & Hp).
  exists c'. split; [exact Hget|].
  split; [symmetry; exact (assoc_perm k' _ _ Hnd Hp)|]. split; [exact Hm|].
  symmetry. now apply Permutation_length.
Qed.

(** ** What every outcome of a hydration preserves *)

Lemma mbind_pres {A B} (P : state -> Prop) (m : M A) (f : A -> M B) (st : state) :
  (forall s, P s -> P (snd (m s))) ->
  (forall x s, P s -> P (snd (f x s))) ->
  P st -> P (snd (mbind m f st)).
Proof.
  intros Hm Hf H. unfold mbind. pose proof (Hm st H) as H1.
  destruct (m st) as [[x|e] s1]; simpl in *; [now apply Hf | exact H1].
Qed.

Lemma mfold_pres {A B} (P : state -> Prop) (f : A -> B -> M A) (l : list B) :
  (forall acc x s, P s -> P (snd (f acc x s))) ->
  forall acc st, P st -> P (snd (mfold f l acc st)).
Proof.
  intros Hf. induction l as [|x l IH]; intros acc st H; simpl.
  - exact H.
  - apply mbind_pres; [intros; now apply Hf | intros; now apply IH | exact H].
Qed.

Lemma lru_get_ok (k : value) (c : LRUCache) (n : Z) :
  cache_ok c /\ max_size c = n ->
  cache_ok (snd (lru_get k c)) /\ max_size (snd (lru_get k c)) = n.
Proof.
  intros [[Hwf Hnn] Hm].
  destruct (hashable k) eqn:Hh.
  2:{ rewrite (lru_get_unhashable k c Hh). exact (conj (conj Hwf Hnn) Hm). }
  destruct (lru_get_spec k c Hh (proj1 Hwf)) as (c' & -> & Hse). simpl.
  split; [split|].
  - eapply same_entries_wf; eassumption.
  - eapply same_entries_no_none; eassumption.
  - destruct Hse as [-> _]. exact Hm.
Qed.

Lemma no_none_snoc (d : list (value * value)) (k v : value) (n : Z) :
  Forall (fun kv => snd kv <> VNone) d -> v <> VNone ->
  no_none (mkLRU n (d ++ [(k, v)])).
Proof.
  intros Hd Hv. unfold no_none. simpl. apply Forall_app. split; [exact Hd|].
  now repeat constructor.
Qed.

Lemma lru_set_ok (k v : value) (c : LRUCache) (n : Z) :
  v <> VNone ->
  cache_ok c /\ max_size c = n ->
  cache_ok (snd (lru_set k v c)) /\ max_size (snd (lru_set k v c)) = n.
Proof.
  intros Hv [[Hwf Hnn] Hm].
  destruct (hashable k) eqn:Hh.
  2:{ rewrite (lru_set_unhashable k v c Hh). exact (conj (conj Hwf Hnn) Hm). }
  destruct (Z_lt_le_dec (max_size c) 1) as [Hsmall|Hbig].
  - destruct Hwf as [Hnd Hlen].
    assert (Ec : cache c = []).
    { destruct (cache c); [reflexivity | simpl in Hlen; lia]. }
    unfold lru_set, py_in, contains. rewrite Hh, Ec. simpl.
    destruct (Z.geb_spec 0 (max_size c)); [|lia]. simpl.
    repeat split; try assumption; rewrite Ec; simpl; try constructor; lia.
  - destruct (lru_set_cases k v c Hh Hwf Hbig) as (d & Hset & _ & _ & H1 & H2 & H3).
    destruct (lru_set k v c) as [r c'] eqn:E.
    assert (Er : r = Ok tt) by congruence. subst r.
    destruct (lru_set_wf k v c c' tt Hwf E) as [Hwf' Hm'].
    simpl. split; [split; [exact Hwf'|] | congruence].
    injection Hset as ->. apply no_none_snoc; [|exact Hv].
    unfold no_none in Hnn.
    destruct (in_dec value_eq_dec k (keys (cache c))) as [Hin|Hn].
    + rewrite (H1 Hin). unfold others. rewrite Forall_forall in *.
      intros x Hx. apply filter_In in Hx. now apply Hnn.
    + destruct (Z_lt_le_dec (Z.of_nat (length (cache c))) (max_size c)) as [Hr|Hf].
      * now rewrite (H2 Hn Hr).
      * rewrite (H3 Hn Hf). destruct (cache c); [constructor|].
        simpl. now inversion Hnn.
Qed.

Lemma on_user_ok {A} (f : LRUCache -> result A * LRUCache) (nu np : Z) (st : state) :
  (forall c, cache_ok c /\ max_size c = nu ->
             cache_ok (snd (f c)) /\ max_size (snd (f c)) = nu) ->
  caches_ok nu np st -> caches_ok nu np (snd (on user_attr f st)).
Proof.
  intros Hf [Hu Hp]. unfold on. simpl. specialize (Hf _ Hu).
  destruct (f (_user_cache st)) as [r c']. simpl in *. now split.
Qed.

Lemma on_post_ok {A} (f : LRUCache -> result A * LRUCache) (nu np : Z) (st : state) :
  (forall c, cache_ok c /\ max_size c = np ->
             cache_ok (snd (f c)) /\ max_size (snd (f c)) = np) ->
  caches_ok nu np st -> caches_ok nu np (snd (on post_attr f st)).
Proof.
  intros Hf [Hu Hp]. unfold on. simpl. specialize (Hf _ Hp).
  destruct (f (_post_cache st)) as [r c']. simpl in *. now split.
Qed.

(** The two caches, for statements about "either cache". *)
Lemma on_ok {A} (a : cache_attr) (f : LRUCache -> result A * LRUCache)
    (nu np : Z) (st : state) :
  a = user_attr \/ a = post_attr ->
  (forall c n, cache_ok c /\ max_size c = n ->
               cache_ok (snd (f c)) /\ max_size (snd (f c)) = n) ->
  caches_ok nu np st -> caches_ok nu np (snd (on a f st)).
Proof.
  intros [-> | ->] Hf; [apply on_user_ok | apply on_post_ok]; intros; now apply Hf.
Qed.

Lemma probe_ok (a : cache_attr) (ks : list value) (nu np : Z) (st : state) :
  a = user_attr \/ a = post_attr ->
  caches_ok nu np st -> caches_ok nu np (snd (probe a ks st)).
Proof.
  intros Ha. unfold probe. apply mfold_pres. intros acc k s H.
  unfold probe_step. apply mbind_pres; [| intros; assumption | exact H].
  intros s' H'. apply on_ok; [exact Ha | | exact H'].
  intros c n. apply lru_get_ok.
Qed.

Lemma readback_ok (a : cache_attr) (ks : list value) (nu np : Z) (st : state) :
  a = user_attr \/ a = post_attr ->
  caches_ok nu np st -> caches_ok nu np (snd (readback a ks st)).
Proof.
  intros Ha. unfold readback. apply mfold_pres. intros acc k s H.
  unfold readback_step. apply mbind_pres; [| | exact H].
  - intros s' H'. apply on_ok; [exact Ha | | exact H'].
    intros c n. apply lru_get_ok.
  - intros val s' H'. apply mbind_pres; [| intros; assumption | exact H'].
    intros s2 H2.
    destruct val; try exact H2;
      (apply on_ok; [exact Ha | | exact H2]; intros c n; apply lru_set_ok; discriminate).
Qed.

Lemma with_calls_ok (nu np : Z) (st : state) (l : list call) :
  caches_ok nu np st -> caches_ok nu np (with_calls st l).
Proof. intros H. exact H. Qed.

Lemma publish_and_read_ok (set_iter : list value -> list value) (r : refs)
    (fu fp : list (value * model)) (nu np : Z) (st : state) :
  caches_ok nu np st ->
  caches_ok nu np (snd (publish_and_read set_iter r fu fp st)).
Proof.
  intros H. unfold publish_and_read.
  apply mbind_pres; [| | exact H].
  { intros s Hs. unfold publish_users. apply mfold_pres; [|exact Hs].
    intros acc x s' H'. apply on_user_ok; [|exact H'].
    intros c. apply lru_set_ok. discriminate. }
  intros _ s1 H1. apply mbind_pres; [| | exact H1].
  { intros s Hs. unfold publish_posts. apply mfold_pres; [|exact Hs].
    intros acc x s' H'. apply on_post_ok; [|exact H'].
    intros c. apply lru_set_ok. discriminate. }
  intros _ s2 H2. apply mbind_pres; [| | exact H2].
  { intros s Hs. apply readback_ok; [now left | exact Hs]. }
  intros t1 s3 H3. apply mbind_pres; [| intros; assumption | exact H3].
  intros s Hs. apply readback_ok; [now right | exact Hs].
Qed.

Lemma probe_caches_ok (set_iter : list value -> list value) (r : refs)
    (nu np : Z) (st : state) :
  caches_ok nu np st -> caches_ok nu np (snd (probe_caches set_iter r st)).
Proof.
  intros H. unfold probe_caches.
  apply mbind_pres; [| | exact H].
  { intros s Hs. apply probe_ok; [now left | exact Hs]. }
  intros m s1 H1. apply mbind_pres; [| intros; assumption | exact H1].
  intros s Hs. apply probe_ok; [now right | exact Hs].
Qed.

Lemma hydrate_bulk_caches_ok (set_iter : list value -> list value)
    (py_str : value -> string) (records : list value)
    (api_clients : list BlueskyAPI) (rnd : nat) (nu np : Z) (st : state) :
  caches_ok nu np st ->
  caches_ok nu np (snd (hydrate_bulk set_iter py_str records api_clients rnd st)).
Proof.
  intros H. unfold hydrate_bulk.
  apply mbind_pres; [intros; assumption | | exact H].
  intros r s1 H1. apply mbind_pres; [intros; now apply probe_caches_ok | | exact H1].
  intros missing s2 H2. apply mbind_pres; [intros; assumption | | exact H2].
  intros api s3 H3. apply mbind_pres; [| | exact H3].
  { intros s Hs. rewrite fetch_missing_run. simpl. now apply with_calls_ok. }
  intros fetched s4 H4.
  apply mbind_pres; [intros; now apply publish_and_read_ok | intros; assumption | exact H4].
Qed.

(** X7.  Whatever the batch, the pool of clients and the client drawn, and
    whether [hydrate_bulk] returns or raises: when both caches have unique
    keys, are within their capacities and store no [None] before the call,
    they do after it, with the same capacities. *)
Theorem hydrate_bulk_keeps_caches (set_iter : list value -> list value)
    (py_str : value -> string) (records : list value)
    (api_clients : list BlueskyAPI) (rnd : nat) (nu np : Z) (st : state) :
  caches_ok nu np st ->
  caches_ok nu np (snd (hydrate_bulk set_iter py_str records api_clients rnd st)).
Proof. apply hydrate_bulk_caches_ok. Qed.


(** ** The permit, the sink and the log *)

Lemma extends_refl (st : state) : extends st st.
Proof. repeat split. exists []. now rewrite app_nil_r. Qed.

Lemma extends_trans (s1 s2 s3 : state) :
  extends s1 s2 -> extends s2 s3 -> extends s1 s3.
Proof.
  intros (A1 & A2 & l & A3) (B1 & B2 & l' & B3).
  split; [congruence|]. split; [congruence|].
  exists (l ++ l'). rewrite B3, A3. now rewrite app_assoc.
Qed.

Lemma caches_only_extends (st st' : state) : caches_only st st' -> extends st st'.
Proof.
  intros (A1 & A2 & A3). split; [exact A1|]. split; [exact A3|].
  exists []. now rewrite app_nil_r.
Qed.

Lemma hydrate_bulk_extends (set_iter : list value -> list value)
    (py_str : value -> string) (records : list value)
    (api_clients : list BlueskyAPI) (rnd : nat) (st : state) :
  extends st (snd (hydrate_bulk set_iter py_str records api_clients rnd st)).
Proof.
  unfold hydrate_bulk.
  apply (mbind_pres (extends st)); [intros; assumption | | apply extends_refl].
  intros r s1 H1. apply (mbind_pres (extends st)); [| | exact H1].
  { intros s Hs. eapply extends_trans; [exact Hs|].
    apply caches_only_extends, probe_caches_frame. }
  intros missing s2 H2.
  apply (mbind_pres (extends st)); [intros; assumption | | exact H2].
  intros api s3 H3. apply (mbind_pres (extends st)); [| | exact H3].
  { intros s Hs. rewrite fetch_missing_run. simpl.
    eapply extends_trans; [exact Hs|].
    split; [reflexivity|]. split; [reflexivity|]. now eexists. }
  intros fetched s4 H4.
  apply (mbind_pres (extends st)); [| intros; assumption | exact H4].
  intros s Hs. eapply extends_trans; [exact Hs|].
  apply caches_only_extends, publish_and_read_frame.
Qed.

Lemma hydrate_and_release_run (set_iter : list value -> list value)
    (py_str : value -> string) (store_records : list value -> result unit)
    (records : list value) (bluesky_clients : list BlueskyAPI) (rnd : nat)
    (st : state) :
  exists r st1 r' st',
    hydrate_bulk set_iter py_str records bluesky_clients rnd st = (r, st1) /\
    _hydrate_and_release set_iter py_str store_records records bluesky_clients rnd st
      = (r', st') /\
    semaphore st' = (semaphore st + 1)%Z /\
    _user_cache st' = _user_cache st1 /\ _post_cache st' = _post_cache st1 /\
    match r with
    | Raise e => r' = Raise e /\ stored st' = stored st
    | Ok enriched =>
        match store_records enriched with
        | Raise e => r' = Raise e /\ stored st' = stored st
        | Ok _ => r' = Ok tt /\ stored st' = stored st ++ [enriched]
        end
    end.
Proof.
  pose proof (hydrate_bulk_extends set_iter py_str records bluesky_clients rnd st)
    as (Hsem & Hsto & _).
  unfold _hydrate_and_release, mbind.
  destruct (hydrate_bulk set_iter py_str records bluesky_clients rnd st)
    as [[enriched|e] st1]; simpl in *.
  - unfold store. destruct (store_records enriched) as [u|e] eqn:Es.
    + eexists. eexists. eexists. eexists. split; [reflexivity|].
      split; [reflexivity|]. simpl. rewrite Es.
      repeat split; congruence.
    + eexists. eexists. eexists. eexists. split; [reflexivity|].
      split; [reflexivity|]. simpl. rewrite Es.
      repeat split; congruence.
  - eexists. eexists. eexists. eexists. split; [reflexivity|].
    split; [reflexivity|]. simpl. repeat split; congruence.
Qed.

(** X8.  [_hydrate_and_release] in every outcome: the semaphore ends one
    above its value at the start, the permit being given back exactly once;
    the task raises what the hydration raises, or else what the sink raises,
    and the sink keeps the enriched records exactly when neither raises, as
    one more batch; the caches are as the hydration left them. *)
Theorem hydrate_and_release_outcomes (set_iter : list value -> list value)
    (py_str : value -> string) (store_records : list value -> result unit)
    (records : list value) (bluesky_clients : list BlueskyAPI) (rnd : nat)
    (st : state) :
  exists r st1 r' st',
    hydrate_bulk set_iter py_str records bluesky_clients rnd st = (r, st1) /\
    _hydrate_and_release set_iter py_str store_records records bluesky_clients rnd st
      = (r', st') /\
    semaphore st' = (semaphore st + 1)%Z /\
    _user_cache st' = _user_cache st1 /\ _post_cache st' = _post_cache st1 /\
    match r with
    | Raise e => r' = Raise e /\ stored st' = stored st
    | Ok enriched =>
        match store_records enriched with
        | Raise e => r' = Raise e /\ stored st' = stored st
        | Ok _ => r' = Ok tt /\ stored st' = stored st ++ [enriched]
        end
    end.
Proof. apply hydrate_and_release_run. Qed.


(** ** Edge cases of a hydration *)

(** X9.  On the empty batch (sets being iterated over their elements, in
    some order) [hydrate_bulk] sends no request and leaves the caches and
    the rest of the state as they were; it returns the empty list when the
    pool holds a client, and raises [IndexError], from [random.choice], when
    the pool is empty. *)
Theorem hydrate_bulk_empty_batch (set_iter : list value -> list value)
    (py_str : value -> string) (api_clients : list BlueskyAPI) (rnd : nat)
    (st : state) :
  (forall l, Permutation (set_iter l) l) ->
  hydrate_bulk set_iter py_str [] api_clients rnd st =
  (match api_clients with [] => Raise IndexError | _ => Ok [] end, st).
Proof.
  intros Hperm.
  assert (E : set_iter [] = []).
  { apply Permutation_nil. apply Permutation_sym, Hperm. }
  unfold hydrate_bulk, mbind, lift, probe_caches, mbind. simpl. rewrite E. simpl.
  destruct api_clients as [|a l]; [reflexivity|].
  unfold random_choice, fetch_missing, mbind. simpl.
  unfold publish_and_read, mbind. simpl. rewrite E. simpl.
  destruct st. reflexivity.
Qed.

(** X10.  With an empty pool of clients, on every batch on which phase 1
    completes (the caches having unique keys within their capacities, and
    sets being iterated over their elements, in some order), [hydrate_bulk]
    raises [IndexError] from [random.choice], after the probe of the caches:
    no request is sent, nothing reaches the sink, the semaphore is
    untouched, and each cache holds the entries it held, possibly in another
    order. *)
Theorem hydrate_bulk_empty_pool (set_iter : list value -> list value)
    (py_str : value -> string) (records : list value) (rnd : nat)
    (st : state) (r : refs) :
  (forall l, Permutation (set_iter l) l) ->
  lru_wf (_user_cache st) -> lru_wf (_post_cache st) ->
  collect_refs records = Ok r ->
  exists st',
    hydrate_bulk set_iter py_str records [] rnd st = (Raise IndexError, st') /\
    same_entries (_user_cache st) (_user_cache st') /\
    same_entries (_post_cache st) (_post_cache st') /\
    calls st' = calls st /\ stored st' = stored st /\
    semaphore st' = semaphore st.
Proof.
  intros Hperm Hu Hp Hr.
  destruct (refs_iter_hashable set_iter records r Hperm Hr) as [Hhu Hhp].
  destruct (probe_caches_run set_iter r st Hhu Hhp Hu Hp)
    as (cu & cp & Bu & Bp & Hprobe & Hse1 & Hse2 & _).
  eexists. split.
  { unfold hydrate_bulk, mbind, lift. rewrite Hr, Hprobe. reflexivity. }
  simpl. repeat split; try apply Hse1; try apply Hse2.
Qed.

Lemma enumerate_in {A} (l : list A) (x : A) :
  In x l -> exists i, In (i, x) (enumerate l).
Proof.
  unfold enumerate. generalize 0.
  induction l as [|y l IH]; intros s H; simpl in *; [contradiction|].
  destruct H as [->|H].
  - exists s. now left.
  - destruct (IH (S s) H) as (i & Hi). exists i. now right.
Qed.

(** X11.  A batch that holds a record which is not a dictionary (a number, a
    string, a list or [None]) makes phase 1 raise, and [hydrate_bulk] raises
    the same exception with the state untouched: no cache is probed and no
    request is sent, also for the other records of the batch. *)
Theorem hydrate_bulk_bad_record (set_iter : list value -> list value)
    (py_str : value -> string) (records : list value)
    (api_clients : list BlueskyAPI) (rnd : nat) (st : state) (rec : value) :
  In rec records -> is_dict rec = false ->
  exists e,
    collect_refs records = Raise e /\
    hydrate_bulk set_iter py_str records api_clients rnd st = (Raise e, st).
Proof.
  intros Hin Hnd.
  destruct (collect_refs records) as [r|e] eqn:Hr.
  - exfalso. unfold collect_refs in Hr. inv_rbind Hr.
    pose proof (foldM_steps _ _ _ _ E) as Hsteps.
    destruct (enumerate_in records rec Hin) as (i & Hi).
    rewrite Forall_forall in Hsteps. destruct (Hsteps _ Hi) as (b & b' & Hb).
    unfold collect_record in Hb. simpl in Hb.
    destruct rec; simpl in *; discriminate.
  - exists e. split; [reflexivity|].
    unfold hydrate_bulk, mbind, lift. now rewrite Hr.
Qed.

(** ** The dictionaries of a bulk call have unique keys *)

Lemma keys_setitem_in {V} (k k' : value) (v : V) (d : list (value * V)) :
  In k' (keys (setitem k v d)) <-> k' = k \/ In k' (keys d).
Proof.
  induction d as [|[k0 v0] d IH]; simpl.
  - intuition congruence.
  - destruct (value_eq_dec k k0) as [->|Hne]; simpl.
    + intuition congruence.
    + rewrite IH. intuition congruence.
Qed.

Lemma NoDup_keys_setitem {V} (k : value) (v : V) (d : list (value * V)) :
  NoDup (keys d) -> NoDup (keys (setitem k v d)).
Proof.
  induction d as [|[k0 v0] d IH]; simpl; intros Hnd.
  - repeat constructor. intros [].
  - inversion Hnd as [|? ? Hn Hd]; subst.
    destruct (value_eq_dec k k0) as [->|Hne]; simpl.
    + now constructor.
    + constructor; [|now apply IH].
      intros Hin. apply keys_setitem_in in Hin.
      destruct Hin as [E|Hin]; [congruence | contradiction].
Qed.

Lemma NoDup_keys_update {V} (e d : list (value * V)) :
  NoDup (keys d) -> NoDup (keys (update d e)).
Proof.
  unfold update. revert d.
  induction e as [|[k v] e IH]; intros d Hd; simpl; [exact Hd|].
  apply IH. now apply NoDup_keys_setitem.
Qed.

Lemma NoDup_keys_merged {V} (chunks : list (list (value * V))) :
  forall acc, NoDup (keys acc) -> NoDup (keys (fold_left update chunks acc)).
Proof.
  induction chunks as [|c chunks IH]; intros acc Ha; simpl; [exact Ha|].
  apply IH. now apply NoDup_keys_update.
Qed.

Lemma users_result_NoDup (api : BlueskyAPI) (mds : list value)
    (fu : list (value * model)) :
  users_result api mds = Ok fu -> NoDup (keys fu).
Proof.
  unfold users_result. destruct mds.
  - intros [= <-]. constructor.
  - intros H. inv_rbind H. injection H as <-.
    apply NoDup_keys_merged. constructor.
Qed.

Lemma posts_result_NoDup (api : BlueskyAPI) (mus : list value)
    (fp : list (value * model)) :
  posts_result api mus = Ok fp -> NoDup (keys fp).
Proof.
  unfold posts_result. destruct mus.
  - intros [= <-]. constructor.
  - intros H. inv_rbind H. injection H as <-.
    apply NoDup_keys_merged. constructor.
Qed.

Lemma NoDup_map_inj {A B} (f : A -> B) (l : list A) (x y : A) :
  NoDup (map f l) -> In x l -> In y l -> f x = f y -> x = y.
Proof.
  induction l as [|a l IH]; simpl; intros Hnd Hx Hy E; [contradiction|].
  inversion Hnd as [|? ? Hn Hl]; subst.
  destruct Hx as [->|Hx], Hy as [->|Hy].
  - reflexivity.
  - exfalso. apply Hn. rewrite E. now apply in_map.
  - exfalso. apply Hn. rewrite <- E. now apply in_map.
  - now apply IH.
Qed.

(** ** What phase 4 leaves in a cache *)

(** One cache through the writes of phase 4, when it can hold every key of
    [K], the keys written are distinct keys of [K] that it did not hold, and
    its hits are among the recent entries: every written key holds its new
    value, every other key of [K] what it held. *)
Lemma publish_semantics {X} (a : cache_attr) (K : list value) (kf vf : X -> value)
    (xs : list X) (s : state) (B : list (value * value)) :
  attr_ok a -> Forall (fun k => hashable k = true) K ->
  NoDup K -> recent K (getc a s) B ->
  (Z.of_nat (length K) <= max_size (getc a s))%Z ->
  Forall (fun x => In (kf x) K) xs ->
  NoDup (map kf xs) ->
  (forall x, In x xs -> ~ In (kf x) (keys (cache (getc a s)))) ->
  (forall k, In k K -> In k (keys (cache (getc a s))) -> In k (keys B)) ->
  exists c',
    mfold (fun _ x => on a (lru_set (kf x) (vf x))) xs tt s = (Ok tt, setc a c' s) /\
    lru_wf c' /\ max_size c' = max_size (getc a s) /\
    (forall x, In x xs -> assoc (kf x) (cache c') = Some (vf x)) /\
    (forall d, In d K -> (forall x, In x xs -> kf x <> d) ->
       assoc d (cache c') = assoc d (cache (getc a s))).
Proof.
  intros Ha HhK HK HR Hcap Hxs Hinj Hnew Hhit.
  destruct (publish_loop a K kf vf xs Ha HhK HK Hxs s B HR Hcap)
    as (c' & B' & Hrun & Hmax & HR' & Hi & Hall & Hfrom).
  exists c'. split; [exact Hrun|].
  pose proof (recent_incl_cache _ _ _ HR') as Hinc.
  destruct HR' as (Hwf' & _). destruct HR as (Hwf & _).
  split; [exact Hwf'|]. split; [exact Hmax|]. split.
  - intros x Hx. rewrite Forall_forall in Hall.
    destruct (in_keys_assoc _ _ (Hinc _ (Hall x Hx))) as (v & Hv).
    rewrite Hv. f_equal.
    destruct (Hfrom _ (assoc_pair _ _ _ Hv)) as [Hold|(x' & Hx' & E)].
    + exfalso. apply (Hnew x Hx).
      change (kf x) with (fst (kf x, v)). apply in_map. exact Hold.
    + injection E as Ek Ev. subst v. f_equal.
      symmetry. eapply NoDup_map_inj; eassumption.
  - intros d Hd Hno.
    destruct (assoc d (cache c')) as [v|] eqn:Hv.
    + destruct (Hfrom _ (assoc_pair _ _ _ Hv)) as [Hold|(x' & Hx' & E)].
      * symmetry. apply assoc_In; [apply Hwf | exact Hold].
      * injection E as Ek Ev. exfalso. apply (Hno x' Hx'). congruence.
    + symmetry. apply assoc_None. intros Hin.
      apply assoc_None in Hv. apply Hv. apply Hinc, Hi. now apply Hhit.
Qed.

Lemma lookup_same (c c' : LRUCache) (d : value) :
  assoc d (cache c') = assoc d (cache c) -> lookup d c' = lookup d c.
Proof. unfold lookup. now intros ->. Qed.

Lemma missing_not_cached (c c1 : LRUCache) (ks : list value) (k : value) :
  no_none c -> same_entries c c1 ->
  In k (missing_from c ks) -> ~ In k (keys (cache c1)).
Proof.
  intros Hn Hse Hk Hin. unfold missing_from in Hk. apply filter_In in Hk.
  destruct Hk as [_ Hk]. apply (lookup_none_iff k c Hn) in Hk.
  apply Hk. now apply (same_entries_keys _ _ k Hse).
Qed.

(** A completed hydration, cache by cache: what was fetched, and what each
    referenced key holds afterwards. *)
Lemma hydrate_bulk_caches (set_iter : list value -> list value)
    (py_str : value -> string) (records : list value)
    (api_clients : list BlueskyAPI) (rnd : nat) (nu np : Z) (st st' : state)
    (out : list value) (r : refs) (api : BlueskyAPI) :
  (forall l, Permutation (set_iter l) l) ->
  caches_ok nu np st ->
  collect_refs records = Ok r ->
  random_choice rnd api_clients = Ok api ->
  hydrate_bulk set_iter py_str records api_clients rnd st = (Ok out, st') ->
  exists fu fp tables,
    users_result api (missing_from (_user_cache st) (set_iter (all_dids r))) = Ok fu /\
    posts_result api (missing_from (_post_cache st) (set_iter (all_uris r))) = Ok fp /\
    assemble set_iter py_str r (fst tables) (snd tables) records = Ok out /\
    fst tables =
      fold_left (fun t k => setitem k (lookup k (_user_cache st')) t)
                (set_iter (all_dids r)) [] /\
    snd tables =
      fold_left (fun t k => setitem k (lookup k (_post_cache st')) t)
                (set_iter (all_uris r)) [] /\
    (answers_within (get_profiles api) ->
     (Z.of_nat (length (all_dids r)) <= nu)%Z ->
     forall d, In d (all_dids r) ->
       lookup d (_user_cache st') = hydrated fu (_user_cache st) d) /\
    (answers_within (get_posts api) ->
     (Z.of_nat (length (all_uris r)) <= np)%Z ->
     forall u, In u (all_uris r) ->
       lookup u (_post_cache st') = hydrated fp (_post_cache st) u).
Proof.
  intros Hperm [[[Hu Hnu] Mu] [[Hp Hnp] Mp]] Hr Hc H.
  destruct (hydrate_bulk_inv _ _ _ _ _ _ _ _ H)
    as (r' & mds & mus & st1 & api' & fu & fp & tables
        & Hr' & Hprobe & Hc' & Hfu & Hfp & Hpr & Hasm).
  rewrite Hr in Hr'. injection Hr' as <-.
  rewrite Hc in Hc'. injection Hc' as <-.
  destruct (refs_iter_hashable set_iter records r Hperm Hr) as [Hku0 Hkp0].
  destruct (probe_caches_run set_iter r st Hku0 Hkp0 Hu Hp)
    as (cu & cp & Bu & Bp & Hprobe' & Hse1 & Hse2 & HRu & HRp & Hhu & Hhp).
  rewrite Hprobe in Hprobe'. injection Hprobe' as Emds Emus ->.
  pose proof (same_entries_wf _ _ Hse1 Hu) as Hwu.
  pose proof (same_entries_wf _ _ Hse2 Hp) as Hwp.
  apply publish_and_read_inv in Hpr; [|exact Hwu|exact Hwp].
  destruct Hpr as (cu2 & cp2 & cu' & cp' & Hpu & Hpp & Hwu2 & Hwp2 & Hse3 & Hse4
                   & -> & Ht1 & Ht2).
  destruct (collect_refs_ok records r Hr) as ((Hd & Hur & _) & _).
  assert (Hnd : forall l, NoDup l -> NoDup (set_iter l)).
  { intros l Hl. eapply Permutation_NoDup; [apply Permutation_sym, Hperm | exact Hl]. }
  assert (Hin : forall l x, In x l -> In x (set_iter l)).
  { intros l x Hx. eapply Permutation_in; [apply Permutation_sym, Hperm | exact Hx]. }
  assert (Hlen : forall l, length (set_iter l) = length l).
  { intros l. apply Permutation_length, Hperm. }
  subst mds mus.
  exists fu, fp, tables. split; [exact Hfu|]. split; [exact Hfp|].
  split; [exact Hasm|]. simpl.
  split.
  { rewrite Ht1. apply fold_setitem_ext. intros x. symmetry.
    apply same_entries_lookup; [exact Hse3 | apply Hwu2]. }
  split.
  { rewrite Ht2. apply fold_setitem_ext. intros x. symmetry.
    apply same_entries_lookup; [exact Hse4 | apply Hwp2]. }
  split.
  - intros Hau Hcap d Hdin.
    pose proof (bulk_result_keys (get_profiles api) _ fu Hau Hfu) as Hku.
    pose proof (users_result_NoDup _ _ _ Hfu) as Hndf.
    assert (Hkf : map (fun kp : value * model => VStr (ident (snd kp))) fu = keys fu).
    { apply map_ext_in. intros [k p] Hkp. simpl. symmetry. apply (Hku k p Hkp). }
    destruct (publish_semantics user_attr (set_iter (all_dids r))
                (fun kp : value * model => VStr (ident (snd kp)))
                (fun kp => VDict (model_dump (snd kp))) fu
                (with_calls (mkState cu cp (semaphore st) (calls st) (stored st))
                   (batch_calls (missing_from (_user_cache st) (set_iter (all_dids r)))
                                (missing_from (_post_cache st) (set_iter (all_uris r)))))
                Bu user_attr_ok Hku0 (Hnd _ (proj1 Hd)) HRu)
      as (c2 & Hrun & _ & _ & Hnew & Hold).
    { simpl. rewrite Hlen. destruct Hse1 as [-> _]. rewrite Mu. exact Hcap. }
    { apply Forall_forall. intros [k p] Hkp. simpl.
      destruct (Hku k p Hkp) as [<- Hk]. unfold missing_from in Hk.
      apply filter_In in Hk. apply Hk. }
    { rewrite Hkf. exact Hndf. }
    { intros [k p] Hkp. simpl. destruct (Hku k p Hkp) as [<- Hk].
      exact (missing_not_cached _ _ _ _ Hnu Hse1 Hk). }
    { simpl. intros k Hk Hc1. apply Hhu; [exact Hk|].
      now apply (same_entries_keys _ _ k Hse1). }
    unfold publish_users in Hpu. rewrite Hpu in Hrun. injection Hrun as E.
    subst c2.
    rewrite (same_entries_lookup _ _ d Hse3 (proj1 Hwu2)).
    unfold hydrated. destruct (assoc d fu) as [p|] eqn:Ea.
    + apply assoc_pair in Ea. pose proof (Hnew _ Ea) as Hv. simpl in Hv.
      destruct (Hku d p Ea) as [Ed _]. rewrite <- Ed in Hv.
      unfold lookup. now rewrite Hv.
    + rewrite <- (same_entries_lookup _ _ d Hse1 (proj1 Hu)).
      apply lookup_same. simpl in Hold. apply Hold; [now apply Hin|].
      intros [k p] Hkp E. simpl in E. destruct (Hku k p Hkp) as [Ek _].
      apply assoc_None in Ea. apply Ea.
      change d with (fst (d, p)). apply in_map. congruence.
  - intros Hap Hcap u Huin.
    pose proof (bulk_result_keys (get_posts api) _ fp Hap Hfp) as Hkp'.
    pose proof (posts_result_NoDup _ _ _ Hfp) as Hndf.
    destruct (publish_semantics post_attr (set_iter (all_uris r))
                (fun kp : value * model => fst kp)
                (fun kp => VDict (model_dump (snd kp))) fp
                (setc user_attr cu2
                   (with_calls (mkState cu cp (semaphore st) (calls st) (stored st))
                      (batch_calls (missing_from (_user_cache st) (set_iter (all_dids r)))
                                   (missing_from (_post_cache st) (set_iter (all_uris r))))))
                Bp post_attr_ok Hkp0 (Hnd _ (proj1 Hur)) HRp)
      as (c2 & Hrun & _ & _ & Hnew & Hold).
    { simpl. rewrite Hlen. destruct Hse2 as [-> _]. rewrite Mp. exact Hcap. }
    { apply Forall_forall. intros [k p] Hkp. simpl.
      destruct (Hkp' k p Hkp) as [_ Hk]. unfold missing_from in Hk.
      apply filter_In in Hk. apply Hk. }
    { exact Hndf. }
    { intros [k p] Hkp. simpl. destruct (Hkp' k p Hkp) as [_ Hk].
      exact (missing_not_cached _ _ _ _ Hnp Hse2 Hk). }
    { simpl. intros k Hk Hc1. apply Hhp; [exact Hk|].
      now apply (same_entries_keys _ _ k Hse2). }
    unfold publish_posts in Hpp. rewrite Hpp in Hrun. injection Hrun as E.
    subst c2.
    rewrite (same_entries_lookup _ _ u Hse4 (proj1 Hwp2)).
    unfold hydrated. destruct (assoc u fp) as [p|] eqn:Ea.
    + apply assoc_pair in Ea. pose proof (Hnew _ Ea) as Hv. simpl in Hv.
      unfold lookup. now rewrite Hv.
    + rewrite <- (same_entries_lookup _ _ u Hse2 (proj1 Hp)).
      apply lookup_same. simpl in Hold. apply Hold; [now apply Hin|].
      intros [k p] Hkp E. simpl in E.
      apply assoc_None in Ea. apply Ea.
      change u with (fst (u, p)). apply in_map. congruence.
Qed.

Lemma collect_refs_emits (records : list value) (r : refs) :
  collect_refs records = Ok r -> Forall (fun rec => emitted rec r) records.
Proof.
  intros H. unfold collect_refs, enumerate in H. inv_rbind H. injection H as <-.
  pose proof (collect_loop_emits records 0 refs_init a refs_ok_init eq_refl E) as Hem.
  destruct (collect_loop records 0 refs_init a refs_ok_init eq_refl E)
    as ((_ & _ & Hg & _) & _).
  destruct (set_update_ok (mention_dids_global a) (all_dids a) (proj2 Hg))
    as (_ & I1 & I2 & _).
  eapply Forall_impl; [|exact Hem]. intros rec He. unfold emitted. simpl.
  eapply emitted_in_mono; [exact I1 | apply incl_refl | exact I2 | exact He].
Qed.

Lemma collect_record_embed (r r' : refs) (i : nat) (rec : value) :
  collect_record r (i, rec) = Ok r' ->
  record_embed_map r' =
  match quoted rec with
  | Some u => setitem (idx_key i) u (record_embed_map r)
  | None => record_embed_map r
  end.
Proof.
  intros H. unfold collect_record in H. simpl in H. inv_rbind H.
  injection H as <-. simpl.
  clear E0 E6 E7 E8 E9 E10 E11 E12 E13 E14 E15.
  apply py_get_Ok in E, E1, E2, E3, E4.
  destruct E as [-> _], E1 as [-> _], E2 as [-> _], E3 as [-> _], E4 as [-> _].
  unfold quoted, is_quote, quote_uri, node_embed, node_record, node_commit.
  destruct (eq_str _ _) eqn:Q in E5.
  - rewrite Q. inv_rbind E5.
    apply py_get_Ok in E, E0. destruct E as [-> _], E0 as [-> _].
    destruct (truthy _) eqn:T in E5.
    + rewrite T. inv_rbind E5. injection E5 as <-. reflexivity.
    + rewrite T. injection E5 as <-. reflexivity.
  - rewrite Q. injection E5 as <-. reflexivity.
Qed.

Lemma collect_loop_embed (l : list value) :
  forall (s : nat) (r0 r : refs),
    (forall j, s <= j -> assoc (idx_key j) (record_embed_map r0) = None) ->
    foldM collect_record (combine (seq s (length l)) l) r0 = Ok r ->
    (forall j, j < s ->
       assoc (idx_key j) (record_embed_map r) =
       assoc (idx_key j) (record_embed_map r0)) /\
    (forall i rec, nth_error l i = Some rec ->
       assoc (idx_key (s + i)) (record_embed_map r) = quoted rec).
Proof.
  induction l as [|rec l IH]; intros s r0 r Hfresh H; simpl in H.
  - injection H as <-. split; [reflexivity|]. intros [|i] rec' E; discriminate.
  - inv_rbind H. pose proof (collect_record_embed _ _ _ _ E) as Hemb.
    assert (Hstep : forall j, j <> s ->
              assoc (idx_key j) (record_embed_map a) =
              assoc (idx_key j) (record_embed_map r0)).
    { intros j Hj. rewrite Hemb. destruct (quoted rec); [|reflexivity].
      rewrite assoc_setitem. destruct (value_eq_dec _ _) as [Ek|]; [|reflexivity].
      apply idx_key_inj in Ek. contradiction. }
    destruct (IH (S s) a r) as [Hold Hnew]; [|exact H|].
    { intros j Hj. rewrite Hstep by lia. apply Hfresh. lia. }
    split.
    + intros j Hj. rewrite Hold by lia. apply Hstep. lia.
    + intros [|i] rec' Hnth; simpl in Hnth.
      * injection Hnth as <-. rewrite Nat.add_0_r, Hold by lia.
        rewrite Hemb. destruct (quoted rec).
        -- rewrite assoc_setitem. destruct (value_eq_dec _ _); congruence.
        -- apply Hfresh. lia.
      * rewrite Nat.add_succ_r. now apply (Hnew i rec').
Qed.

(** The quote entry of every record after phase 1. *)
Lemma collect_refs_embed (records : list value) (r : refs) :
  collect_refs records = Ok r ->
  forall i rec, nth_error records i = Some rec ->
    assoc (idx_key i) (record_embed_map r) = quoted rec.
Proof.
  intros H i rec Hnth. unfold collect_refs, enumerate in H. inv_rbind H.
  injection H as <-. simpl.
  destruct (collect_loop_embed records 0 refs_init a) as [_ Hnew];
    [reflexivity | exact E |].
  apply (Hnew i rec Hnth).
Qed.

(** What a completed phase-5 iteration looked up for the four hydrated
    objects. *)
Lemma enrich_lookups (set_iter : list value -> list value) (py_str : value -> string)
    (r : refs) (t1 t2 : list (value * value)) (i : nat) (rec o : value) :
  enrich set_iter py_str r t1 t2 (i, rec) = Ok o ->
  exists user_profile mention_dict parent_post root_post quote_post,
    py_get o "hydrated_metadata" VNone =
      Ok (VDict [ (VStr "user", user_profile);
                  (VStr "mentions", VDict mention_dict);
                  (VStr "parent_post", parent_post);
                  (VStr "reply_post", root_post);
                  (VStr "quote_post", quote_post) ]) /\
    dict_get t1 (getd rec "did" (VStr "")) = Ok user_profile /\
    (exists rec_dids,
       assoc (idx_key i) (record_mentions_map r) = Some rec_dids /\
       mention_dict =
         fold_left (fun t m => setitem m (tbl_get t1 m) t) (set_iter rec_dids) []) /\
    get_if_truthy t2 (parent_uri rec) = Ok parent_post /\
    get_if_truthy t2 (root_uri rec) = Ok root_post /\
    get_if_truthy t2 (match assoc (idx_key i) (record_embed_map r) with
                      | Some u => u
                      | None => VNone
                      end) = Ok quote_post.
Proof.
  intros H. unfold enrich in H. simpl in H. inv_rbind H. injection H as <-.
  apply py_get_Ok in E, E0, E1, E8, E9, E10, E12, E13.
  destruct E as [-> _], E0 as [-> _], E1 as [-> _], E8 as [-> _], E9 as [-> _],
           E10 as [-> _], E12 as [-> _], E13 as [-> _].
  do 5 eexists. split; [reflexivity|].
  split; [exact E5|].
  split.
  { exists a6. split.
    - unfold getitem in E6. unfold idx_key.
      destruct (assoc _ _); [now injection E6 as -> | discriminate].
    - now apply mention_fold_inv. }
  split; [exact E11|]. split; [exact E14|]. exact E15.
Qed.

(** ** Phase 1 collects truthy keys only *)

Lemma set_add_truthy (x : value) (s s' : list value) :
  truthy x = true -> all_truthy s -> set_add x s = Ok s' -> all_truthy s'.
Proof.
  intros Hx Hs H. apply set_add_ok in H. destruct H as (_ & _ & _ & _ & Hy).
  unfold all_truthy in *. rewrite Forall_forall in *. intros y Hin.
  destruct (Hy y Hin) as [Hold| ->]; [now apply Hs | exact Hx].
Qed.

Lemma add_if_truthy_truthy (x : value) (s s' : list value) :
  all_truthy s -> add_if_truthy x s = Ok s' -> all_truthy s'.
Proof.
  intros Hs H. apply add_if_truthy_ok in H. destruct H as (_ & _ & _ & Hy).
  unfold all_truthy in *. rewrite Forall_forall in *. intros y Hin.
  destruct (Hy y Hin) as [Hold|[-> Hx]]; [now apply Hs | exact Hx].
Qed.

Lemma collect_feature_truthy (acc acc' : list value * list value) (feature : value) :
  all_truthy (fst acc) /\ all_truthy (snd acc) ->
  collect_feature acc feature = Ok acc' ->
  all_truthy (fst acc') /\ all_truthy (snd acc').
Proof.
  intros [H1 H2] H. unfold collect_feature in H. inv_rbind H.
  destruct (eq_str a _); [|injection H as <-; now split].
  inv_rbind H.
  destruct (truthy a0) eqn:T; [|injection H as <-; now split].
  inv_rbind H. injection H as <-. simpl.
  split; (eapply set_add_truthy; [exact T | | eassumption]; assumption).
Qed.

Lemma collect_facet_truthy (acc acc' : list value * list value) (facet : value) :
  all_truthy (fst acc) /\ all_truthy (snd acc) ->
  collect_facet acc facet = Ok acc' ->
  all_truthy (fst acc') /\ all_truthy (snd acc').
Proof.
  intros Hm H. unfold collect_facet in H. inv_rbind H.
  eapply (foldM_inv (fun acc => all_truthy (fst acc) /\ all_truthy (snd acc)));
    [|exact Hm|exact H].
  intros; eapply collect_feature_truthy; eassumption.
Qed.

Lemma collect_record_truthy (r r' : refs) (i : nat) (rec : value) :
  refs_truthy r -> collect_record r (i, rec) = Ok r' -> refs_truthy r'.
Proof.
  intros (Hd & Hu & Hg) H. unfold collect_record in H. simpl in H.
  inv_rbind H. injection H as <-. unfold refs_truthy. simpl.
  assert (Hq : all_truthy (fst a5)).
  { destruct (eq_str a4 _); [|injection E5 as <-; exact Hu].
    inv_rbind E5. destruct (truthy a17) eqn:T; [|injection E5 as <-; exact Hu].
    inv_rbind E5. injection E5 as <-. simpl.
    eapply set_add_truthy; [exact T | | eassumption]; assumption. }
  assert (Hm : all_truthy (fst a8) /\ all_truthy (snd a8)).
  { eapply (foldM_inv (fun acc => all_truthy (fst acc) /\ all_truthy (snd acc)));
      [| |exact E8].
    - intros; eapply collect_facet_truthy; eassumption.
    - split; [constructor | exact Hg]. }
  split; [exact (add_if_truthy_truthy _ _ _ Hd E0)|].
  split; [|apply Hm].
  eapply add_if_truthy_truthy; [|exact E15].
  exact (add_if_truthy_truthy _ _ _ Hq E12).
Qed.

Lemma collect_refs_truthy (records : list value) (r : refs) :
  collect_refs records = Ok r -> refs_truthy r.
Proof.
  intros H. unfold collect_refs in H. inv_rbind H. injection H as <-.
  assert (Ha : refs_truthy a).
  { eapply (foldM_inv refs_truthy); [| |exact E].
    - intros r0 [i rec] r1 H0 _ H1. eapply collect_record_truthy; eassumption.
    - repeat split; constructor. }
  destruct (collect_loop records 0 refs_init a refs_ok_init eq_refl E)
    as ((_ & _ & Hg & _) & _).
  destruct Ha as (Hd & Hu & Hm). unfold refs_truthy. simpl.
  split; [|split; assumption].
  destruct (set_update_ok (mention_dids_global a) (all_dids a) (proj2 Hg))
    as (_ & _ & _ & Hy).
  unfold all_truthy in *. rewrite Forall_forall in *. intros y Hin.
  destruct (Hy y Hin); auto.
Qed.

(** ** The hydrated fields *)

Lemma table_get (f : value -> value) (ks : list value) (d : value) :
  tbl_get (fold_left (fun t k => setitem k (f k) t) ks []) d =
  if in_dec value_eq_dec d ks then f d else VNone.
Proof.
  unfold tbl_get. rewrite assoc_fold_setitem.
  destruct (in_dec value_eq_dec d ks); reflexivity.
Qed.

Lemma dict_get_Ok (t : list (value * value)) (d v : value) :
  dict_get t d = Ok v -> v = tbl_get t d.
Proof.
  unfold dict_get, tbl_get. destruct (hashable d); [|discriminate].
  now intros [= <-].
Qed.

Lemma get_if_truthy_Ok (t : list (value * value)) (u v : value) :
  get_if_truthy t u = Ok v -> v = if truthy u then tbl_get t u else VNone.
Proof.
  unfold get_if_truthy. destruct (truthy u).
  - apply dict_get_Ok.
  - now intros [= <-].
Qed.

Lemma getd_truthy (rec : value) (k : string) (d1 d2 : value) :
  truthy d1 = false -> truthy (getd rec k d1) = true ->
  getd rec k d2 = getd rec k d1.
Proof.
  intros Hd. unfold getd. destruct rec; try congruence.
  destruct (assoc _ _); congruence.
Qed.




(** ** The shape of the chunks *)

Lemma range_as_seq (step : nat) :
  1 <= step ->
  forall fuel start stop,
    stop - start <= fuel ->
    range start stop step fuel =
    map (fun j => start + j * step) (seq 0 (ceil_div (stop - start) step)).
Proof.
  intros Hs. induction fuel as [|fuel IH]; intros start stop Hf; simpl.
  - replace (stop - start) with 0 by lia. now rewrite ceil_div_0.
  - destruct (Nat.ltb_spec start stop) as [Hlt|Hge].
    + rewrite (ceil_div_step (stop - start) step) by lia. simpl.
      rewrite Nat.add_0_r. f_equal.
      rewrite IH by lia. rewrite <- seq_shift, map_map.
      replace (stop - (start + step)) with (stop - start - step) by lia.
      apply map_ext. intros j. simpl. symmetry. apply Nat.add_assoc.
    + replace (stop - start) with 0 by lia. now rewrite ceil_div_0.
Qed.

Lemma ceil_div_bound (n k j : nat) :
  1 <= k -> (j < ceil_div n k <-> j * k < n).
Proof.
  intros Hk. unfold ceil_div. split.
  - intros H. destruct (Nat.lt_ge_cases (j * k) n) as [|Hge]; [assumption|].
    exfalso. assert (Hd : (n + k - 1) / k < S j); [|lia].
    apply Nat.Div0.div_lt_upper_bound. nia.
  - intros H. assert (Hd : S j <= (n + k - 1) / k); [|lia].
    apply Nat.div_le_lower_bound; nia.
Qed.

Lemma chunks_shape (items : list value) (chunk_size : nat) :
  1 <= chunk_size ->
  chunks_of items chunk_size =
    map (fun j => firstn chunk_size (skipn (j * chunk_size) items))
        (seq 0 (ceil_div (length items) chunk_size)) /\
  Forall (fun sub => 1 <= length sub <= chunk_size) (chunks_of items chunk_size) /\
  (forall j, S j < ceil_div (length items) chunk_size ->
     length (nth j (chunks_of items chunk_size) []) = chunk_size) /\
  concat (chunks_of items chunk_size) = items.
Proof.
  intros Hk.
  assert (E : chunks_of items chunk_size =
              map (fun j => firstn chunk_size (skipn (j * chunk_size) items))
                  (seq 0 (ceil_div (length items) chunk_size))).
  { unfold chunks_of. rewrite (range_as_seq chunk_size Hk) by lia.
    rewrite map_map, Nat.sub_0_r. apply map_ext. intros j. unfold slice. simpl.
    f_equal. lia. }
  split; [exact E|]. split; [|split].
  - rewrite E. apply Forall_forall. intros sub Hsub.
    apply in_map_iff in Hsub. destruct Hsub as (j & <- & Hj).
    apply in_seq in Hj. rewrite length_firstn, length_skipn.
    assert (j * chunk_size < length items) by (apply ceil_div_bound; lia).
    lia.
  - intros j Hj. rewrite E.
    rewrite (nth_indep _ [] (firstn chunk_size (skipn (0 * chunk_size) items)))
      by (rewrite length_map, length_seq; lia).
    rewrite (map_nth (fun j => firstn chunk_size (skipn (j * chunk_size) items))).
    rewrite seq_nth by lia. simpl.
    rewrite length_firstn, length_skipn.
    assert (S j * chunk_size < length items) by (apply ceil_div_bound; lia).
    simpl in *. lia.
  - now apply chunks_of_concat.
Qed.

(** X14.  For a chunk size of at least 1, the chunks that [_chunked_map]
    cuts are the slices [items[j * chunk_size : (j + 1) * chunk_size]] for
    [j] below [ceil(len(items) / chunk_size)]: none is empty, none is longer
    than [chunk_size], all but the last have exactly [chunk_size] elements,
    and concatenated in order they are the items. *)
Theorem chunks_of_shape (items : list value) (chunk_size : nat) :
  1 <= chunk_size ->
  chunks_of items chunk_size =
    map (fun j => firstn chunk_size (skipn (j * chunk_size) items))
        (seq 0 (ceil_div (length items) chunk_size)) /\
  Forall (fun sub => 1 <= length sub <= chunk_size) (chunks_of items chunk_size) /\
  (forall j, S j < ceil_div (length items) chunk_size ->
     length (nth j (chunks_of items chunk_size) []) = chunk_size) /\
  concat (chunks_of items chunk_size) = items.
Proof. apply chunks_shape. Qed.

(** ** The requests of a hydration *)

(** X15.  On every batch on which phase 1 completes, with a client drawn
    from the pool and caches with unique keys within their capacities, the
    requests that a hydration sends, whether it returns or raises, are
    appended to those sent before; none is empty, and every key sent is
    truthy, hashable, referenced by the batch (a DID in a profile request, a
    URI in a post request) and was not cached when the hydration started
    (the cache returned [None] for it). *)
Theorem hydrate_bulk_requests (set_iter : list value -> list value)
    (py_str : value -> string) (records : list value)
    (api_clients : list BlueskyAPI) (rnd : nat) (st : state)
    (r : refs) (api : BlueskyAPI) :
  (forall l, Permutation (set_iter l) l) ->
  lru_wf (_user_cache st) -> lru_wf (_post_cache st) ->
  collect_refs records = Ok r ->
  random_choice rnd api_clients = Ok api ->
  exists new_calls,
    calls (snd (hydrate_bulk set_iter py_str records api_clients rnd st)) =
      calls st ++ new_calls /\
    forall c, In c new_calls ->
      call_keys c <> [] /\
      forall k, In k (call_keys c) ->
        truthy k = true /\ hashable k = true /\
        (if is_profile_call c
         then In k (all_dids r) /\ lookup k (_user_cache st) = VNone
         else In k (all_uris r) /\ lookup k (_post_cache st) = VNone).
Proof.
  intros Hperm Hu Hp Hr Hc.
  eexists. split; [eapply hydrate_bulk_calls; eassumption|].
  destruct (collect_refs_truthy records r Hr) as (Htd & Htu & _).
  destruct (collect_refs_ok records r Hr) as ((Hd & Hur & _) & _).
  assert (Hmiss : forall c0 ks k, is_set ks -> all_truthy ks ->
            In k (missing_from c0 (set_iter ks)) ->
            truthy k = true /\ hashable k = true /\ In k ks /\ lookup k c0 = VNone).
  { intros c0 ks k [_ Hh] Ht Hk. unfold missing_from in Hk.
    apply filter_In in Hk. destruct Hk as [Hin Hn].
    apply (Permutation_in _ (Hperm _)) in Hin.
    unfold all_truthy in Ht. rewrite Forall_forall in Ht, Hh.
    split; [auto|]. split; [auto|]. split; [assumption|].
    destruct (lookup k c0); simpl in Hn; congruence. }
  assert (Hne : forall items sub, In sub (chunks_of items 25) -> sub <> []).
  { intros items sub Hsub.
    destruct (chunks_shape items 25) as (_ & Hall & _); [lia|].
    rewrite Forall_forall in Hall. specialize (Hall _ Hsub).
    intros ->. simpl in Hall. lia. }
  intros c Hin. unfold batch_calls in Hin. apply in_app_or in Hin.
  destruct Hin as [Hin|Hin]; apply in_map_iff in Hin;
    destruct Hin as (sub & <- & Hsub); simpl.
  - split; [eapply Hne; eassumption|]. intros k Hk.
    destruct (Hmiss (_user_cache st) (all_dids r) k Hd Htd) as (T & Hh & Hi & Hl).
    { eapply in_chunk; eassumption. }
    auto.
  - split; [eapply Hne; eassumption|]. intros k Hk.
    destruct (Hmiss (_post_cache st) (all_uris r) k Hur Htu) as (T & Hh & Hi & Hl).
    { eapply in_chunk; eassumption. }
    auto.
Qed.


(** ** A batch hydrated a second time *)

Lemma gathered_fwd {A B} (g : A -> result B) (subs : list A) :
  forall chunks, gathered (map g subs) = Ok chunks ->
  forall sub, In sub subs -> exists chunk, In chunk chunks /\ g sub = Ok chunk.
Proof.
  induction subs as [|s subs IH]; intros chunks H sub Hin; [contradiction|].
  simpl in H. destruct (g s) as [b|e] eqn:Eg; [|discriminate].
  destruct (gathered (map g subs)) as [l|e] eqn:El; [|discriminate].
  injection H as <-. destruct Hin as [<-|Hin].
  - exists b. split; [now left | exact Eg].
  - destruct (IH l eq_refl sub Hin) as (chunk & Hc & Hg).
    exists chunk. split; [now right | exact Hg].
Qed.

Lemma keys_by_ident (l : list model) (p : model) :
  In p l -> In (VStr (ident p)) (keys (by_ident l)).
Proof.
  unfold by_ident.
  assert (G : forall acc,
            In (VStr (ident p)) (keys acc) \/ In p l ->
            In (VStr (ident p))
               (keys (fold_left (fun acc p => setitem (VStr (ident p)) p acc) l acc))).
  { induction l as [|q l IH]; intros acc H; simpl.
    - destruct H as [H|[]]. exact H.
    - apply IH. destruct H as [H|[->|H]].
      + left. apply keys_setitem_in. now right.
      + left. apply keys_setitem_in. now left.
      + now right. }
  intros H. apply G. now right.
Qed.

Lemma keys_update_in {V} (e d : list (value * V)) (k : value) :
  In k (keys d) \/ In k (keys e) -> In k (keys (update d e)).
Proof.
  unfold update. revert d. induction e as [|[k0 v0] e IH]; intros d H; simpl.
  - destruct H as [H|[]]. exact H.
  - apply IH. destruct H as [H|[<-|H]].
    + left. apply keys_setitem_in. now right.
    + left. apply keys_setitem_in. now left.
    + now right.
Qed.

Lemma keys_merged_in {V} (chunks : list (list (value * V))) (k : value) :
  forall acc,
    In k (keys acc) \/ (exists chunk, In chunk chunks /\ In k (keys chunk)) ->
    In k (keys (fold_left update chunks acc)).
Proof.
  induction chunks as [|c chunks IH]; intros acc H; simpl.
  - destruct H as [H|(chunk & [] & _)]. exact H.
  - apply IH. destruct H as [H|(chunk & [<-|Hc] & Hk)].
    + left. apply keys_update_in. now left.
    + left. apply keys_update_in. now right.
    + right. now exists chunk.
Qed.

(** What a bulk call returns when the remote resolves every key: an item
    for every (string) key asked. *)
Lemma bulk_result_resolved (f : list value -> result (list model))
    (items : list value) (fetched : list (value * model)) :
  resolves f ->
  match items with
  | [] => Ok []
  | _ => rbind (gathered (map (fun sub => rbind (f sub)
                                            (fun resp => Ok (by_ident resp)))
                              (chunks_of items 25)))
               (fun chunks => Ok (fold_left update chunks []))
  end = Ok fetched ->
  forall s, In (VStr s) items -> In (VStr s) (keys fetched).
Proof.
  intros Hf H s Hin. destruct items as [|x items]; [contradiction|].
  inv_rbind H. injection H as <-.
  rewrite <- (chunks_of_concat (x :: items) 25) in Hin by lia.
  apply in_concat in Hin. destruct Hin as (sub & Hsub & Hs).
  destruct (gathered_fwd _ _ _ E sub Hsub) as (chunk & Hc & Hg).
  inv_rbind Hg. injection Hg as <-.
  destruct (Hf sub a0 s E0 Hs) as (p & Hp & <-).
  apply keys_merged_in. right. exists (by_ident a0).
  split; [exact Hc | now apply keys_by_ident].
Qed.

Lemma missing_from_nil (c : LRUCache) (ks : list value) :
  (forall k, In k ks -> lookup k c <> VNone) -> missing_from c ks = [].
Proof.
  intros H. unfold missing_from. induction ks as [|k ks IH]; [reflexivity|].
  simpl. destruct (lookup k c) eqn:E; simpl;
    try (apply IH; intros; apply H; now right).
  exfalso. apply (H k); [now left | exact E].
Qed.

Lemma is_str_inv (v : value) : is_str v = true -> exists s, v = VStr s.
Proof. destruct v; try discriminate. intros _. now eexists. Qed.

Lemma hydrated_not_none (fetched : list (value * model)) (c : LRUCache) (d : value) :
  no_none c -> (In d (keys (cache c)) \/ In d (keys fetched)) ->
  hydrated fetched c d <> VNone.
Proof.
  intros Hn H. unfold hydrated. destruct (assoc d fetched) as [p|] eqn:E.
  - discriminate.
  - destruct H as [H|H].
    + intros Hl. apply (proj1 (lookup_none_iff d c Hn)); [now rewrite Hl | exact H].
    + apply assoc_None in E. contradiction.
Qed.

(** X17.  After a hydration that returned, on caches with unique keys, no
    stored [None] and room for all the keys the batch references, all of
    them strings, against a remote that returns an object for every
    requested key and for no other: hydrating the same batch again, with no
    other task in between and whichever client is drawn, sends no request,
    returns the same enriched records, and leaves in each cache the entries
    it held. *)
Theorem rehydrate_from_cache (set_iter : list value -> list value)
    (py_str : value -> string) (records : list value)
    (api_clients : list BlueskyAPI) (rnd : nat) (nu np : Z) (st st' : state)
    (out : list value) (r : refs) (api : BlueskyAPI) :
  (forall l, Permutation (set_iter l) l) ->
  caches_ok nu np st ->
  collect_refs records = Ok r ->
  random_choice rnd api_clients = Ok api ->
  answers_within (get_profiles api) -> answers_within (get_posts api) ->
  resolves (get_profiles api) -> resolves (get_posts api) ->
  forallb is_str (all_dids r) = true -> forallb is_str (all_uris r) = true ->
  (Z.of_nat (length (all_dids r)) <= nu)%Z ->
  (Z.of_nat (length (all_uris r)) <= np)%Z ->
  hydrate_bulk set_iter py_str records api_clients rnd st = (Ok out, st') ->
  forall rnd', exists st'',
    hydrate_bulk set_iter py_str records api_clients rnd' st' = (Ok out, st'') /\
    calls st'' = calls st' /\
    same_entries (_user_cache st') (_user_cache st'') /\
    same_entries (_post_cache st') (_post_cache st'').
Proof.
  intros Hperm Hok Hr Hc Hau Hap Hru Hrp Hsd Hsu Hcu Hcp H rnd'.
  destruct (hydrate_bulk_caches _ _ _ _ _ _ _ _ _ _ _ _ Hperm Hok Hr Hc H)
    as (fu & fp & tables & Hfu & Hfp & Hasm & Ht1 & Ht2 & Husers & Hposts).
  specialize (Husers Hau Hcu). specialize (Hposts Hap Hcp).
  pose proof (hydrate_bulk_caches_ok set_iter py_str records api_clients rnd
                nu np st Hok) as Hok'.
  rewrite H in Hok'. simpl in Hok'.
  destruct Hok as [[[Hu Hnu] _] [[Hp Hnp] _]].
  destruct Hok' as [[[Hu' Hnu'] _] [[Hp' Hnp'] _]].
  rewrite forallb_forall in Hsd, Hsu.
  assert (Hin : forall l x, In x (set_iter l) -> In x l).
  { intros l x Hx. eapply Permutation_in; [apply Hperm | exact Hx]. }
  assert (Hin' : forall l x, In x l -> In x (set_iter l)).
  { intros l x Hx. eapply Permutation_in; [apply Permutation_sym, Hperm | exact Hx]. }
  assert (Hmd : missing_from (_user_cache st') (set_iter (all_dids r)) = []).
  { apply missing_from_nil. intros k Hk. apply Hin in Hk.
    rewrite (Husers k Hk). apply hydrated_not_none; [exact Hnu|].
    destruct (in_dec value_eq_dec k (keys (cache (_user_cache st)))) as [|Hn];
      [now left | right].
    destruct (is_str_inv k (Hsd k Hk)) as (s & ->).
    apply (bulk_result_resolved (get_profiles api) _ fu Hru Hfu).
    apply (missing_from_iff set_iter _ _ _ Hperm Hnu). now split. }
  assert (Hmu : missing_from (_post_cache st') (set_iter (all_uris r)) = []).
  { apply missing_from_nil. intros k Hk. apply Hin in Hk.
    rewrite (Hposts k Hk). apply hydrated_not_none; [exact Hnp|].
    destruct (in_dec value_eq_dec k (keys (cache (_post_cache st)))) as [|Hn];
      [now left | right].
    destruct (is_str_inv k (Hsu k Hk)) as (s & ->).
    apply (bulk_result_resolved (get_posts api) _ fp Hrp Hfp).
    apply (missing_from_iff set_iter _ _ _ Hperm Hnp). now split. }
  destruct (refs_iter_hashable set_iter records r Hperm Hr) as [Hku0 Hkp0].
  destruct (probe_caches_run set_iter r st' Hku0 Hkp0 Hu' Hp')
    as (cu & cp & Bu & Bp & Hprobe & Hse1 & Hse2 & _).
  rewrite Hmd, Hmu in Hprobe.
  assert (Hne : api_clients <> []).
  { intros ->. discriminate Hc. }
  destruct (random_choice_in rnd' api_clients Hne) as (api' & Hc' & _).
  rewrite (hydrate_bulk_run _ _ _ _ _ _ _ _ _ _ _ Hr Hprobe Hc'). simpl.
  unfold batch_calls. simpl. rewrite with_calls_nil.
  unfold publish_and_read, mbind, publish_users, publish_posts. simpl.
  destruct (readback_run user_attr (set_iter (all_dids r))
              (mkState cu cp (semaphore st') (calls st') (stored st'))
              user_attr_ok Hku0 (same_entries_wf _ _ Hse1 Hu'))
    as (cu2 & Hrb1 & Hse3).
  rewrite Hrb1.
  destruct (readback_run post_attr (set_iter (all_uris r))
              (setc user_attr cu2 (mkState cu cp (semaphore st') (calls st') (stored st')))
              post_attr_ok Hkp0 (same_entries_wf _ _ Hse2 Hp'))
    as (cp2 & Hrb2 & Hse4).
  rewrite Hrb2. simpl.
  exists (mkState cu2 cp2 (semaphore st') (calls st') (stored st')).
  split; [|split; [reflexivity|split]].
  - f_equal. rewrite <- Hasm. f_equal.
    + rewrite Ht1. apply fold_setitem_ext. intros x.
      apply same_entries_lookup; [exact Hse1 | apply Hu'].
    + rewrite Ht2. apply fold_setitem_ext. intros x.
      apply same_entries_lookup; [exact Hse2 | apply Hp'].
  - simpl. eapply same_entries_trans; eassumption.
  - simpl. eapply same_entries_trans; eassumption.
Qed.

(** ** The shard filter *)


(** ** Hydration.configure_cache *)

Lemma missing_from_empty (n : Z) (ks : list value) :
  missing_from (LRUCache_init n) ks = ks.
Proof.
  unfold missing_from, lookup. simpl.
  induction ks as [|k ks IH]; simpl; [reflexivity | now f_equal].
Qed.

(** X19.  [configure_cache] with sizes that are not negative replaces both
    caches by empty ones of the given capacities and leaves the semaphore,
    the log of requests and the sink as they are. So the next hydration
    (phase 1 completing, a client drawn, sets being iterated over their
    elements, in some order) finds every referenced key missing: its
    requests are those of the two bulk calls over all the DIDs and all the
    URIs the batch references. *)
Theorem configure_cache_resets (set_iter : list value -> list value)
    (py_str : value -> string) (user_cache_size post_cache_size : Z)
    (st : state) :
  (0 <= user_cache_size)%Z -> (0 <= post_cache_size)%Z ->
  exists st',
    configure_cache user_cache_size post_cache_size st = (Ok tt, st') /\
    caches_ok user_cache_size post_cache_size st' /\
    cache (_user_cache st') = [] /\ cache (_post_cache st') = [] /\
    semaphore st' = semaphore st /\ calls st' = calls st /\
    stored st' = stored st /\
    ((forall l, Permutation (set_iter l) l) ->
     forall records api_clients rnd r api,
      collect_refs records = Ok r ->
      random_choice rnd api_clients = Ok api ->
      calls (snd (hydrate_bulk set_iter py_str records api_clients rnd st')) =
      calls st ++ batch_calls (set_iter (all_dids r)) (set_iter (all_uris r))).
Proof.
  intros Hu Hp. eexists. split; [reflexivity|]. simpl.
  assert (Hwf : forall n, (0 <= n)%Z -> lru_wf (LRUCache_init n)).
  { intros n Hn. split; [constructor | simpl; lia]. }
  split.
  { split; (split; [split; [now apply Hwf | constructor] | reflexivity]). }
  do 5 (split; [reflexivity|]).
  intros Hperm records api_clients rnd r api Hr Hc.
  rewrite (hydrate_bulk_calls set_iter py_str records api_clients rnd _ r api);
    try assumption; simpl; try (now apply Hwf).
  now rewrite !missing_from_empty.
Qed.

(** ** TurboCharger.run: the batches *)

Lemma run_app (set_iter : list value -> list value) (py_str : value -> string)
    (store_records : list value -> result unit) (evs1 evs2 : list event) :
  forall tc,
    run set_iter py_str store_records (evs1 ++ evs2) tc =
    match run set_iter py_str store_records evs1 tc with
    | Ok (Some tc1) => run set_iter py_str store_records evs2 tc1
    | r => r
    end.
Proof.
  induction evs1 as [|ev evs1 IH]; intros tc; simpl; [reflexivity|].
  destruct (step _ _ _ ev tc) as [[tc1|]|e]; [apply IH | reflexivity | reflexivity].
Qed.

Lemma kept_snoc (m s : value) (recs : list value) (r : value) (keep : bool) :
  shard_filter m s r = Ok keep ->
  kept m s (recs ++ [r]) = kept m s recs ++ (if keep then [r] else []).
Proof.
  intros H. unfold kept. rewrite filter_app. simpl. rewrite H.
  destruct keep; reflexivity.
Qed.

Lemma dispatch_inv (tc tc' : TurboCharger) :
  dispatch tc = Some tc' ->
  modulo tc' = modulo tc /\ shard tc' = shard tc /\
  bluesky_clients tc' = bluesky_clients tc /\
  buffer tc' = skipn BATCH_SIZE (buffer tc) /\
  tasks tc' = tasks tc ++ [firstn BATCH_SIZE (buffer tc)] /\
  created tc' = created tc ++ [firstn BATCH_SIZE (buffer tc)] /\
  finished tc' = finished tc /\
  (0 < semaphore (process tc))%Z /\
  process tc' = mkState (_user_cache (process tc)) (_post_cache (process tc))
                        (semaphore (process tc) - 1) (calls (process tc))
                        (stored (process tc)).
Proof.
  unfold dispatch, _process_batch, acquire.
  destruct (Z.ltb_spec 0 (semaphore (process tc))); [|discriminate].
  intros [= <-]. simpl. repeat split. assumption.
Qed.

Lemma run_record_inv (tc tc' : TurboCharger) (record : value) :
  run_record tc record = Ok (Some tc') ->
  exists keep,
    shard_filter (modulo tc) (shard tc) record = Ok keep /\
    let buffer' := if keep then buffer tc ++ [record] else buffer tc in
    let tc1 := mkTurbo (modulo tc) (shard tc) buffer' (bluesky_clients tc)
                       (tasks tc) (created tc) (finished tc) (process tc) in
    if BATCH_SIZE <=? length buffer' then dispatch tc1 = Some tc' else tc' = tc1.
Proof.
  unfold run_record, buffer_record. intros H.
  destruct (shard_filter (modulo tc) (shard tc) record) as [keep|e]; [|discriminate].
  exists keep. split; [reflexivity|]. cbn [rbind] in H. cbv zeta.
  destruct (BATCH_SIZE <=? length (if keep then buffer tc ++ [record] else buffer tc));
    now injection H.
Qed.

Lemma firstn_whole {A} (n : nat) (l : list A) :
  length l = n -> firstn n l = l /\ skipn n l = [].
Proof.
  intros <-. split; [apply firstn_all | apply skipn_all].
Qed.

Lemma step_batching (set_iter : list value -> list value) (py_str : value -> string)
    (store_records : list value -> result unit) (ev : event)
    (recs : list value) (tc tc' : TurboCharger) :
  is_end ev = false ->
  step set_iter py_str store_records ev tc = Ok (Some tc') ->
  batching recs tc ->
  batching (recs ++ messages [ev]) tc' /\
  modulo tc' = modulo tc /\ shard tc' = shard tc.
Proof.
  intros Hev H (Hc & Hf & Hl). destruct ev as [record|i rnd|]; [| |discriminate].
  - cbn [step] in H. apply run_record_inv in H. destruct H as (keep & Hk & H).
    cbv zeta in H. change (messages [Message record]) with [record].
    set (buffer' := if keep then buffer tc ++ [record] else buffer tc) in *.
    assert (Hb' : concat (created tc) ++ buffer' =
                  kept (modulo tc) (shard tc) (recs ++ [record])).
    { rewrite (kept_snoc _ _ _ _ _ Hk), <- Hc, <- app_assoc. f_equal.
      subst buffer'. destruct keep; [reflexivity | now rewrite app_nil_r]. }
    assert (Hl' : length buffer' <= BATCH_SIZE).
    { subst buffer'. destruct keep; [rewrite length_app; simpl; lia | lia]. }
    destruct (Nat.leb_spec BATCH_SIZE (length buffer')) as [Hfull|Hroom].
    + apply dispatch_inv in H.
      cbn [modulo shard buffer bluesky_clients tasks created finished process] in H.
      destruct H as (Hm & Hs & _ & Hb & _ & Hcr & _).
      assert (Hlen : length buffer' = BATCH_SIZE) by lia.
      destruct (firstn_whole _ _ Hlen) as [Ef Es].
      rewrite Ef in Hcr. rewrite Es in Hb.
      unfold batching. rewrite Hm, Hs, Hb, Hcr. split; [|now split].
      split; [|split].
      * rewrite concat_app. cbn [concat]. rewrite !app_nil_r. exact Hb'.
      * apply Forall_app. split; [exact Hf|]. repeat constructor. exact Hlen.
      * unfold BATCH_SIZE. simpl. lia.
    + subst tc'. unfold batching.
      cbn [modulo shard buffer bluesky_clients tasks created finished process].
      split; [|now split]. split; [exact Hb'|]. split; [exact Hf | exact Hroom].
  - cbn [step] in H. injection H as H. unfold finish_task in H.
    destruct (nth_error (tasks tc) i); [|discriminate].
    injection H as <-. unfold batching.
    cbn [modulo shard buffer bluesky_clients tasks created finished process].
    change (messages [TaskDone i rnd]) with (@nil value). rewrite app_nil_r.
    split; [|now split]. split; [exact Hc|]. split; [exact Hf | exact Hl].
Qed.

Lemma run_batching (set_iter : list value -> list value) (py_str : value -> string)
    (store_records : list value -> result unit) (evs : list event) :
  forall (recs : list value) (tc tc' : TurboCharger),
    existsb is_end evs = false ->
    run set_iter py_str store_records evs tc = Ok (Some tc') ->
    batching recs tc ->
    batching (recs ++ messages evs) tc' /\
    modulo tc' = modulo tc /\ shard tc' = shard tc.
Proof.
  induction evs as [|ev evs IH]; intros recs tc tc' Hev H Hb.
  - simpl in H. injection H as <-. unfold messages. simpl.
    rewrite app_nil_r. now split.
  - cbn [existsb] in Hev. apply orb_false_iff in Hev. destruct Hev as [Hev Hevs].
    cbn [run] in H.
    destruct (step _ _ _ ev tc) as [[tc1|]|e] eqn:Hs; try discriminate.
    destruct (step_batching _ _ _ _ _ _ _ Hev Hs Hb) as (Hb1 & Hm1 & Hs1).
    destruct (IH _ _ _ Hevs H Hb1) as (Hb2 & Hm2 & Hs2).
    split; [|split; congruence].
    assert (E : messages (ev :: evs) = messages [ev] ++ messages evs).
    { unfold messages. simpl. now rewrite app_nil_r. }
    rewrite E, app_assoc. exact Hb2.
Qed.

Lemma run_dones (set_iter : list value -> list value) (py_str : value -> string)
    (store_records : list value -> result unit) (evs : list event) :
  forall (tc tc' : TurboCharger),
    forallb is_done evs = true ->
    run set_iter py_str store_records evs tc = Ok (Some tc') ->
    created tc' = created tc /\ buffer tc' = buffer tc.
Proof.
  induction evs as [|ev evs IH]; intros tc tc' Hev H; simpl in *.
  - injection H as <-. now split.
  - apply andb_true_iff in Hev. destruct Hev as [Hev Hevs].
    destruct ev as [r|i rnd|]; try discriminate. simpl in H.
    unfold finish_task in H. destruct (nth_error (tasks tc) i); [|discriminate].
    destruct (IH _ _ Hevs H) as [-> ->]. now split.
Qed.

(** X20.  For a run that gets through a stream without raising or waiting
    (the records, the end of the stream, then only tasks that finish; a task
    runs to its end in one step): the buffer is empty at the end, and the
    batches created are, concatenated in order, exactly the records that the
    shard filter kept, in the order of the stream; every batch has between 1
    and [BATCH_SIZE] = 10 records and all but the last exactly 10; with
    [modulo] and [shard] both falsy (the default [None]) every record of the
    stream is in a batch. *)
Theorem run_batches (set_iter : list value -> list value) (py_str : value -> string)
    (store_records : list value -> result unit) (m s : value)
    (clients : list BlueskyAPI) (st : state)
    (evs dones : list event) (tc : TurboCharger) :
  existsb is_end evs = false -> forallb is_done dones = true ->
  run set_iter py_str store_records (evs ++ StreamEnd :: dones)
      (TurboCharger_init m s clients st) = Ok (Some tc) ->
  buffer tc = [] /\
  concat (created tc) = kept m s (messages evs) /\
  Forall (fun b => 1 <= length b <= BATCH_SIZE) (created tc) /\
  (forall j, S j < length (created tc) ->
     length (nth j (created tc) []) = BATCH_SIZE) /\
  (truthy m = false -> truthy s = false ->
   concat (created tc) = messages evs).
Proof.
  intros Hev Hd H. rewrite run_app in H.
  destruct (run _ _ _ evs _) as [[tc1|]|e] eqn:H1; try discriminate.
  destruct (run_batching _ _ _ evs [] _ _ Hev H1) as ((Hc & Hf & Hl) & Hm & Hs).
  { unfold batching, TurboCharger_init, BATCH_SIZE. simpl.
    split; [reflexivity|]. split; [constructor | lia]. }
  simpl in Hm, Hs, Hc. rewrite Hm, Hs in Hc.
  simpl in H. destruct (run_end tc1) as [tc2|] eqn:He; [|discriminate].
  destruct (run_dones _ _ _ dones _ _ Hd H) as [Ec Eb]. rewrite Ec, Eb.
  assert (Hend : buffer tc2 = [] /\
                 created tc2 = created tc1 ++
                               match buffer tc1 with [] => [] | _ => [buffer tc1] end).
  { unfold run_end in He. destruct (buffer tc1) as [|x b] eqn:Ebuf.
    - injection He as <-. rewrite app_nil_r. now split.
    - apply dispatch_inv in He. rewrite Ebuf in He.
      destruct He as (_ & _ & _ & Hb & _ & Hcr & _).
      assert (Hlen : length (x :: b) <= BATCH_SIZE) by lia.
      rewrite Hb, Hcr. rewrite skipn_all2 by exact Hlen.
      rewrite firstn_all2 by exact Hlen. now split. }
  destruct Hend as [Hb2 Hc2]. rewrite Hb2, Hc2.
  assert (Hcat : concat (created tc1 ++
                   match buffer tc1 with [] => [] | _ :: _ => [buffer tc1] end)
                 = kept m s (messages evs)).
  { rewrite concat_app, <- Hc. f_equal.
    destruct (buffer tc1); simpl; [reflexivity | now rewrite app_nil_r]. }
  split; [reflexivity|]. split; [exact Hcat|]. split; [|split].
  - apply Forall_app. split.
    + eapply Forall_impl; [|exact Hf]. simpl. intros b ->. unfold BATCH_SIZE. lia.
    + destruct (buffer tc1) as [|x b] eqn:Ebuf; constructor; [|constructor].
      simpl in *. lia.
  - intros j Hj. rewrite length_app in Hj.
    assert (Hj' : j < length (created tc1)).
    { destruct (buffer tc1); simpl in Hj; lia. }
    rewrite app_nth1 by exact Hj'.
    rewrite Forall_forall in Hf. apply Hf. now apply nth_In.
  - intros Tm Ts. rewrite Hcat. unfold kept.
    apply forallb_filter_id. apply forallb_forall. intros r _.
    destruct (shard_filter_spec m s r) as [Hk _]. now rewrite (Hk Tm Ts).
Qed.

(** ** TurboCharger.run: the permits and the sink *)

Lemma remove_nth_perm {A} (l : list A) :
  forall i x, nth_error l i = Some x ->
    Permutation l (x :: remove_nth i l) /\ S (length (remove_nth i l)) = length l.
Proof.
  unfold remove_nth. induction l as [|a l IH]; intros [|i] x H; simpl in H;
    try discriminate.
  - injection H as <-. simpl. split; [apply Permutation_refl | reflexivity].
  - destruct (IH i x H) as [Hp Hl]. simpl. split.
    + eapply Permutation_trans; [apply perm_skip, Hp | apply perm_swap].
    + simpl in Hl. now rewrite Hl.
Qed.

Lemma finish_task_inv (set_iter : list value -> list value) (py_str : value -> string)
    (store_records : list value -> result unit) (i rnd : nat)
    (tc tc' : TurboCharger) :
  finish_task set_iter py_str store_records i rnd tc = Some tc' ->
  exists batch,
    nth_error (tasks tc) i = Some batch /\
    modulo tc' = modulo tc /\ shard tc' = shard tc /\ buffer tc' = buffer tc /\
    bluesky_clients tc' = bluesky_clients tc /\
    tasks tc' = remove_nth i (tasks tc) /\ created tc' = created tc /\
    finished tc' = finished tc ++ [batch] /\
    process tc' = snd (_hydrate_and_release set_iter py_str store_records batch
                         (bluesky_clients tc) rnd (process tc)).
Proof.
  unfold finish_task. destruct (nth_error (tasks tc) i) as [batch|]; [|discriminate].
  intros [= <-]. exists batch. now repeat split.
Qed.

Lemma dispatch_permits (n : Z) (tc tc' : TurboCharger) :
  dispatch tc = Some tc' -> permits n tc -> permits n tc'.
Proof.
  intros H (Hs & H0 & Hp). apply dispatch_inv in H.
  destruct H as (_ & _ & _ & _ & Ht & Hc & Hf & Hpos & Hpr).
  unfold permits. rewrite Ht, Hc, Hf, Hpr. simpl.
  rewrite length_app. simpl. split; [lia|]. split; [lia|].
  rewrite app_assoc. now apply Permutation_app_tail.
Qed.

Lemma step_permits (set_iter : list value -> list value) (py_str : value -> string)
    (store_records : list value -> result unit) (ev : event) (n : Z)
    (tc tc' : TurboCharger) :
  step set_iter py_str store_records ev tc = Ok (Some tc') ->
  permits n tc -> permits n tc'.
Proof.
  intros H Hp. destruct ev as [record|i rnd|]; cbn [step] in H.
  - apply run_record_inv in H. destruct H as (keep & _ & H). cbv zeta in H.
    destruct (BATCH_SIZE <=? _).
    + eapply dispatch_permits; [exact H|]. exact Hp.
    + subst tc'. exact Hp.
  - injection H as H. apply finish_task_inv in H.
    destruct H as (batch & Hn & _ & _ & _ & _ & Ht & Hc & Hf & Hpr).
    destruct Hp as (Hs & H0 & Hperm).
    destruct (remove_nth_perm _ _ _ Hn) as [Hrp Hrl].
    destruct (hydrate_and_release_run set_iter py_str store_records batch
                (bluesky_clients tc) rnd (process tc))
      as (r & st1 & r' & st' & _ & Hrel & Hsem & _).
    rewrite Hrel in Hpr. simpl in Hpr.
    unfold permits. rewrite Ht, Hc, Hf, Hpr, Hsem. split; [lia|]. split; [lia|].
    eapply Permutation_trans; [exact Hperm|].
    rewrite <- app_assoc. apply Permutation_app_head. exact Hrp.
  - injection H as H. unfold run_end in H. destruct (buffer tc) eqn:Eb.
    + now injection H as <-.
    + eapply dispatch_permits; eassumption.
Qed.

Lemma run_permits_inv (set_iter : list value -> list value) (py_str : value -> string)
    (store_records : list value -> result unit) (evs : list event) (n : Z) :
  forall tc tc',
    run set_iter py_str store_records evs tc = Ok (Some tc') ->
    permits n tc -> permits n tc'.
Proof.
  induction evs as [|ev evs IH]; intros tc tc' H Hp; cbn [run] in H.
  - now injection H as <-.
  - destruct (step _ _ _ ev tc) as [[tc1|]|e] eqn:Hs; try discriminate.
    eapply IH; [exact H|]. eapply step_permits; eassumption.
Qed.

(** X21.  At every point that a run started with its 100 permits reaches (a
    task runs to its end in one step): the free permits and the unfinished
    tasks are 100 together, the free permits are not negative, so at most
    100 tasks are unfinished, and every task created has finished or is
    unfinished. When [run] cannot take a record because it waits in
    [acquire], no permit is free, and once the oldest unfinished task has
    run to its end, whatever its outcome, the record is taken. *)
Theorem run_permits (set_iter : list value -> list value) (py_str : value -> string)
    (store_records : list value -> result unit) (m s : value)
    (clients : list BlueskyAPI) (st : state) (evs : list event)
    (tc : TurboCharger) :
  run set_iter py_str store_records evs (TurboCharger_init m s clients st)
    = Ok (Some tc) ->
  (semaphore (process tc) + Z.of_nat (length (tasks tc)) = PERMITS)%Z /\
  (0 <= semaphore (process tc))%Z /\
  (Z.of_nat (length (tasks tc)) <= PERMITS)%Z /\
  Permutation (created tc) (finished tc ++ tasks tc) /\
  (forall record,
     step set_iter py_str store_records (Message record) tc = Ok None ->
     semaphore (process tc) = 0%Z /\
     forall rnd, exists tc1 tc2,
       step set_iter py_str store_records (TaskDone 0 rnd) tc = Ok (Some tc1) /\
       step set_iter py_str store_records (Message record) tc1 = Ok (Some tc2)).
Proof.
  intros H.
  destruct (run_permits_inv _ _ _ evs PERMITS _ _ H) as (Hs & H0 & Hp).
  { unfold permits, TurboCharger_init, PERMITS. simpl.
    split; [reflexivity|]. split; [lia | constructor]. }
  split; [exact Hs|]. split; [exact H0|]. split; [lia|]. split; [exact Hp|].
  intros record Hb. cbn [step] in Hb. unfold run_record, buffer_record in Hb.
  destruct (shard_filter (modulo tc) (shard tc) record) as [keep|e] eqn:Hk;
    [|discriminate].
  cbn [rbind] in Hb. cbv zeta in Hb.
  destruct (BATCH_SIZE <=? length (if keep then buffer tc ++ [record] else buffer tc))
    eqn:Hfull; [|discriminate].
  unfold dispatch, _process_batch, acquire in Hb.
  cbn [modulo shard buffer bluesky_clients tasks created finished process] in Hb.
  destruct (Z.ltb_spec 0 (semaphore (process tc))) as [|Hz]; [discriminate|].
  assert (Hsem : semaphore (process tc) = 0%Z) by lia.
  split; [exact Hsem|]. intros rnd.
  destruct (tasks tc) as [|batch ts] eqn:Et.
  { exfalso. simpl in Hs. unfold PERMITS in Hs. lia. }
  destruct (hydrate_and_release_run set_iter py_str store_records batch
              (bluesky_clients tc) rnd (process tc))
    as (r & st1 & r' & st' & _ & Hrel & Hsem' & _).
  eexists. eexists. split.
  { cbn [step]. unfold finish_task. rewrite Et. reflexivity. }
  cbn [step]. unfold run_record, buffer_record.
  cbn [modulo shard buffer bluesky_clients tasks created finished process].
  rewrite Hk. cbn [rbind]. cbv zeta. rewrite Hfull.
  unfold dispatch, _process_batch, acquire.
  cbn [modulo shard buffer bluesky_clients tasks created finished process].
  rewrite Hrel. cbn [snd]. rewrite Hsem', Hsem. reflexivity.
Qed.

Lemma combine_snoc {A B} (l : list A) (l' : list B) (a : A) (b : B) :
  length l' = length l ->
  combine (l ++ [a]) (l' ++ [b]) = combine l l' ++ [(a, b)].
Proof.
  revert l'. induction l as [|x l IH]; intros [|y l'] H; simpl in *;
    try discriminate; [reflexivity|].
  f_equal. apply IH. now injection H.
Qed.

Lemma delivered_skip (fin new : list (list value)) (batch : list value) :
  delivered fin new -> delivered (fin ++ [batch]) new.
Proof.
  intros (flags & Hl & Hm). exists (flags ++ [false]). split.
  - rewrite !length_app. simpl. now rewrite Hl.
  - rewrite combine_snoc by exact Hl. rewrite filter_app. simpl.
    now rewrite app_nil_r.
Qed.

Lemma delivered_snoc (fin new : list (list value)) (batch out : list value) :
  map message_of out = batch ->
  delivered fin new -> delivered (fin ++ [batch]) (new ++ [out]).
Proof.
  intros Ho (flags & Hl & Hm). exists (flags ++ [true]). split.
  - rewrite !length_app. simpl. now rewrite Hl.
  - rewrite combine_snoc by exact Hl. rewrite filter_app. simpl.
    rewrite !map_app. simpl. now rewrite Hm, Ho.
Qed.

Lemma messages_of (out records : list value) :
  map (fun o => py_get o "message" VNone) out = map Ok records ->
  map message_of out = records.
Proof.
  revert records. induction out as [|o out IH]; intros [|rec records] H;
    simpl in *; try discriminate; [reflexivity|].
  injection H as Ho Ht. apply py_get_Ok in Ho. destruct Ho as [-> _].
  unfold message_of at 1. f_equal. now apply IH.
Qed.

Lemma step_delivered (set_iter : list value -> list value) (py_str : value -> string)
    (store_records : list value -> result unit) (ev : event)
    (stored0 : list (list value)) (tc tc' : TurboCharger) :
  step set_iter py_str store_records ev tc = Ok (Some tc') ->
  (exists new, stored (process tc) = stored0 ++ new /\ delivered (finished tc) new) ->
  exists new, stored (process tc') = stored0 ++ new /\ delivered (finished tc') new.
Proof.
  intros H (new & Hst & Hd). destruct ev as [record|i rnd|]; cbn [step] in H.
  - apply run_record_inv in H. destruct H as (keep & _ & H). cbv zeta in H.
    destruct (BATCH_SIZE <=? _).
    + apply dispatch_inv in H. destruct H as (_ & _ & _ & _ & _ & _ & Hf & _ & Hpr).
      exists new. rewrite Hf, Hpr. simpl. now split.
    + subst tc'. exists new. now split.
  - injection H as H. apply finish_task_inv in H.
    destruct H as (batch & _ & _ & _ & _ & _ & _ & _ & Hf & Hpr).
    destruct (hydrate_and_release_run set_iter py_str store_records batch
                (bluesky_clients tc) rnd (process tc))
      as (r & st1 & r' & st' & Hh & Hrel & _ & _ & _ & Hout).
    rewrite Hrel in Hpr. simpl in Hpr. rewrite Hf, Hpr.
    destruct r as [enriched|e].
    + destruct (store_records enriched).
      * destruct Hout as [_ Hs]. exists (new ++ [enriched]). split.
        -- now rewrite Hs, Hst, app_assoc.
        -- apply delivered_snoc; [|exact Hd].
           apply messages_of.
           now destruct (hydrate_bulk_messages _ _ _ _ _ _ _ _ Hh) as (_ & Hm & _).
      * destruct Hout as [_ Hs]. exists new. split; [congruence|].
        now apply delivered_skip.
    + destruct Hout as [_ Hs]. exists new. split; [congruence|].
      now apply delivered_skip.
  - injection H as H. unfold run_end in H. destruct (buffer tc) eqn:Eb.
    + injection H as <-. exists new. now split.
    + apply dispatch_inv in H. destruct H as (_ & _ & _ & _ & _ & _ & Hf & _ & Hpr).
      exists new. rewrite Hf, Hpr. simpl. now split.
Qed.

(** X22.  At every point that a run reaches (a task runs to its end in one
    step), the sink holds what it held before followed by new batches of
    enriched records, at most one per finished task: they are, in the order
    in which the tasks finished, the hydrations of some of the finished
    tasks, the [message] fields of each being the records of the task's
    batch, in order.  (A task whose hydration or storage raises delivers
    nothing.) *)
Theorem run_delivery (set_iter : list value -> list value) (py_str : value -> string)
    (store_records : list value -> result unit) (m s : value)
    (clients : list BlueskyAPI) (st : state) (evs : list event)
    (tc : TurboCharger) :
  run set_iter py_str store_records evs (TurboCharger_init m s clients st)
    = Ok (Some tc) ->
  exists new flags,
    stored (process tc) = stored st ++ new /\
    length flags = length (finished tc) /\
    map (map message_of) new = map fst (filter snd (combine (finished tc) flags)) /\
    length new <= length (finished tc).
Proof.
  intros H.
  assert (G : forall evs tc0 tc1,
            run set_iter py_str store_records evs tc0 = Ok (Some tc1) ->
            (exists new, stored (process tc0) = stored st ++ new /\
                         delivered (finished tc0) new) ->
            exists new, stored (process tc1) = stored st ++ new /\
                        delivered (finished tc1) new).
  { clear. induction evs as [|ev evs IH]; intros tc0 tc1 H Hd; cbn [run] in H.
    - now injection H as <-.
    - destruct (step _ _ _ ev tc0) as [[tc2|]|e] eqn:Hs; try discriminate.
      eapply IH; [exact H|]. eapply step_delivered; eassumption. }
  destruct (G _ _ _ H) as (new & Hst & flags & Hl & Hm).
  { exists []. split; [simpl; now rewrite app_nil_r|].
    exists []. now split. }
  exists new, flags. split; [exact Hst|]. split; [exact Hl|]. split; [exact Hm|].
  apply (f_equal (@length _)) in Hm. rewrite !length_map in Hm. rewrite Hm.
  etransitivity; [apply filter_length_le|].
  rewrite length_combine, Hl. lia.
Qed.

(** ** BlueskyAPI.load_sessions *)

Local Opaque CLIENT_BANDWIDTH.

Lemma load_loop (login : string -> string -> result BlueskyAPI)
    (l : list value) :
  forall apis bads,
    length apis <= CLIENT_BANDWIDTH ->
    fst (fold_left (load_step login) l (apis, bads)) =
    firstn CLIENT_BANDWIDTH (apis ++ logged_in login l).
Proof.
  induction l as [|ss l IH]; intros apis bads Hlen; simpl.
  - unfold logged_in. simpl. rewrite app_nil_r. symmetry. now apply firstn_all2.
  - destruct (Nat.ltb_spec (length apis) CLIENT_BANDWIDTH) as [Hlt|Hge].
    + unfold logged_in. simpl. unfold logged at 1.
      destruct ss as [|z|s|l0|d]; simpl; try (now apply IH).
      destruct (login (session_domain s) s) as [api|e]; simpl.
      * rewrite IH by (rewrite length_app; simpl; lia).
        now rewrite <- app_assoc.
      * now apply IH.
    + rewrite IH by exact Hlen.
      rewrite !firstn_app.
      replace (CLIENT_BANDWIDTH - length apis) with 0 by lia.
      reflexivity.
Qed.

(** X23.  [load_sessions] returns the clients of the first
    [CLIENT_BANDWIDTH] = 10 session strings of the list that log in, in the
    order of the list; an entry that is not a string, or whose client or
    login raises, is skipped and raises nothing.  So it returns min(10, the
    number of entries that log in) clients, at most 10, none when no entry
    logs in; and shuffling the list, as [load_clients] does, does not change
    how many it returns. *)
Theorem load_sessions_spec (login : string -> string -> result BlueskyAPI)
    (session_strings : list value) :
  load_sessions login session_strings =
    firstn CLIENT_BANDWIDTH (logged_in login session_strings) /\
  length (load_sessions login session_strings) =
    Nat.min CLIENT_BANDWIDTH (length (logged_in login session_strings)) /\
  length (load_sessions login session_strings) <= CLIENT_BANDWIDTH /\
  ((forall ss, In ss session_strings -> logged login ss = None) ->
   load_sessions login session_strings = []) /\
  (forall shuffled, Permutation shuffled session_strings ->
     length (load_sessions login shuffled) =
     length (load_sessions login session_strings)).
Proof.
  assert (E : forall l, load_sessions login l
                        = firstn CLIENT_BANDWIDTH (logged_in login l)).
  { intros l. unfold load_sessions. rewrite load_loop by (simpl; lia).
    reflexivity. }
  split; [apply E|]. split; [rewrite E; apply length_firstn|].
  split; [rewrite E, length_firstn; lia|]. split.
  - intros Hnone. rewrite E.
    assert (En : logged_in login session_strings = []).
    { unfold logged_in. induction session_strings as [|ss l IH]; [reflexivity|].
      simpl. rewrite (Hnone ss) by now left. simpl.
      apply IH. intros x Hx. apply Hnone. now right. }
    rewrite En. apply firstn_nil.
  - intros shuffled Hp. rewrite !E, !length_firstn. f_equal.
    apply Permutation_length. unfold logged_in.
    induction Hp; simpl.
    + constructor.
    + now apply Permutation_app_head.
    + rewrite !app_assoc. apply Permutation_app_tail, Permutation_app_comm.
    + eapply Permutation_trans; eassumption.
Qed.

Local Transparent CLIENT_BANDWIDTH.

(** ** [str.split] and the domain of a session string *)

Lemma sapp_nil_r (s : string) : (s ++ "")%string = s.
Proof. induction s as [|c s IH]; simpl; [reflexivity | now rewrite IH]. Qed.

Lemma sapp_assoc (a b c : string) : ((a ++ b) ++ c)%string = (a ++ b ++ c)%string.
Proof. induction a as [|x a IH]; simpl; [reflexivity | now rewrite IH]. Qed.

Lemma slen_app (a b : string) :
  String.length (a ++ b) = String.length a + String.length b.
Proof. induction a as [|x a IH]; simpl; [reflexivity | now rewrite IH]. Qed.

Lemma sapp_empty (a b : string) : (a ++ b)%string = EmptyString -> b = EmptyString.
Proof. destruct a; simpl; [trivial | discriminate]. Qed.

Lemma prefix_spec (p : string) :
  forall s, String.prefix p s = true <-> exists r, s = (p ++ r)%string.
Proof.
  induction p as [|c p IH]; intros s.
  - split; [intros _; now exists s | intros _; now destruct s].
  - destruct s as [|c' s]; simpl.
    + split; [discriminate | intros [r Hr]; discriminate].
    + destruct (ascii_dec c c') as [->|Hne].
      * rewrite IH. split; intros [r Hr]; exists r; [now rewrite Hr | now injection Hr].
      * split; [discriminate | intros [r Hr]; injection Hr; intros _ E; now subst].
Qed.

Lemma split_from_step (sep cur : string) (c : ascii) (s : string) :
  split_from sep 0 cur (String c s) =
  if String.prefix sep (String c s)
  then cur :: split_from sep (String.length sep - 1) EmptyString s
  else split_from sep 0 (cur ++ String c EmptyString)%string s.
Proof. reflexivity. Qed.

Lemma split_from_skip (sep : string) (p : string) :
  forall cur rest,
    split_from sep (String.length p) cur (p ++ rest) = split_from sep 0 cur rest.
Proof.
  induction p as [|c p IH]; intros cur rest; simpl.
  - now destruct rest.
  - apply IH.
Qed.

(** An occurrence of the separator at the head of the text ends a piece. *)
Lemma split_from_match (sep cur rest : string) :
  sep <> EmptyString ->
  split_from sep 0 cur (sep ++ rest) = cur :: split_from sep 0 EmptyString rest.
Proof.
  intros Hne. destruct sep as [|c p]; [congruence|].
  change (String c p ++ rest)%string with (String c (p ++ rest)).
  rewrite split_from_step.
  assert (P : String.prefix (String c p) (String c (p ++ rest)) = true).
  { apply prefix_spec. now exists rest. }
  rewrite P. f_equal.
  replace (String.length (String c p) - 1) with (String.length p) by (simpl; lia).
  apply split_from_skip.
Qed.

Lemma split_from_cons (sep : string) (s : string) :
  forall k cur, exists x l, split_from sep k cur s = x :: l.
Proof.
  induction s as [|c s IH]; intros k cur.
  - now exists cur, [].
  - destruct k as [|k]; [|apply IH].
    rewrite split_from_step.
    destruct (String.prefix sep (String c s)); [|apply IH].
    now exists cur, (split_from sep (String.length sep - 1) EmptyString s).
Qed.

Lemma concat_cons (sep x : string) (l : list string) :
  l <> [] -> String.concat sep (x :: l) = (x ++ sep ++ String.concat sep l)%string.
Proof. destruct l; [congruence | reflexivity]. Qed.

(** Joining the pieces with the separator gives the text back. *)
Lemma split_from_join (sep : string) :
  sep <> EmptyString ->
  forall n s cur, String.length s <= n ->
    String.concat sep (split_from sep 0 cur s) = (cur ++ s)%string.
Proof.
  intros Hne. induction n as [|n IH]; intros s cur Hn.
  - destruct s; [|simpl in Hn; lia]. simpl. now rewrite sapp_nil_r.
  - destruct s as [|c s]; [simpl; now rewrite sapp_nil_r|].
    destruct (String.prefix sep (String c s)) eqn:P.
    + apply prefix_spec in P. destruct P as [rest Hr]. rewrite Hr.
      rewrite split_from_match by exact Hne.
      destruct (split_from_cons sep rest 0 EmptyString) as (x & l & E).
      rewrite concat_cons by (rewrite E; discriminate).
      rewrite IH; [reflexivity|].
      assert (L : String.length (String c s) = String.length sep + String.length rest)
        by (rewrite Hr; apply slen_app).
      destruct sep; [congruence|]. simpl in *. lia.
    + rewrite split_from_step, P. rewrite IH by (simpl in Hn; lia).
      now rewrite sapp_assoc.
Qed.

Lemma sapp_snoc_inv (c : ascii) (cur : string) :
  forall a b, (cur ++ String c "")%string = (a ++ b)%string -> b <> EmptyString ->
              exists b0, b = (b0 ++ String c "")%string /\ cur = (a ++ b0)%string.
Proof.
  induction cur as [|y cur IH]; intros a b E Hb.
  - destruct a as [|x a]; simpl in E.
    + exists EmptyString. now split.
    + injection E; intros E' _. symmetry in E'. apply sapp_empty in E'. congruence.
  - destruct a as [|x a]; simpl in E.
    + exists (String y cur). now split.
    + injection E; intros E' ->. destruct (IH a b E' Hb) as (b0 & -> & ->).
      now exists b0.
Qed.

Lemma clean_no_occurrence (sep cur s : string) :
  sep <> EmptyString -> clean sep cur s -> String.prefix sep s = true \/ s = EmptyString ->
  ~ occurs sep cur.
Proof.
  intros Hne Hc Hs (a & b & E).
  assert (F : String.prefix sep ((sep ++ b) ++ s) = false).
  { apply (Hc a (sep ++ b)%string E). destruct sep; [congruence | discriminate]. }
  assert (T : String.prefix sep ((sep ++ b) ++ s) = true).
  { apply prefix_spec. exists (b ++ s)%string. apply sapp_assoc. }
  congruence.
Qed.

(** No piece contains the separator. *)
Lemma split_from_pieces (sep : string) :
  sep <> EmptyString ->
  forall n s cur, String.length s <= n -> clean sep cur s ->
    Forall (fun p => ~ occurs sep p) (split_from sep 0 cur s).
Proof.
  intros Hne. induction n as [|n IH]; intros s cur Hn Hc.
  - destruct s; [|simpl in Hn; lia]. constructor; [|constructor].
    apply (clean_no_occurrence sep cur EmptyString Hne Hc). now right.
  - destruct s as [|c s].
    { constructor; [|constructor].
      apply (clean_no_occurrence sep cur EmptyString Hne Hc). now right. }
    destruct (String.prefix sep (String c s)) eqn:P.
    + assert (Hcur : ~ occurs sep cur)
        by (apply (clean_no_occurrence sep cur (String c s) Hne Hc); now left).
      apply prefix_spec in P. destruct P as [rest Hr]. rewrite Hr.
      rewrite split_from_match by exact Hne.
      constructor; [exact Hcur|]. apply IH.
      * assert (L : String.length (String c s) = String.length sep + String.length rest)
          by (rewrite Hr; apply slen_app).
        destruct sep; [congruence|]. simpl in *. lia.
      * intros a b E Hb. symmetry in E. apply sapp_empty in E. congruence.
    + rewrite split_from_step, P. apply IH; [simpl in Hn; lia|].
      intros a b E Hb. destruct (sapp_snoc_inv c cur a b E Hb) as (b0 & -> & ->).
      rewrite sapp_assoc. simpl.
      destruct b0 as [|x b0]; [exact P|].
      apply (Hc a (String x b0) eq_refl). discriminate.
Qed.

Lemma concat_last (sep : string) (l : list string) :
  l <> [] ->
  String.concat sep l = last l EmptyString \/
  exists a, String.concat sep l = (a ++ sep ++ last l EmptyString)%string.
Proof.
  induction l as [|x l IH]; intros Hl; [congruence|].
  destruct l as [|y l]; [now left|]. right.
  rewrite concat_cons by discriminate.
  change (last (x :: y :: l) EmptyString) with (last (y :: l) EmptyString).
  destruct IH as [E | [a E]]; [discriminate | |]; rewrite E.
  - now exists x.
  - exists (x ++ sep ++ a)%string. now rewrite !sapp_assoc.
Qed.

(** X24.  The domain [ss.split(':::')[-1]] that [load_sessions] takes from a
    session string: joining the pieces of the split with the separator gives
    [ss] back and no piece contains the separator; so the domain contains no
    separator, it is [ss] itself or what follows an occurrence of the
    separator in [ss], and it is [ss] when [ss] holds no separator. *)
Theorem session_domain_spec (ss : string) :
  String.concat ":::" (py_split ":::" ss) = ss /\
  Forall (fun piece => ~ occurs ":::" piece) (py_split ":::" ss) /\
  ~ occurs ":::" (session_domain ss) /\
  (session_domain ss = ss \/
   exists a, ss = (a ++ ":::" ++ session_domain ss)%string) /\
  (~ occurs ":::" ss -> session_domain ss = ss).
Proof.
  assert (Hne : ":::"%string <> EmptyString) by discriminate.
  assert (J : String.concat ":::" (py_split ":::" ss) = ss)
    by (exact (split_from_join ":::" Hne _ ss EmptyString (le_n _))).
  assert (F : Forall (fun piece => ~ occurs ":::" piece) (py_split ":::" ss)).
  { apply (split_from_pieces ":::" Hne _ ss EmptyString (le_n _)).
    intros a b E Hb. symmetry in E. apply sapp_empty in E. congruence. }
  destruct (split_from_cons ":::" ss 0 EmptyString) as (x & l & E).
  assert (Hl : py_split ":::" ss <> []) by (unfold py_split; rewrite E; discriminate).
  assert (L : session_domain ss = ss \/
              exists a, ss = (a ++ ":::" ++ session_domain ss)%string).
  { destruct (concat_last ":::" _ Hl) as [H | [a H]]; rewrite J in H.
    - left. now symmetry.
    - right. now exists a. }
  split; [exact J|]. split; [exact F|]. split; [|split; [exact L|]].
  - unfold session_domain. rewrite Forall_forall in F. apply F.
    destruct (exists_last Hl) as (l' & y & Ey). rewrite Ey, last_last.
    apply in_or_app. right. now left.
  - intros Hno. destruct L as [H | [a H]]; [exact H|].
    exfalso. apply Hno. now exists a, (session_domain ss).
Qed.

(** ** GrazeAPI.fetch_session_strings *)

Lemma rstrip_snoc (c : ascii) (s : string) :
  rstrip c (s ++ String c "") = rstrip c s.
Proof.
  induction s as [|a s IH]; simpl.
  - now rewrite Ascii.eqb_refl.
  - now rewrite IH.
Qed.

Lemma rstrip_end (c : ascii) (s : string) :
  forall t, rstrip c s <> (t ++ String c "")%string.
Proof.
  induction s as [|a s IH]; intros t; simpl.
  - destruct t; discriminate.
  - destruct (rstrip c s) as [|b r] eqn:E.
    + destruct (Ascii.eqb_spec a c) as [->|Hne].
      * destruct t; discriminate.
      * destruct t as [|x t]; simpl; [congruence|].
        destruct t; discriminate.
    + destruct t as [|x t]; simpl; [discriminate|].
      intros H. injection H; intros H' _. exact (IH t H').
Qed.

Lemma rstrip_fixed (c : ascii) (s : string) :
  (forall t, s <> (t ++ String c "")%string) -> rstrip c s = s.
Proof.
  induction s as [|a s IH]; intros H; simpl; [reflexivity|].
  destruct s as [|b s].
  - simpl. destruct (Ascii.eqb_spec a c) as [->|Hne]; [|reflexivity].
    exfalso. now apply (H EmptyString).
  - rewrite IH.
    + reflexivity.
    + intros t E. apply (H (String a t)). simpl. now rewrite E.
Qed.

(** X25.  One slash more at the end of the base URL changes neither the
    request of [fetch_session_strings] nor its result; the base as it is
    used in the URL never ends with a slash, and a base URL that does not
    end with a slash is used as it is, followed by the path and the secret. *)
Theorem fetch_session_strings_slash (http_get : string -> result value)
    (graze_api_base_url turbo_credential_secret : string) :
  fetch_session_strings http_get (graze_api_base_url ++ "/") turbo_credential_secret =
    fetch_session_strings http_get graze_api_base_url turbo_credential_secret /\
  (forall t, rstrip "/" graze_api_base_url <> (t ++ "/")%string) /\
  ((forall t, graze_api_base_url <> (t ++ "/")%string) ->
   credentials_url graze_api_base_url turbo_credential_secret =
   (graze_api_base_url
    ++ "/app/api/v1/turbo-tokens/credentials?credential_secret="
    ++ turbo_credential_secret)%string).
Proof.
  split; [|split].
  - unfold fetch_session_strings, credentials_url. now rewrite rstrip_snoc.
  - apply rstrip_end.
  - intros H. unfold credentials_url. now rewrite rstrip_fixed.
Qed.

Lemma session_strings_loop (creds : list value) :
  forall acc l,
    foldM (fun acc cred =>
             s <- subscript cred "session_string" ;; Ok (acc ++ [s]))%res
          creds acc = Ok l <->
    exists new, l = acc ++ new /\ Forall2 carries creds new.
Proof.
  induction creds as [|cred creds IH]; intros acc l; simpl.
  - split.
    + intros H. injection H; intros <-. exists []. split; [now rewrite app_nil_r | constructor].
    + intros (new & -> & F). inversion F. now rewrite app_nil_r.
  - split.
    + intros H. destruct cred as [| | | |d]; simpl in H; try discriminate.
      destruct (assoc (VStr "session_string") d) as [s|] eqn:A; simpl in H;
        [|discriminate].
      apply IH in H. destruct H as (new & -> & F).
      exists (s :: new). split; [now rewrite <- app_assoc|].
      constructor; [now exists d | exact F].
    + intros (new & -> & F). inversion F as [|? s ? new' (d & -> & A) F']; subst.
      simpl. rewrite A. simpl. apply IH. exists new'.
      split; [now rewrite <- app_assoc | exact F'].
Qed.

(** X26.  When the endpoint answers with a list of credentials,
    [fetch_session_strings] returns exactly when every credential is a
    dictionary with the key [session_string], and it returns their session
    strings, one per credential, in order; one credential that is not a
    dictionary or lacks the key makes the whole call raise. *)
Theorem fetch_session_strings_outcome (http_get : string -> result value)
    (graze_api_base_url turbo_credential_secret : string) (creds : list value) :
  http_get (credentials_url graze_api_base_url turbo_credential_secret)
    = Ok (VList creds) ->
  (forall l, fetch_session_strings http_get graze_api_base_url
                                   turbo_credential_secret = Ok l <->
             Forall2 carries creds l) /\
  (forall l, fetch_session_strings http_get graze_api_base_url
                                   turbo_credential_secret = Ok l ->
             length l = length creds) /\
  (forall cred, In cred creds -> (forall s, ~ carries cred s) ->
     exists e, fetch_session_strings http_get graze_api_base_url
                                     turbo_credential_secret = Raise e).
Proof.
  intros Hget.
  assert (E : forall l, fetch_session_strings http_get graze_api_base_url
                          turbo_credential_secret = Ok l <-> Forall2 carries creds l).
  { intros l. unfold fetch_session_strings. rewrite Hget. simpl.
    rewrite session_strings_loop. simpl. split.
    - now intros (new & -> & F).
    - intros F. now exists l. }
  split; [exact E|]. split.
  - intros l H. apply E in H. symmetry. exact (Forall2_length H).
  - intros cred Hin Hno.
    destruct (fetch_session_strings http_get graze_api_base_url
                turbo_credential_secret) as [l|e] eqn:R; [|now exists e].
    exfalso. assert (F0 : Forall2 carries creds l) by now apply E.
    clear R E Hget. induction F0 as [|c s cs l' Hc F IH]; [contradiction|].
    destruct Hin as [->|Hin]; [exact (Hno s Hc) | exact (IH Hin)].
Qed.

(** ** The hydrated metadata (C10) *)

(** A key without an entry in the cache gives [None]. *)
Lemma lookup_absent (k : value) (c : LRUCache) :
  ~ In k (keys (cache c)) -> lookup k c = VNone.
Proof.
  intros Hn. unfold lookup. destruct (assoc k (cache c)) as [v|] eqn:Ha;
    [|reflexivity].
  exfalso. apply Hn. apply assoc_pair in Ha.
  apply in_map_iff. now exists (k, v).
Qed.

(** The table read back from a cache [c], looked up at a key that is
    referenced exactly when it is truthy, whatever cache [c'] with the same
    entries is left. *)
Lemma table_slot (set_iter : list value -> list value) (ks : list value)
    (c c' : LRUCache) (u : value) :
  (forall l, Permutation (set_iter l) l) ->
  all_truthy ks -> same_entries c c' -> NoDup (keys (cache c)) ->
  (truthy u = true -> In u ks) ->
  tbl_get (fold_left (fun t k => setitem k (lookup k c) t) (set_iter ks) []) u
  = slot c' u.
Proof.
  intros Hperm Ht Hse Hnd Hin. unfold slot. rewrite table_get.
  rewrite (same_entries_lookup c c' u Hse Hnd).
  destruct (in_dec _ _ _) as [Hi|Hn].
  - apply (Permutation_in _ (Hperm _)) in Hi.
    unfold all_truthy in Ht. rewrite Forall_forall in Ht. now rewrite (Ht _ Hi).
  - destruct (truthy u); [|reflexivity].
    exfalso. apply Hn.
    eapply Permutation_in; [apply Permutation_sym, Hperm | now apply Hin].
Qed.

(** C10.  For every record of a hydration that returns (the caches having
    unique keys within their capacity when it starts, and a set being
    iterated over its elements): the [hydrated_metadata] of its enriched
    object is the dictionary with exactly the five keys [user], [mentions],
    [parent_post], [reply_post] and [quote_post], in this order.  With the
    caches as the hydration leaves them, [user] is what the profile cache
    holds for the [did] of the record; [parent_post] and [reply_post] are
    what the post cache holds for the URI of the parent, respectively of the
    root, of its reply; and [quote_post] is what the post cache holds for
    the URI of the record it embeds.  Each of the four is [None] when the
    record has no such reference (it is missing or falsy; for the quote,
    also when the embed is of another type) and when the cache holds nothing
    for it.  The keys of [mentions] are exactly the mention DIDs that
    phase 1 extracted from that record, each once, and each is mapped to
    what the profile cache holds for it, [None] when it holds nothing. *)
Theorem C10_hydrated_metadata (set_iter : list value -> list value)
    (py_str : value -> string) (records : list value)
    (api_clients : list BlueskyAPI) (rnd : nat) (st st' : state)
    (out : list value) :
  (forall l, Permutation (set_iter l) l) ->
  lru_wf (_user_cache st) -> lru_wf (_post_cache st) ->
  hydrate_bulk set_iter py_str records api_clients rnd st = (Ok out, st') ->
  forall i rec o,
    nth_error records i = Some rec -> nth_error out i = Some o ->
    exists mentions rec_dids,
      py_get o "hydrated_metadata" VNone =
        Ok (VDict [ (VStr "user",
                     slot (_user_cache st') (getd rec "did" (VStr "")));
                    (VStr "mentions", VDict mentions);
                    (VStr "parent_post", slot (_post_cache st') (parent_uri rec));
                    (VStr "reply_post", slot (_post_cache st') (root_uri rec));
                    (VStr "quote_post",
                     match quoted rec with
                     | Some u => lookup u (_post_cache st')
                     | None => VNone
                     end) ]) /\
      rec_mentions rec = Ok rec_dids /\
      Permutation (keys mentions) rec_dids /\ NoDup (keys mentions) /\
      (forall m, In m rec_dids ->
         assoc m mentions = Some (lookup m (_user_cache st'))) /\
      (forall k c, ~ In k (keys (cache c)) ->
         lookup k c = VNone /\ slot c k = VNone).
Proof.
  intros Hperm Hu Hp H i rec o Hrec Ho.
  destruct (hydrate_bulk_inv _ _ _ _ _ _ _ _ H)
    as (r & mds & mus & st1 & api & fu & fp & tables
        & Hr & Hprobe & _ & _ & _ & Hpr & Ha).
  destruct (refs_iter_hashable set_iter records r Hperm Hr) as [Hhd Hhu].
  destruct (probe_caches_run set_iter r st Hhd Hhu Hu Hp)
    as (cu & cp & Bu & Bp & Hprobe' & Hse1 & Hse2 & _).
  rewrite Hprobe in Hprobe'. injection Hprobe' as _ _ ->.
  apply publish_and_read_inv in Hpr;
    [| simpl; eapply same_entries_wf; eassumption
     | simpl; eapply same_entries_wf; eassumption].
  destruct Hpr as (cu2 & cp2 & cu' & cp' & _ & _ & Hw2 & Hwp2 & Hse3 & Hse4
                   & -> & Ht1 & Ht2).
  simpl.
  destruct (assemble_inv _ _ _ _ _ _ _ Ha) as (_ & Hnth).
  pose proof (Hnth i rec o Hrec Ho) as Hen.
  destruct (enrich_lookups _ _ _ _ _ _ _ _ Hen)
    as (user & md & pp & rp & qp & Hmeta & Huser & (rd & Hrd & Hmd)
        & Hpp & Hrp & Hqp).
  destruct (collect_refs_ok records r Hr) as (_ & _ & Hrecs).
  destruct (Hrecs i rec Hrec) as (rd' & Hrm & Hassoc & (Hnd & _) & Hincl).
  rewrite Hrd in Hassoc. injection Hassoc as <-.
  destruct (collect_refs_truthy records r Hr) as (Htd & Htu & _).
  pose proof (collect_refs_emits records r Hr) as Hem.
  rewrite Forall_forall in Hem.
  destruct (Hem rec (nth_error_In _ _ Hrec)) as (Hdid & Hpar & Hroot & Hquote & _).
  assert (HndI : NoDup (set_iter rd)).
  { eapply Permutation_NoDup; [apply Permutation_sym, Hperm | exact Hnd]. }
  assert (Hkeys : keys md = set_iter rd).
  { rewrite Hmd. now apply (keys_fold_setitem _ _ []). }
  (* the four slots *)
  apply dict_get_Ok in Huser. rewrite Ht1 in Huser.
  rewrite (table_slot set_iter (all_dids r) cu2 cu' _ Hperm Htd Hse3 (proj1 Hw2))
    in Huser.
  2:{ intros T. unfold posting_did in Hdid.
      rewrite <- (getd_truthy rec "did" (VStr "") VNone eq_refl T).
      apply Hdid. now rewrite (getd_truthy rec "did" (VStr "") VNone eq_refl T). }
  apply get_if_truthy_Ok in Hpp, Hrp, Hqp. rewrite Ht2 in Hpp, Hrp, Hqp.
  assert (Hslot : forall u, (truthy u = true -> In u (all_uris r)) ->
            (if truthy u
             then tbl_get (fold_left (fun t k => setitem k (lookup k cp2) t)
                             (set_iter (all_uris r)) []) u
             else VNone) = slot cp' u).
  { intros u Hin.
    rewrite (table_slot set_iter (all_uris r) cp2 cp' u Hperm Htu Hse4
               (proj1 Hwp2) Hin).
    unfold slot. now destruct (truthy u). }
  rewrite (Hslot _ Hpar) in Hpp. rewrite (Hslot _ Hroot) in Hrp.
  rewrite (collect_refs_embed records r Hr i rec Hrec) in Hqp.
  assert (Hq : qp = match quoted rec with
                    | Some u => lookup u cp'
                    | None => VNone
                    end).
  { rewrite Hqp. unfold quoted in *.
    destruct (is_quote rec) eqn:Q; simpl; [|reflexivity].
    destruct (truthy (quote_uri rec)) eqn:T; [|reflexivity].
    generalize (Hslot (quote_uri rec) (fun _ => Hquote eq_refl eq_refl)).
    unfold slot. now rewrite T. }
  exists md, rd.
  split; [rewrite Hmeta, Huser, Hpp, Hrp, Hq; reflexivity|].
  split; [exact Hrm|].
  split; [rewrite Hkeys; apply Hperm|]. split; [now rewrite Hkeys|].
  split.
  - intros m Hin. rewrite Hmd, assoc_fold_setitem.
    destruct (in_dec value_eq_dec m (set_iter rd)) as [_|Hn].
    2:{ exfalso. apply Hn.
        eapply Permutation_in; [apply Permutation_sym, Hperm|exact Hin]. }
    f_equal. unfold tbl_get. rewrite Ht1, assoc_fold_setitem.
    destruct (in_dec value_eq_dec m (set_iter (all_dids r))) as [_|Hn].
    2:{ exfalso. apply Hn.
        eapply Permutation_in; [apply Permutation_sym, Hperm|now apply Hincl]. }
    simpl. symmetry. apply same_entries_lookup; [exact Hse3 | apply Hw2].
  - intros k c Hn. unfold slot. rewrite (lookup_absent k c Hn).
    split; [reflexivity | now destruct (truthy k)].
Qed.

(* ================================================================= *)
(** * Concrete runs *)

Local Open Scope string_scope.

(** C1 at capacity 2, on set a, set b, get a, set c: [b] is evicted, and a
    further [set] evicts [a]. *)
Lemma C1_lru_cache_witness :
  (1 <= 2)%Z /\
  exists c,
    lru_run [OpSet (VStr "a") (VInt 1); OpSet (VStr "b") (VInt 2);
             OpGet (VStr "a"); OpSet (VStr "c") (VInt 3)]
            (LRUCache_init 2) = Ok c /\
    cache c = [(VStr "a", VInt 1); (VStr "c", VInt 3)] /\
    lru_get (VStr "b") c = (Ok VNone, c) /\
    lru_get (VStr "a") c =
      (Ok (VInt 1), mkLRU 2 [(VStr "c", VInt 3); (VStr "a", VInt 1)]) /\
    lru_set (VStr "d") (VInt 4) c =
      (Ok tt, mkLRU 2 [(VStr "c", VInt 3); (VStr "d", VInt 4)]) /\
    lru_get (VList []) c = (Raise TypeError, c).
Proof.
  split; [lia|].
  pose proof (C1_lru_cache 2 [OpSet (VStr "a") (VInt 1); OpSet (VStr "b") (VInt 2);
                              OpGet (VStr "a"); OpSet (VStr "c") (VInt 3)]
                ltac:(lia)) as H.
  lazy beta iota delta [forallb op_key hashable andb] in H.
  destruct H as (c & Hrun & _ & _ & _ & _ & Hga & Hgp & _ & _ & Hsf & Hun).
  exists c. split; [exact Hrun|].
  vm_compute in Hrun. injection Hrun as <-.
  split; [reflexivity|]. split.
  { apply Hga; [reflexivity|]. simpl. intros [E|[E|[]]]; discriminate E. }
  split; [exact (Hgp (VStr "a") (VInt 1) eq_refl)|]. split.
  { destruct (Hsf (VStr "d") (VInt 4)) as (lru & rest & Ec & _ & Hset);
      [reflexivity | simpl; intros [E|[E|[]]]; discriminate E | reflexivity |].
    simpl in Ec. injection Ec as <- <-. exact Hset. }
  exact (proj1 (Hun (VList []) VNone eq_refl)).
Defined.

Lemma in_order_perm (l : list value) : Permutation (in_order l) l.
Proof. apply Permutation_refl. Defined.

Lemma lru_wf_init (n : Z) : (0 <= n)%Z -> lru_wf (LRUCache_init n).
Proof. intros H. split; simpl; [constructor | exact H]. Defined.

Lemma no_none_init (n : Z) : no_none (LRUCache_init n).
Proof. constructor. Defined.

Lemma echo_responsive : responsive echo_api.
Proof. intros sub. split; eexists; reflexivity. Defined.

Lemma resolve_all_within (field : string) (sub : list value) (p : model) :
  In p (resolve_all field sub) -> In (VStr (ident p)) sub.
Proof.
  unfold resolve_all. intros H. apply in_flat_map in H.
  destruct H as (k & Hk & Hp). destruct k; simpl in Hp; try contradiction.
  destruct Hp as [<-|[]]. exact Hk.
Defined.

Lemma echo_answers_within :
  answers_within (get_profiles echo_api) /\ answers_within (get_posts echo_api).
Proof.
  split; intros sub resp p [= <-] Hin; eapply resolve_all_within; exact Hin.
Defined.

(** C2 on a batch of two events against the echoing remote. *)
Lemma C2_one_record_per_event_witness :
  exists out st',
    hydrate_bulk in_order str_of [ev_reply; ev_plain] [echo_api] 7 st_default
      = (Ok out, st') /\
    map (fun o => py_get o "message" VNone) out = map Ok [ev_reply; ev_plain].
Proof.
  destruct (C2_one_record_per_event in_order str_of [ev_reply; ev_plain]
              [echo_api] 7 st_default) as [Hret Hmsg].
  edestruct Hret as (out & st' & Hrun).
  - exact in_order_perm.
  - apply lru_wf_init. lia.
  - apply lru_wf_init. lia.
  - simpl. lia.
  - simpl. lia.
  - vm_compute. reflexivity.
  - repeat constructor.
  - discriminate.
  - constructor; [exact echo_responsive | constructor].
  - exists out, st'. split; [exact Hrun|]. apply (Hmsg out st' Hrun).
Defined.

(** C3 on the reply event, caches empty: one profile call, one post call. *)
Lemma C3_remote_calls_witness :
  exists missing_dids missing_uris st1 new_calls,
    probe_caches in_order
      {| record_mentions_map := [(VInt 0, [VStr "D2"])];
         record_embed_map := [(VInt 0, VStr "at://Z/c/q")];
         all_dids := [VStr "D1"; VStr "D2"];
         all_uris := [VStr "at://Z/c/q"; VStr "at://X/c/p"; VStr "at://Y/c/r"];
         mention_dids_global := [VStr "D2"] |} st_small
      = (Ok (missing_dids, missing_uris), st1) /\
    calls (snd (hydrate_bulk in_order str_of [ev_reply] [echo_api] 0 st_small))
      = (calls st_small ++ new_calls)%list /\
    length (filter is_profile_call new_calls) = ceil_div (length missing_dids) 25 /\
    length (filter is_post_call new_calls) = ceil_div (length missing_uris) 25.
Proof.
  edestruct (C3_remote_calls in_order str_of [ev_reply] [echo_api] 0 st_small)
    as (mds & mus & st1 & nc & H1 & _ & _ & _ & _ & H2 & H3 & H4 & _).
  - exact in_order_perm.
  - apply lru_wf_init. lia.
  - apply lru_wf_init. lia.
  - apply no_none_init.
  - apply no_none_init.
  - vm_compute. reflexivity.
  - reflexivity.
  - exists mds, mus, st1, nc. repeat split; assumption.
Defined.

(** C4 on the reply event, caches of the default capacity. *)
Lemma C4_referenced_keys_cached_witness :
  exists out st',
    hydrate_bulk in_order str_of [ev_reply] [echo_api] 0 st_default = (Ok out, st') /\
    In (VStr "at://Z/c/q") (keys (cache (_post_cache st'))).
Proof.
  destruct (hydrate_bulk in_order str_of [ev_reply] [echo_api] 0 st_default)
    as [[out|e] st'] eqn:Hrun; [|vm_compute in Hrun; discriminate Hrun].
  edestruct (C4_referenced_keys_cached in_order str_of [ev_reply] [echo_api] 0
               st_default) as (mds & mus & st1 & fu & fp & Hp & Hfu & Hfp & Hd & Hu).
  - exact in_order_perm.
  - apply lru_wf_init. lia.
  - apply lru_wf_init. lia.
  - vm_compute. reflexivity.
  - reflexivity.
  - exact (proj1 echo_answers_within).
  - exact (proj2 echo_answers_within).
  - simpl. lia.
  - simpl. lia.
  - exact Hrun.
  - exists out, st'. split; [reflexivity|].
    apply Hu.
    + simpl. auto.
    + right. vm_compute in Hp. injection Hp as <- <- <-.
      vm_compute in Hfp. injection Hfp as <-. simpl. auto.
Defined.

(** C4 as stated fails when a cache is smaller than the batch's reference
    set: with a post cache of capacity 2, the reply event references three
    URIs, the remote returns all three, and the quoted URI, written first,
    is evicted by the third write. *)
Lemma C4_counterexample :
  exists out st' r fetched_posts,
    hydrate_bulk in_order str_of [ev_reply] [echo_api] 0 st_small = (Ok out, st') /\
    collect_refs [ev_reply] = Ok r /\
    fst (fetch_missing_posts echo_api (all_uris r) st_small) = Ok fetched_posts /\
    In (VStr "at://Z/c/q") (all_uris r) /\
    In (VStr "at://Z/c/q") (keys fetched_posts) /\
    ~ In (VStr "at://Z/c/q") (keys (cache (_post_cache st'))).
Proof.
  do 4 eexists.
  split; [vm_compute; reflexivity|].
  split; [vm_compute; reflexivity|].
  split; [vm_compute; reflexivity|].
  split; [simpl; auto|]. split; [simpl; auto|].
  simpl. intros [H|[H|[]]]; discriminate H.
Qed.

(** C5 on the reply event against a client whose profile endpoint fails. *)
Lemma C5_fetch_failure_witness :
  exists e st' st'',
    hydrate_bulk in_order str_of [ev_reply] [failing_api] 0 st_small
      = (Raise e, st') /\
    _user_cache st' = _user_cache st_small /\
    _hydrate_and_release in_order str_of (fun _ => Ok tt) [ev_reply]
      [failing_api] 0 st_small = (Raise e, st'') /\
    semaphore st'' = 100%Z.
Proof.
  edestruct (C5_fetch_failure in_order str_of (fun _ => Ok tt) [ev_reply]
               [failing_api] 0 st_small)
    as (e & st' & st'' & H1 & H2 & _ & H3 & _ & _ & _ & H4 & _).
  - vm_compute. reflexivity.
  - vm_compute. reflexivity.
  - reflexivity.
  - left. eexists. vm_compute. reflexivity.
  - exists e, st', st''. split; [exact H1|]. split; [exact H2|].
    split; [exact H3 | exact H4].
Defined.

(** C7 as stated fails on a null node and on a node of the wrong type. *)
Lemma C7_counterexample :
  collect_refs [ev_null_commit] = Raise AttributeError /\
  collect_refs [ev_bad_facets] = Raise TypeError.
Proof. split; reflexivity. Qed.

(** C7 on the two well-typed events: the author [D1], the mentioned
    account [D2], the parent, the root and the quoted post of the reply are
    all collected. *)
Lemma C7_extraction_total_witness :
  exists r, collect_refs [ev_reply; ev_plain] = Ok r /\
            In (VStr "D1") (all_dids r) /\ In (VStr "D2") (all_dids r) /\
            In (VStr "at://X/c/p") (all_uris r) /\
            In (VStr "at://Y/c/r") (all_uris r) /\
            In (VStr "at://Z/c/q") (all_uris r).
Proof.
  destruct (C7_extraction_total [ev_reply; ev_plain]) as (r & Hr & Hem);
    [repeat constructor|].
  exists r. split; [exact Hr|].
  inversion Hem as [|? ? (H1 & H2 & H3 & H4 & H5) _]; subst.
  split; [exact (H1 eq_refl)|].
  split; [apply H5; left; reflexivity|].
  split; [exact (H2 eq_refl)|].
  split; [exact (H3 eq_refl)|].
  exact (H4 eq_refl eq_refl).
Defined.

(** C9 as stated fails on a component that is truthy without being a
    string: with [commit.collection = 5] the [at_uri] is not empty. *)
Lemma C9_counterexample :
  exists out st' o at_uri,
    hydrate_bulk in_order str_of [ev_int_collection] [echo_api] 0 st_small
      = (Ok out, st') /\
    nth_error out 0 = Some o /\
    py_get o "at_uri" VNone = Ok (VStr at_uri) /\
    at_uri <> "" /\
    ~ (nonempty_str (getd ev_int_collection "did" (VStr "")) /\
       nonempty_str (getd (node_commit ev_int_collection) "collection" (VStr "")) /\
       nonempty_str (getd (node_commit ev_int_collection) "rkey" (VStr ""))).
Proof.
  do 4 eexists.
  split; [vm_compute; reflexivity|].
  split; [reflexivity|]. split; [reflexivity|].
  split; [discriminate|].
  intros (_ & H & _). exact H.
Qed.

(** C9 on the plain event. *)
Lemma C9_at_uri_witness :
  exists at_uri o out st',
    hydrate_bulk in_order str_of [ev_plain] [echo_api] 0 st_small = (Ok out, st') /\
    nth_error out 0 = Some o /\
    py_get o "at_uri" VNone = Ok (VStr at_uri) /\
    at_uri = "at://D1/c/r".
Proof.
  destruct (hydrate_bulk in_order str_of [ev_plain] [echo_api] 0 st_small)
    as [[out|e] st'] eqn:Hrun; [|vm_compute in Hrun; discriminate Hrun].
  destruct (nth_error out 0) as [o|] eqn:Ho;
    [|vm_compute in Hrun; injection Hrun as <- _; discriminate Ho].
  destruct (C9_at_uri in_order str_of [ev_plain] [echo_api] 0 st_small st' out
              Hrun 0 ev_plain o eq_refl Ho)
    as (commit & did & collection & rkey & at_uri
        & G1 & G2 & G3 & G4 & G5 & _ & _ & _ & G6).
  exists at_uri, o, out, st'.
  split; [reflexivity|]. split; [exact Ho|]. split; [exact G5|].
  injection G1 as <-. injection G2 as <-. injection G3 as <-. injection G4 as <-.
  apply (G6 "D1" "c" "r" eq_refl eq_refl eq_refl); discriminate.
Defined.

(* ================================================================= *)
(** * Further concrete runs *)

Lemma lru_full_wf : lru_wf lru_full.
Proof.
  split; [|simpl; lia]. simpl.
  constructor; [intros [H|[]]; discriminate H|].
  constructor; [intros []|constructor].
Defined.

Lemma st_small_ok : caches_ok 2 2 st_small.
Proof.
  split; (split; [split; [apply lru_wf_init; lia | apply no_none_init] | reflexivity]).
Defined.

Lemma st_default_ok : caches_ok 20000 20000 st_default.
Proof.
  split; (split; [split; [apply lru_wf_init; lia | apply no_none_init] | reflexivity]).
Defined.

Lemma echo_resolves :
  resolves (get_profiles echo_api) /\ resolves (get_posts echo_api).
Proof.
  split; intros sub resp s [= <-] Hin; eexists;
    (split; [apply in_flat_map; exists (VStr s); split; [exact Hin | left; reflexivity]
            | reflexivity]).
Defined.


(** X1 on a full cache: the new key evicts [a] and is read back. *)
Lemma lru_get_after_set_witness :
  exists c',
    lru_set (VStr "c") (VInt 3) lru_full = (Ok tt, c') /\
    lru_get (VStr "c") c' = (Ok (VInt 3), c').
Proof.
  apply lru_get_after_set; [reflexivity | exact lru_full_wf | simpl; lia].
Defined.

(** X2 on a full cache, writing [a] twice. *)
Lemma lru_set_twice_witness :
  exists c1 c2,
    lru_set (VStr "a") (VInt 5) lru_full = (Ok tt, c1) /\
    lru_set (VStr "a") (VInt 6) c1 = (Ok tt, c2) /\
    lru_set (VStr "a") (VInt 6) lru_full = (Ok tt, c2).
Proof.
  apply lru_set_twice; [reflexivity | exact lru_full_wf | simpl; lia].
Defined.

(** X3 on a full cache, reading [a] twice. *)
Lemma lru_get_twice_witness :
  lru_get (VStr "a") (snd (lru_get (VStr "a") lru_full)) =
  lru_get (VStr "a") lru_full.
Proof.
  apply lru_get_twice. exact (proj1 lru_full_wf).
Defined.

(** X4 on a full cache: writing [c] evicts [a], the first key. *)
Lemma lru_set_other_keys_witness :
  exists c',
    lru_set (VStr "c") (VInt 3) lru_full = (Ok tt, c') /\
    assoc (VStr "a") (cache c') = None /\
    assoc (VStr "b") (cache c') = assoc (VStr "b") (cache lru_full).
Proof.
  destruct (lru_set_other_keys (VStr "c") (VInt 3) (VStr "a") lru_full)
    as (c' & Hset & _); [reflexivity | exact lru_full_wf | simpl; lia | discriminate |].
  exists c'. split; [exact Hset|].
  vm_compute in Hset. injection Hset as <-. split; reflexivity.
Defined.

(** X5 at capacity 0: a [get] passes and the [set] raises [KeyError]; a
    [get] of a list raises [TypeError]. *)
Lemma lru_zero_capacity_witness :
  (0 <= 0)%Z /\
  lru_run [OpGet (VStr "a"); OpSet (VStr "a") (VInt 1)] (LRUCache_init 0)
    = Raise KeyError /\
  lru_run [OpGet (VStr "a"); OpGet (VList [])] (LRUCache_init 0)
    = Raise TypeError.
Proof.
  split; [lia|]. split.
  - exact (lru_zero_capacity 0 [OpGet (VStr "a"); OpSet (VStr "a") (VInt 1)]
             ltac:(lia)).
  - exact (lru_zero_capacity 0 [OpGet (VStr "a"); OpGet (VList [])]
             ltac:(lia)).
Defined.

(** X6 on a full cache: reading [a] leaves the value of [b]. *)
Lemma lru_get_keeps_values_witness :
  exists c',
    lru_get (VStr "a") lru_full = (Ok (VInt 1), c') /\
    assoc (VStr "b") (cache c') = Some (VInt 2).
Proof.
  destruct (lru_get_keeps_values (VStr "a") (VStr "b") lru_full
              eq_refl (proj1 lru_full_wf)) as (c' & Hget & Hb & _).
  exists c'. split; [exact Hget | exact Hb].
Defined.

(** X7 on a hydration that raises (the profile endpoint fails). *)
Lemma hydrate_bulk_keeps_caches_witness :
  caches_ok 2 2 st_small /\
  caches_ok 2 2
    (snd (hydrate_bulk in_order str_of [ev_reply] [failing_api] 0 st_small)).
Proof.
  split; [exact st_small_ok|].
  apply hydrate_bulk_keeps_caches. exact st_small_ok.
Defined.

(** X9 with one client in the pool. *)
Lemma hydrate_bulk_empty_batch_witness :
  hydrate_bulk in_order str_of [] [echo_api] 3 st_small = (Ok [], st_small).
Proof.
  exact (hydrate_bulk_empty_batch in_order str_of [echo_api] 3 st_small
           in_order_perm).
Defined.

(** X10 on the reply event. *)
Lemma hydrate_bulk_empty_pool_witness :
  exists st',
    hydrate_bulk in_order str_of [ev_reply] [] 0 st_small
      = (Raise IndexError, st') /\
    calls st' = calls st_small /\ stored st' = stored st_small.
Proof.
  edestruct (hydrate_bulk_empty_pool in_order str_of [ev_reply] 0 st_small)
    as (st' & Hrun & _ & _ & Hc & Hs & _).
  - exact in_order_perm.
  - apply lru_wf_init. lia.
  - apply lru_wf_init. lia.
  - vm_compute. reflexivity.
  - exists st'. split; [exact Hrun|]. split; assumption.
Defined.

(** X11 on a batch whose second record is a number. *)
Lemma hydrate_bulk_bad_record_witness :
  exists e,
    collect_refs [ev_plain; VInt 3] = Raise e /\
    hydrate_bulk in_order str_of [ev_plain; VInt 3] [echo_api] 0 st_small
      = (Raise e, st_small).
Proof.
  apply (hydrate_bulk_bad_record in_order str_of [ev_plain; VInt 3] [echo_api] 0
           st_small (VInt 3)); [right; left; reflexivity | reflexivity].
Defined.



(** X14 on three items in chunks of two. *)
Lemma chunks_of_shape_witness :
  1 <= 2 /\
  chunks_of [VInt 1; VInt 2; VInt 3] 2 = [[VInt 1; VInt 2]; [VInt 3]] /\
  concat (chunks_of [VInt 1; VInt 2; VInt 3] 2) = [VInt 1; VInt 2; VInt 3].
Proof.
  destruct (chunks_of_shape [VInt 1; VInt 2; VInt 3] 2 ltac:(lia))
    as (H1 & _ & _ & H2).
  split; [lia|]. split; [exact H1 | exact H2].
Defined.

(** X15 on the reply event, caches empty. *)
Lemma hydrate_bulk_requests_witness :
  exists new_calls,
    calls (snd (hydrate_bulk in_order str_of [ev_reply] [echo_api] 0 st_small)) =
      (calls st_small ++ new_calls)%list /\
    forall c, In c new_calls -> call_keys c <> [].
Proof.
  edestruct (hydrate_bulk_requests in_order str_of [ev_reply] [echo_api] 0 st_small)
    as (nc & Hc & Hk).
  - exact in_order_perm.
  - apply lru_wf_init. lia.
  - apply lru_wf_init. lia.
  - vm_compute. reflexivity.
  - reflexivity.
  - exists nc. split; [exact Hc|]. intros c Hin. exact (proj1 (Hk c Hin)).
Defined.


(** X17 on the reply event: the second hydration sends nothing. *)
Lemma rehydrate_from_cache_witness :
  exists out st' st'',
    hydrate_bulk in_order str_of [ev_reply] [echo_api] 0 st_default = (Ok out, st') /\
    hydrate_bulk in_order str_of [ev_reply] [echo_api] 5 st' = (Ok out, st'') /\
    calls st'' = calls st'.
Proof.
  destruct (hydrate_bulk in_order str_of [ev_reply] [echo_api] 0 st_default)
    as [[out|e] st'] eqn:Hrun; [|vm_compute in Hrun; discriminate Hrun].
  edestruct (rehydrate_from_cache in_order str_of [ev_reply] [echo_api] 0
               20000 20000 st_default st' out) as (st'' & H2 & Hc & _).
  - exact in_order_perm.
  - exact st_default_ok.
  - vm_compute. reflexivity.
  - reflexivity.
  - exact (proj1 echo_answers_within).
  - exact (proj2 echo_answers_within).
  - exact (proj1 echo_resolves).
  - exact (proj2 echo_resolves).
  - reflexivity.
  - reflexivity.
  - simpl. lia.
  - simpl. lia.
  - exact Hrun.
  - exists out, st', st''. split; [reflexivity|]. split; [exact H2 | exact Hc].
Defined.


(** X19 after a hydration of the reply event. *)
Lemma configure_cache_resets_witness :
  exists st',
    configure_cache 5 7
      (snd (hydrate_bulk in_order str_of [ev_reply] [echo_api] 0 st_small))
      = (Ok tt, st') /\
    cache (_user_cache st') = [] /\ cache (_post_cache st') = [].
Proof.
  destruct (configure_cache_resets in_order str_of 5 7
              (snd (hydrate_bulk in_order str_of [ev_reply] [echo_api] 0 st_small)))
    as (st' & H & _ & Hu & Hp & _); [lia | lia |].
  exists st'. split; [exact H|]. split; assumption.
Defined.

(** X20 on a stream of two records. *)
Lemma run_batches_witness :
  exists tc,
    run in_order str_of accept_all
        ([Message ev_plain; Message ev_reply] ++ StreamEnd :: [TaskDone 0 0])
        (TurboCharger_init VNone VNone [echo_api] st_default) = Ok (Some tc) /\
    buffer tc = [] /\
    concat (created tc) = [ev_plain; ev_reply].
Proof.
  destruct (run in_order str_of accept_all
              ([Message ev_plain; Message ev_reply] ++ StreamEnd :: [TaskDone 0 0])
              (TurboCharger_init VNone VNone [echo_api] st_default))
    as [[tc|]|e] eqn:Hrun;
    [ | vm_compute in Hrun; discriminate Hrun | vm_compute in Hrun; discriminate Hrun ].
  destruct (run_batches in_order str_of accept_all VNone VNone [echo_api]
              st_default [Message ev_plain; Message ev_reply] [TaskDone 0 0] tc
              eq_refl eq_refl Hrun) as (B & _ & _ & _ & D).
  exists tc. split; [reflexivity|]. split; [exact B|].
  exact (D eq_refl eq_refl).
Defined.

(** X21 on a stream of one record, its task not yet finished. *)
Lemma run_permits_witness :
  exists tc,
    run in_order str_of accept_all [Message ev_plain; StreamEnd]
        (TurboCharger_init VNone VNone [echo_api] st_default) = Ok (Some tc) /\
    (semaphore (process tc) + Z.of_nat (length (tasks tc)) = 100)%Z.
Proof.
  destruct (run in_order str_of accept_all [Message ev_plain; StreamEnd]
              (TurboCharger_init VNone VNone [echo_api] st_default))
    as [[tc|]|e] eqn:Hrun;
    [ | vm_compute in Hrun; discriminate Hrun | vm_compute in Hrun; discriminate Hrun ].
  destruct (run_permits in_order str_of accept_all VNone VNone [echo_api]
              st_default [Message ev_plain; StreamEnd] tc Hrun) as (P & _).
  exists tc. split; [reflexivity | exact P].
Defined.

(** X22 on a stream of one record, its task finished. *)
Lemma run_delivery_witness :
  exists tc new,
    run in_order str_of accept_all [Message ev_plain; StreamEnd; TaskDone 0 0]
        (TurboCharger_init VNone VNone [echo_api] st_default) = Ok (Some tc) /\
    stored (process tc) = (stored st_default ++ new)%list /\
    length new <= length (finished tc).
Proof.
  destruct (run in_order str_of accept_all
              [Message ev_plain; StreamEnd; TaskDone 0 0]
              (TurboCharger_init VNone VNone [echo_api] st_default))
    as [[tc|]|e] eqn:Hrun;
    [ | vm_compute in Hrun; discriminate Hrun | vm_compute in Hrun; discriminate Hrun ].
  destruct (run_delivery in_order str_of accept_all VNone VNone [echo_api]
              st_default [Message ev_plain; StreamEnd; TaskDone 0 0] tc Hrun)
    as (new & flags & S1 & _ & _ & S2).
  exists tc, new. split; [reflexivity|]. split; [exact S1 | exact S2].
Defined.

(** X26 on a response with one credential. *)
Lemma fetch_session_strings_outcome_witness :
  fetch_session_strings one_credential "https://api.example/" "s3cret"
    = Ok [VStr "tok:::pds.example"].
Proof.
  apply (proj1 (fetch_session_strings_outcome one_credential
                  "https://api.example/" "s3cret"
                  [ VDict [ (VStr "session_string", VStr "tok:::pds.example") ] ]
                  eq_refl)).
  constructor; [|constructor].
  eexists. split; reflexivity.
Defined.

(** C10 on the reply event followed by the plain one: every slot of the
    first is resolved, and the second, which references nothing but its
    author, has [None] in the three post slots and no mention. *)
Lemma C10_hydrated_metadata_witness :
  exists out st' o0 o1 mentions0,
    hydrate_bulk in_order str_of [ev_reply; ev_plain] [echo_api] 0 st_default
      = (Ok out, st') /\
    nth_error out 0 = Some o0 /\ nth_error out 1 = Some o1 /\
    py_get o0 "hydrated_metadata" VNone =
      Ok (VDict [ (VStr "user", VDict [(VStr "did", VStr "D1")]);
                  (VStr "mentions", VDict mentions0);
                  (VStr "parent_post", VDict [(VStr "uri", VStr "at://X/c/p")]);
                  (VStr "reply_post", VDict [(VStr "uri", VStr "at://Y/c/r")]);
                  (VStr "quote_post", VDict [(VStr "uri", VStr "at://Z/c/q")]) ]) /\
    Permutation (keys mentions0) [VStr "D2"] /\
    assoc (VStr "D2") mentions0 = Some (VDict [(VStr "did", VStr "D2")]) /\
    py_get o1 "hydrated_metadata" VNone =
      Ok (VDict [ (VStr "user", VDict [(VStr "did", VStr "D1")]);
                  (VStr "mentions", VDict []);
                  (VStr "parent_post", VNone);
                  (VStr "reply_post", VNone);
                  (VStr "quote_post", VNone) ]).
Proof.
  destruct (hydrate_bulk in_order str_of [ev_reply; ev_plain] [echo_api] 0 st_default)
    as [[out|e] st'] eqn:Hrun; [|vm_compute in Hrun; discriminate Hrun].
  destruct (nth_error out 0) as [o0|] eqn:Ho0;
    [|vm_compute in Hrun; injection Hrun as <- _; discriminate Ho0].
  destruct (nth_error out 1) as [o1|] eqn:Ho1;
    [|vm_compute in Hrun; injection Hrun as <- _; discriminate Ho1].
  pose proof (C10_hydrated_metadata in_order str_of [ev_reply; ev_plain] [echo_api]
                0 st_default st' out in_order_perm
                (lru_wf_init 20000 ltac:(lia)) (lru_wf_init 20000 ltac:(lia)) Hrun)
    as HC.
  destruct (HC 0 ev_reply o0 eq_refl Ho0) as (ms0 & rd0 & G1 & G2 & G3 & _ & G5 & _).
  destruct (HC 1 ev_plain o1 eq_refl Ho1) as (ms1 & rd1 & K1 & K2 & K3 & _).
  vm_compute in G2. injection G2 as <-.
  vm_compute in K2. injection K2 as <-.
  apply Permutation_sym, Permutation_nil in K3.
  destruct ms1 as [|? ?]; [|discriminate K3].
  specialize (G5 (VStr "D2") (or_introl eq_refl)).
  vm_compute in Hrun. injection Hrun as <- <-.
  do 2 eexists. exists o0, o1, ms0.
  split; [vm_compute; reflexivity|]. split; [exact Ho0|]. split; [exact Ho1|].
  split; [rewrite G1; reflexivity|]. split; [exact G3|].
  split; [rewrite G5; reflexivity|].
  rewrite K1. reflexivity.
Defined.
